(** * sleap.nn.tracking: matching solvers, tracking queue and tracker step

    A shallow embedding of [sleap/nn/tracking.py].  Cost matrices are numpy
    arrays of doubles; the module only compares, negates and (for the total
    cost of a matching) adds them, so a double is modelled by its value:
    every finite double is an integer multiple of 2^-1074, and [Fin z] stands
    for z * 2^-1074.  Comparison and negation are exact on that grid; sums are
    taken exactly. *)

From stdpp Require Import base option list sorting gmap.
From Equations Require Import Equations.

Local Open Scope Z_scope.

(** ** Doubles *)

Inductive fl : Set :=
| NInf
| Fin (z : Z)
| PInf
| NaN.

Global Instance fl_eq_dec : EqDecision fl.
Proof. solve_decision. Defined.

Global Instance fl_inhabited : Inhabited fl := populate NaN.

Definition isnan (x : fl) : bool :=
  match x with NaN => true | _ => false end.

Definition isinf (x : fl) : bool :=
  match x with NInf | PInf => true | _ => false end.

Definition isfinite (x : fl) : bool :=
  match x with Fin _ => true | _ => false end.

(** Unary minus. *)
Definition fl_neg (x : fl) : fl :=
  match x with
  | NInf => PInf
  | Fin z => Fin (- z)
  | PInf => NInf
  | NaN => NaN
  end.

(** IEEE [<]: false as soon as one side is NaN. *)
Definition fl_ltb (a b : fl) : bool :=
  match a, b with
  | NaN, _ | _, NaN => false
  | NInf, NInf => false
  | NInf, _ => true
  | _, NInf => false
  | PInf, _ => false
  | Fin _, PInf => true
  | Fin x, Fin y => bool_decide (x < y)
  end.

(** IEEE [<=]. *)
Definition fl_leb (a b : fl) : bool :=
  match a, b with
  | NaN, _ | _, NaN => false
  | _, _ => negb (fl_ltb b a)
  end.

(** IEEE [+]: opposite infinities give NaN. *)
Definition fl_add (a b : fl) : fl :=
  match a, b with
  | NaN, _ | _, NaN => NaN
  | PInf, NInf | NInf, PInf => NaN
  | PInf, _ | _, PInf => PInf
  | NInf, _ | _, NInf => NInf
  | Fin x, Fin y => Fin (x + y)
  end.

(** The order numpy sorts doubles by: [a < b], or [b] is NaN and [a] is not;
    NaN goes last and all NaN are tied. *)
Definition sort_lt (a b : fl) : bool :=
  fl_ltb a b || (isnan b && negb (isnan a)).

Definition sort_le (a b : fl) : Prop := sort_lt b a = false.

Global Instance sort_le_dec a b : Decision (sort_le a b).
Proof. unfold sort_le. apply _. Defined.

(** ** Two-dimensional arrays *)

Abbreviation edge := (nat * nat)%type.

(** An ndarray of doubles of rank 2: its shape and its row-major buffer. *)
Record ndarray : Set := mk_ndarray {
  shape : nat * nat;
  data : list fl
}.

Global Instance ndarray_eq_dec : EqDecision ndarray.
Proof. solve_decision. Defined.

Definition well_shaped (a : ndarray) : Prop :=
  length (data a) = ((shape a).1 * (shape a).2)%nat.

Global Instance well_shaped_dec a : Decision (well_shaped a).
Proof. unfold well_shaped. apply _. Defined.

(** [a[i, j]]; out of the shape the index is an error. *)
Definition ndarray_get (a : ndarray) (i j : nat) : option fl :=
  if bool_decide (i < (shape a).1 ∧ j < (shape a).2)%nat
  then data a !! (i * (shape a).2 + j)%nat
  else None.

(** Cost of an edge, NaN standing for no such cell. *)
Definition cost_at (a : ndarray) (e : edge) : fl :=
  default NaN (ndarray_get a e.1 e.2).

(** [np.unravel_index(k, shape)] for a C-ordered array of rank 2. *)
Definition unravel_index (sh : nat * nat) (k : nat) : edge :=
  ((k `div` sh.2)%nat, (k `mod` sh.2)%nat).

(** Position of a cell in the row-major enumeration. *)
Definition ravel_index (sh : nat * nat) (e : edge) : nat :=
  (e.1 * sh.2 + e.2)%nat.

(** [a[mask(a)] = v]: in-place masked assignment, as a new buffer. *)
Definition set_where (mask : fl → bool) (v : fl) (a : ndarray) : ndarray :=
  mk_ndarray (shape a) ((λ x, if mask x then v else x) <$> data a).

(** Element-wise map, the shape kept. *)
Definition ndarray_map (f : fl → fl) (a : ndarray) : ndarray :=
  mk_ndarray (shape a) (f <$> data a).

(** ** [np.argsort]

    [np.argsort(a, axis=None)] returns the indices that sort the flattened
    array.  The module calls it with the default [kind], which numpy documents
    as not stable: only the two properties below are promised, the order of
    tied cells is the sort routine's choice. *)

Definition key_at (v : list fl) (k : nat) : fl := default NaN (v !! k).

Class NpArgsort := {
  argsort : list fl → list nat;
  argsort_perm : ∀ v, argsort v ≡ₚ seq 0 (length v);
  argsort_sorted : ∀ v,
    StronglySorted (λ a b, sort_le (key_at v a) (key_at v b)) (argsort v)
}.

(** A sort is stable when tied cells keep their row-major order. *)
Definition key_index_le (p q : fl * nat) : Prop :=
  sort_lt p.1 q.1 = true ∨ (sort_lt q.1 p.1 = false ∧ (p.2 ≤ q.2)%nat).

Global Instance key_index_le_dec p q : Decision (key_index_le p q).
Proof. unfold key_index_le. apply _. Defined.


(** Sorting the (value, index) pairs by a total order on pairs. *)
Definition argsort_by (R : relation (fl * nat)) `{∀ p q, Decision (R p q)}
    (v : list fl) : list nat :=
  (merge_sort R (zip v (seq 0 (length v)))).*2.

(** ** Greedy matching *)

(** The loop of [greedy_matching]: pop the first edge, record it, delete the
    remaining edges that share its row or its column. *)
Equations? greedy_loop (unassigned_edges assignments : list edge) : list edge
    by wf (length unassigned_edges) lt :=
  greedy_loop [] assignments := assignments;
  greedy_loop (e :: rest) assignments :=
    greedy_loop (filter (λ e', ¬ (e'.1 = e.1 ∨ e'.2 = e.2)) rest)
                (assignments ++ [e]).
Proof. simpl. apply Nat.lt_succ_r, length_filter. Qed.

Definition greedy_matching `{NpArgsort} (cost_matrix : ndarray) : list edge :=
  let unassigned_edges :=
    unravel_index (shape cost_matrix) <$> argsort (data cost_matrix) in
  greedy_loop unassigned_edges [].

(** Two edges conflict when they share their row or their column. *)
Definition conflict (e e' : edge) : Prop := e'.1 = e.1 ∨ e'.2 = e.2.

Global Instance conflict_dec e e' : Decision (conflict e e').
Proof. unfold conflict. apply _. Defined.

(** Tied cells of a list of edges come in row-major order, and costs
    ascend. *)
Definition ties_in_row_major_order (c : ndarray) (l : list edge) : Prop :=
  StronglySorted
    (λ e e', key_index_le (cost_at c e, ravel_index (shape c) e)
                          (cost_at c e', ravel_index (shape c) e')) l.

Global Instance ties_in_row_major_order_dec c l :
  Decision (ties_in_row_major_order c l).
Proof. unfold ties_in_row_major_order. apply _. Defined.

(** ** Optimal matching *)

(** Sum of the costs of the edges of a matching. *)
Definition total_cost (a : ndarray) (es : list edge) : fl :=
  foldr (λ e s, fl_add (cost_at a e) s) (Fin 0) es.

(** All the ways to give [k] of the rows [rows], taken in order, distinct
    columns out of [cols]. *)
Fixpoint assignments (rows cols : list nat) (k : nat) : list (list edge) :=
  match k, rows with
  | O, _ => [[]]
  | S _, [] => []
  | S k', r :: rows' =>
      (c ← cols;
       ((r, c) ::.) <$> assignments rows' (filter (λ c', c' ≠ c) cols) k')
      ++ assignments rows' cols k
  end.

(** The first assignment of least total cost. *)
Fixpoint min_cost_assignment (a : ndarray) (ms : list (list edge))
    : option (list edge) :=
  match ms with
  | [] => None
  | m :: ms' =>
      match min_cost_assignment a ms' with
      | Some b => if fl_ltb (total_cost a b) (total_cost a m)
                  then Some b else Some m
      | None => Some m
      end
  end.

(** Modelled from the spec: scipy's [linear_sum_assignment], which is not part
    of the module, "solve[s] the rectangular linear assignment problem to
    minimize total cost": it pairs min(n, m) rows and columns, each used once,
    rows in increasing order, with the least possible total cost.  It is given
    here by exhaustive search, and refuses (ValueError) a matrix with an entry
    that is not finite; the caller below removes the infinities first. *)
Definition linear_sum_assignment (a : ndarray) : option (list edge) :=
  if forallb isfinite (data a) then
    min_cost_assignment a
      (assignments (seq 0 (shape a).1) (seq 0 (shape a).2)
                   ((shape a).1 `min` (shape a).2)%nat)
  else None.

(** A matching: no row and no column is used twice. *)
Definition matching (M : list edge) : Prop := NoDup M.*1 ∧ NoDup M.*2.

(** The edges of [M] are cells of a matrix of shape [sh]. *)
Definition in_shape (sh : nat * nat) (M : list edge) : Prop :=
  ∀ e, e ∈ M → (e.1 < sh.1)%nat ∧ (e.2 < sh.2)%nat.

(** The value of a finite double, and the exact sum of the costs of a list
    of edges. *)
Definition fin_val (x : fl) : Z :=
  match x with Fin z => z | _ => 0 end.

Definition cost_sum (a : ndarray) (es : list edge) : Z :=
  foldr (λ e s, fin_val (cost_at a e) + s) 0 es.

(** ** The process state

    Python objects have an identity; arrays are passed by reference; the two
    similarity scorers below keep a dictionary in a default argument, which is
    created once, with the function, and shared by every call. *)

Record world : Type := mk_world {
  next_oid : nat;
  arrays : gmap nat ndarray;
  centroid_cache : gmap nat (fl * fl);
  iou_cache : gmap nat (fl * fl * fl * fl)
}.

(** Computations that read and write the process state and may raise. *)
Definition M (A : Type) : Type := world → option (A * world).

Global Instance M_ret : MRet M := λ A x w, Some (x, w).

Global Instance M_bind : MBind M := λ A B f m w,
  match m w with
  | Some (x, w') => f x w'
  | None => None
  end.

Definition raise {A} : M A := λ _, None.

Definition lift {A} (o : option A) : M A := λ w,
  match o with Some x => Some (x, w) | None => None end.

(** A new object: its identity is not that of any object made before. *)
Definition fresh_oid : M nat := λ w,
  Some (next_oid w,
        mk_world (S (next_oid w)) (arrays w) (centroid_cache w) (iou_cache w)).

Definition read_array (p : nat) : M ndarray := λ w,
  match arrays w !! p with Some a => Some (a, w) | None => None end.

Definition write_array (p : nat) (a : ndarray) : M unit := λ w,
  Some ((), mk_world (next_oid w) (<[p := a]> (arrays w))
                     (centroid_cache w) (iou_cache w)).

Definition new_array (a : ndarray) : M nat :=
  p ← fresh_oid;
  _ ← write_array p a;
  mret p.

(** [hungarian_matching]: the argument is a reference to the caller's array;
    the infinities are overwritten in that array, then scipy solves it. *)
Definition hungarian_matching (cost_matrix : nat) : M (list edge) :=
  a ← read_array cost_matrix;
  _ ← write_array cost_matrix (set_where isinf (Fin 0) a);
  a' ← read_array cost_matrix;
  lift (linear_sum_assignment a').

(** [greedy_matching] as the tracker calls it, on a reference. *)
Definition call_greedy_matching `{NpArgsort} (cost_matrix : nat)
    : M (list edge) :=
  a ← read_array cost_matrix;
  mret (greedy_matching a).

(** The two caches are the same in two states. *)
Definition same_caches (w w' : world) : Prop :=
  centroid_cache w = centroid_cache w' ∧ iou_cache w = iou_cache w'.

(** The caches have only grown from one state to the other: every entry is
    still there, with the value it had. *)
Definition caches_kept (w w' : world) : Prop :=
  centroid_cache w ⊆ centroid_cache w' ∧ iou_cache w ⊆ iou_cache w'.

(** A computation that leaves every cache entry in place. *)
Definition keeps_caches {A} (m : M A) : Prop :=
  ∀ w r w', m w = Some (r, w') → caches_kept w w'.

(** ** Instances and tracks *)

Record Track : Set := mk_Track {
  track_oid : nat;
  spawned_on : Z;
  name : nat          (* the n of "track_n" *)
}.

Global Instance Track_eq_dec : EqDecision Track.
Proof. solve_decision. Defined.

(** What the tracker reads of an instance (a predicted instance, or a
    [ShiftedInstance], which stands in for one): its identity, the array of
    its points, one (x, y) row per node with NaN for a missing coordinate, its
    track and its score. *)
Record Instance : Set := mk_Instance {
  oid : nat;
  points_array : list (fl * fl);
  track : option Track;
  tracking_score : fl
}.

Global Instance Instance_eq_dec : EqDecision Instance.
Proof. solve_decision. Defined.

(** Modelled from the spec: the [n_visible_points] property of
    [sleap.instance.Instance], the "visible-keypoint count": the number of
    points with no missing coordinate. *)
Definition n_visible_points (inst : Instance) : nat :=
  length (filter (λ p : fl * fl, isnan p.1 = false ∧ isnan p.2 = false)
                 (points_array inst)).

(** [attr.evolve(inst, track=..., tracking_score=...)]: a new object. *)
Definition evolve (inst : Instance) (tr : option Track) (score : fl)
    : M Instance :=
  o ← fresh_oid;
  mret (mk_Instance o (points_array inst) tr score).

(** [np.nanmin] and [np.nanmax] of a column. *)
Definition nanmin (v : list fl) : fl :=
  foldr (λ x m, if isnan x then m else if isnan m then x
                else if fl_ltb x m then x else m) NaN v.

Definition nanmax (v : list fl) : fl :=
  foldr (λ x m, if isnan x then m else if isnan m then x
                else if fl_ltb m x then x else m) NaN v.

(** [bounding_box]: (min y, min x, max y, max x).  On an array with no rows
    [np.nanmin] raises a ValueError (a reduction of a zero-size array); on a
    column of NaN it gives NaN. *)
Definition bounding_box (inst : Instance) : option (fl * fl * fl * fl) :=
  match points_array inst with
  | [] => None
  | _ :: _ =>
      let xs := (points_array inst).*1 in
      let ys := (points_array inst).*2 in
      Some (nanmin ys, nanmin xs, nanmax ys, nanmax xs)
  end.

(** [np.argmax] of a list: the first index whose value is not below any
    earlier one, a NaN ending the search; an empty list is an error. *)
Fixpoint argmax_from (mp : fl) (max_ind i : nat) (v : list fl) : nat :=
  match v with
  | [] => max_ind
  | x :: v' =>
      if isnan mp then max_ind
      else if fl_leb x mp then argmax_from mp max_ind (S i) v'
      else argmax_from x i (S i) v'
  end.

Definition np_argmax (v : list fl) : option nat :=
  match v with
  | [] => None
  | x :: v' => Some (argmax_from x 0 1 v')
  end.

(** ** The tracking queue: [collections.deque] with [maxlen] *)

Record deque (A : Type) : Type := mk_deque {
  maxlen : option nat;
  items : list A
}.
Arguments mk_deque {A} _ _.
Arguments maxlen {A} _.
Arguments items {A} _.

(** [deque.append]: the item goes to the right end; a bounded deque that is
    now longer than [maxlen] drops its leftmost item. *)
Definition deque_append {A} (q : deque A) (x : A) : deque A :=
  let items' := items q ++ [x] in
  match maxlen q with
  | Some n =>
      if bool_decide (n < length items')%nat
      then mk_deque (maxlen q) (tail items')
      else mk_deque (maxlen q) items'
  | None => mk_deque (maxlen q) items'
  end.

(** The last [n] items of a list. *)
Definition lastn {A} (n : nat) (l : list A) : list A :=
  drop (length l - n) l.

(** A detection spawns a track when it was not matched and has enough visible
    points. *)
Definition spawnable (min_new_track_points : Z) (tracked_inds : list nat)
    (p : nat * Instance) : Prop :=
  (p.1 ∉ tracked_inds) ∧
  ¬ (Z.of_nat (n_visible_points p.2) < min_new_track_points).

Global Instance spawnable_dec m inds p : Decision (spawnable m inds p).
Proof. unfold spawnable. apply _. Defined.

(** The detections with their positions in the input, from position [i]. *)
Definition enumerate_from (i : nat) (u : list Instance) : list (nat * Instance) :=
  zip (seq i (length u)) u.

(** The bounding box the IoU scorer uses for an instance: the cached one when
    the instance is in the cache; the scorer raises when it has to compute
    the box of an instance with no nodes. *)
Definition bounding_box_used (cache : gmap nat (fl * fl * fl * fl))
    (inst : Instance) : option (fl * fl * fl * fl) :=
  match cache !! oid inst with
  | Some c => Some c
  | None => bounding_box inst
  end.

(** ** Similarity scorers, candidate makers and the tracker

    What the module takes from numpy, cv2 and [sleap.nn.utils] and computes in
    floating point is a parameter of the development. *)

Section Tracking.

Context {Image : Type}.

(** [np.nanmedian(points, axis=0)]. *)
Variable nanmedian : list (fl * fl) → fl * fl.

(** [np.linalg.norm(a - b)]. *)
Variable norm_diff : fl * fl → fl * fl → fl.

(** [sleap.nn.utils.compute_iou]. *)
Variable compute_iou : fl * fl * fl * fl → fl * fl * fl * fl → fl.

(** [FlowCandidateMaker.flow_shift_instances], a static method built on
    [cv2.calcOpticalFlowPyrLK]: reference instances, reference image, new
    image, [min_shifted_points], [scale], [window_size], [max_levels]. *)
Variable flow_shift_instances :
  list Instance → option Image → option Image → Z → fl → Z → Z →
  M (list Instance).

Definition centroid (inst : Instance) : fl * fl :=
  nanmedian (points_array inst).

(** [if inst not in cache: cache[inst] = inst.centroid], on the dictionary of
    the default argument; instances hash by identity. *)
Definition cache_centroid (inst : Instance) : M unit := λ w,
  match centroid_cache w !! oid inst with
  | Some _ => Some ((), w)
  | None =>
      Some ((), mk_world (next_oid w) (arrays w)
                  (<[oid inst := centroid inst]> (centroid_cache w))
                  (iou_cache w))
  end.

Definition cached_centroid (inst : Instance) : M (fl * fl) := λ w,
  match centroid_cache w !! oid inst with
  | Some c => Some (c, w)
  | None => None
  end.

Definition centroid_distance (ref_instance query_instance : Instance) : M fl :=
  _ ← cache_centroid ref_instance;
  _ ← cache_centroid query_instance;
  a ← cached_centroid ref_instance;
  b ← cached_centroid query_instance;
  mret (fl_neg (norm_diff a b)).

Definition cache_bounding_box (inst : Instance) : M unit := λ w,
  match iou_cache w !! oid inst with
  | Some _ => Some ((), w)
  | None =>
      match bounding_box inst with
      | Some bbox =>
          Some ((), mk_world (next_oid w) (arrays w) (centroid_cache w)
                      (<[oid inst := bbox]> (iou_cache w)))
      | None => None
      end
  end.

Definition cached_bounding_box (inst : Instance) : M (fl * fl * fl * fl) :=
  λ w,
  match iou_cache w !! oid inst with
  | Some c => Some (c, w)
  | None => None
  end.

Definition instance_iou (ref_instance query_instance : Instance) : M fl :=
  _ ← cache_bounding_box ref_instance;
  _ ← cache_bounding_box query_instance;
  a ← cached_bounding_box ref_instance;
  b ← cached_bounding_box query_instance;
  mret (compute_iou a b).

(** The centroid a scorer uses for an instance: the cached one when the
    instance is in the cache, whatever its points are now. *)
Definition centroid_used (cache : gmap nat (fl * fl)) (inst : Instance)
    : fl * fl :=
  default (centroid inst) (cache !! oid inst).

Record MatchedInstance : Type := mk_MatchedInstance {
  mi_t : Z;
  instances_t : list Instance;
  img_t : option Image
}.

Record FlowCandidateMaker : Type := mk_FlowCandidateMaker {
  flow_min_points : Z;
  img_scale : fl;
  of_window_size : Z;
  of_max_levels : Z;
  save_shifted_instances : bool;
  shifted_instances : gmap (Z * Z) (list Instance)
}.

Inductive CandidateMaker : Type :=
| Flow (maker : FlowCandidateMaker)
| Simple (min_points : Z).

(** [FlowCandidateMaker.get_candidates], the loop over the queue. *)
Fixpoint flow_get_candidates (self : FlowCandidateMaker)
    (track_matching_queue : list MatchedInstance) (t : Z) (img : option Image)
    (candidate_instances : list Instance)
    : M (FlowCandidateMaker * list Instance) :=
  match track_matching_queue with
  | [] => mret (self, candidate_instances)
  | matched_item :: rest =>
      if bool_decide (0 < length (instances_t matched_item))%nat then
        shifted ← flow_shift_instances (instances_t matched_item)
                     (img_t matched_item) img (flow_min_points self)
                     (img_scale self) (of_window_size self)
                     (of_max_levels self);
        let self' :=
          if save_shifted_instances self then
            mk_FlowCandidateMaker (flow_min_points self) (img_scale self)
              (of_window_size self) (of_max_levels self)
              (save_shifted_instances self)
              (<[(mi_t matched_item, t) := shifted]> (shifted_instances self))
          else self in
        flow_get_candidates self' rest t img (candidate_instances ++ shifted)
      else flow_get_candidates self rest t img candidate_instances
  end.

(** [SimpleCandidateMaker.get_candidates]. *)
Definition simple_get_candidates (min_points : Z)
    (track_matching_queue : list MatchedInstance) : list Instance :=
  matched_item ← track_matching_queue;
  filter (λ ref_instance, min_points ≤ Z.of_nat (n_visible_points ref_instance))
         (instances_t matched_item).

Definition get_candidates (maker : CandidateMaker)
    (track_matching_queue : list MatchedInstance) (t : Z) (img : option Image)
    : M (CandidateMaker * list Instance) :=
  match maker with
  | Flow self =>
      '(self', candidates) ← flow_get_candidates self track_matching_queue t img [];
      mret (Flow self', candidates)
  | Simple min_points =>
      mret (maker, simple_get_candidates min_points track_matching_queue)
  end.

Record Tracker : Type := mk_Tracker {
  track_window : nat;
  similarity_function : Instance → Instance → M fl;
  matching_function : nat → M (list edge);
  candidate_maker : CandidateMaker;
  min_new_track_points : Z;
  track_matching_queue : deque MatchedInstance;
  spawned_tracks : list Track;
  save_tracked_instances : bool;
  tracked_instances : gmap Z (list Instance)
}.

(** [_init_matching_queue]. *)
Definition _init_matching_queue (track_window : nat) : deque MatchedInstance :=
  mk_deque (Some track_window) [].

(** A tracker as its constructor leaves it when only the configuration is
    given. *)
Definition new_Tracker (track_window : nat)
    (similarity_function : Instance → Instance → M fl)
    (matching_function : nat → M (list edge))
    (candidate_maker : CandidateMaker) (min_new_track_points : Z) : Tracker :=
  mk_Tracker track_window similarity_function matching_function
    candidate_maker min_new_track_points
    (_init_matching_queue track_window) [] false ∅.

(** "Infer timestep if not provided." *)
Definition infer_timestep (queue : deque MatchedInstance) (t : option Z) : Z :=
  match t with
  | Some t => t
  | None =>
      match last (items queue) with
      | Some matched_item => mi_t matched_item + 1
      | None => 0
      end
  end.

(** [candidate_instances_by_track[instance.track].append(instance)] on a
    dictionary, which keeps its keys in the order they were first seen. *)
Fixpoint group_append (by_track : list (option Track * list Instance))
    (instance : Instance) : list (option Track * list Instance) :=
  match by_track with
  | [] => [(track instance, [instance])]
  | (k, group) :: by_track' =>
      if decide (k = track instance)
      then (k, group ++ [instance]) :: by_track'
      else (k, group) :: group_append by_track' instance
  end.

Definition group_by_track (candidate_instances : list Instance)
    : list (option Track * list Instance) :=
  foldl group_append [] candidate_instances.

(** "Keep the best scoring instance for this track." *)
Definition best_candidate (similarity : Instance → Instance → M fl)
    (untracked_instance : Instance) (track_instances : list Instance)
    : M (Instance * fl) :=
  track_matching_similarities ←
    mapM (similarity untracked_instance) track_instances;
  best_ind ← lift (np_argmax track_matching_similarities);
  best ← lift (track_instances !! best_ind);
  best_similarity ← lift (track_matching_similarities !! best_ind);
  mret (best, best_similarity).

Definition score_candidates (similarity : Instance → Instance → M fl)
    (untracked_instances : list Instance)
    (by_track : list (option Track * list Instance))
    : M (list (list (Instance * fl))) :=
  mapM (λ untracked_instance,
          mapM (λ group : option Track * list Instance,
                  best_candidate similarity untracked_instance group.2)
               by_track)
       untracked_instances.

(** "Assign each matched instance." *)
Definition assign_match (untracked_instances : list Instance)
    (matching_candidates : list (list Instance))
    (matching_similarities : ndarray) (e : edge) : M Instance :=
  matched_instance ← lift (untracked_instances !! e.1);
  ref_instance ← lift (matching_candidates !! e.1 ≫= (.!! e.2));
  match_similarity ← lift (ndarray_get matching_similarities e.1 e.2);
  evolve matched_instance (track ref_instance) match_similarity.

(** "Spawn a new track for each remaining untracked instance." *)
Fixpoint spawn_tracks (min_new_track_points t : Z) (tracked_inds : list nat)
    (i : nat) (untracked_instances : list Instance)
    (spawned_tracks : list Track) (tracked_instances : list Instance)
    : M (list Track * list Instance) :=
  match untracked_instances with
  | [] => mret (spawned_tracks, tracked_instances)
  | inst :: rest =>
      if bool_decide (i ∈ tracked_inds) then
        spawn_tracks min_new_track_points t tracked_inds (S i) rest
                     spawned_tracks tracked_instances
      else if bool_decide (Z.of_nat (n_visible_points inst) < min_new_track_points) then
        spawn_tracks min_new_track_points t tracked_inds (S i) rest
                     spawned_tracks tracked_instances
      else
        o ← fresh_oid;
        let new_track := mk_Track o t (length spawned_tracks) in
        inst' ← evolve inst (Some new_track) (tracking_score inst);
        spawn_tracks min_new_track_points t tracked_inds (S i) rest
                     (spawned_tracks ++ [new_track])
                     (tracked_instances ++ [inst'])
  end.

(** "Process untracked instances": candidates, similarity matrix, matching. *)
Definition match_candidates (self : Tracker)
    (untracked_instances : list Instance) (img : option Image) (t : Z)
    : M (CandidateMaker * list Instance * list nat) :=
  if bool_decide (0 < length untracked_instances)%nat then
    '(maker, candidate_instances) ←
      get_candidates (candidate_maker self)
                     (items (track_matching_queue self)) t img;
    if bool_decide (0 < length candidate_instances)%nat then
      let by_track := group_by_track candidate_instances in
      scored ← score_candidates (similarity_function self)
                                untracked_instances by_track;
      let matching_candidates : list (list Instance) :=
        (λ row : list (Instance * fl), row.*1) <$> scored in
      let matching_similarities :=
        mk_ndarray (length untracked_instances, length by_track)
                   (concat ((λ row : list (Instance * fl), row.*2)
                              <$> scored)) in
      cost ← new_array (set_where isnan PInf
                          (ndarray_map fl_neg matching_similarities));
      matches ← matching_function self cost;
      tracked ← mapM (assign_match untracked_instances matching_candidates
                                   matching_similarities) matches;
      mret (maker, tracked, matches.*1)
    else mret (maker, [], [])
  else mret (candidate_maker self, [], []).

(** [Tracker.track]: one step of tracking.  The result is the tracker after
    the call and the list returned. *)
Definition Tracker_track (self : Tracker) (untracked_instances : list Instance)
    (img : option Image) (t : option Z) : M (Tracker * list Instance) :=
  let t := infer_timestep (track_matching_queue self) t in
  '(maker, tracked, tracked_inds) ←
    match_candidates self untracked_instances img t;
  '(spawned, tracked) ←
    spawn_tracks (min_new_track_points self) t tracked_inds 0
                 untracked_instances (spawned_tracks self) tracked;
  let queue :=
    deque_append (track_matching_queue self)
                 (mk_MatchedInstance t tracked img) in
  let saved :=
    if save_tracked_instances self
    then <[t := tracked]> (tracked_instances self)
    else tracked_instances self in
  mret (mk_Tracker (track_window self) (similarity_function self)
          (matching_function self) maker (min_new_track_points self)
          queue spawned (save_tracked_instances self) saved,
        tracked).

(** A sequence of calls to [track] on one tracker, one (detections, image,
    timestep) per call; the result is the tracker at the end and the timestep
    each call ran at. *)
Fixpoint track_calls (self : Tracker)
    (calls : list (list Instance * option Image * option Z))
    : M (Tracker * list Z) :=
  match calls with
  | [] => mret (self, [])
  | (untracked_instances, img, t) :: rest =>
      '(self', _) ← Tracker_track self
                      untracked_instances img t;
      '(self'', ts) ← track_calls self' rest;
      mret (self'', infer_timestep (track_matching_queue self) t :: ts)
  end.

(** [Tracker.unique_tracks_in_queue]: the tracks of the instances in the
    queue, each once.  Python gives no order to the elements of a set; the
    order of this list stands for whichever it is. *)
Definition unique_tracks_in_queue (self : Tracker) : list (option Track) :=
  remove_dups (match_item ← items (track_matching_queue self);
               track <$> instances_t match_item).

(** [SimpleTracker]: "a Tracker pre-configured to use simple, non-image-based
    candidates": IoU similarity, the optimal solver and a
    [SimpleCandidateMaker] with its default [min_points]. *)
Definition SimpleTracker (track_window : nat) (min_new_track_points : Z)
    : Tracker :=
  new_Tracker track_window instance_iou hungarian_matching (Simple 0)
    min_new_track_points.

End Tracking.

(** ** [FlowCandidateMaker.flow_shift_instances]

    What cv2 computes is a parameter: [optical_flow ref_img new_img scale
    window_size max_levels pts] stands for the conversion to grayscale, the
    squeeze and the resize of the two images, [cv2.calcOpticalFlowPyrLK] on
    the points times [scale], and the division of the shifted points by
    [scale].  It gives, for each point in order, the shifted point, the status
    (found or not) and the error, or raises. *)

Section Optical_flow.

Context {Image : Type}.

Variable optical_flow :
  Image → option Image → fl → Z → Z → list (fl * fl) →
  option (list (fl * fl * bool * fl)).

(** [-np.mean(err)]. *)
Variable neg_mean : list fl → fl.

(** [np.split(a, np.cumsum(lens)[:-1], axis=0)]: the rows are cut at the
    running sums of all lengths but the last; the last piece takes what is
    left. *)
Fixpoint np_split {A} (lens : list nat) (rows : list A) : list (list A) :=
  match lens with
  | [] => [rows]
  | n :: lens' =>
      match lens' with
      | [] => [rows]
      | _ :: _ => take n rows :: np_split lens' (drop n rows)
      end
  end.

(** [ShiftedInstance.from_instance(ref, new_points_array=pts,
    shift_score=score)]: a new object with the track of [ref]. *)
Definition from_instance (ref_instance : Instance)
    (new_points_array : list (fl * fl)) (shift_score : fl) : M Instance :=
  o ← fresh_oid;
  mret (mk_Instance o new_points_array (track ref_instance) shift_score).

(** "Create shifted instances." *)
Fixpoint shift_each (min_shifted_points : Z)
    (l : list (Instance * list (fl * fl * bool * fl)))
    : M (list Instance) :=
  match l with
  | [] => mret []
  | (ref, piece) :: rest =>
      let found := filter (λ r : fl * fl * bool * fl, r.1.2 = true) piece in
      if bool_decide (min_shifted_points < Z.of_nat (length found)) then
        let pts :=
          (λ r : fl * fl * bool * fl, if r.1.2 then r.1.1 else (NaN, NaN))
            <$> piece in
        shifted ← from_instance ref pts (neg_mean (snd <$> found));
        shifted_instances ← shift_each min_shifted_points rest;
        mret (shifted :: shifted_instances)
      else shift_each min_shifted_points rest
  end.

Definition FlowCandidateMaker_flow_shift_instances
    (ref_instances : list Instance) (ref_img new_img : option Image)
    (min_shifted_points : Z) (scale : fl) (window_size max_levels : Z)
    : M (list Instance) :=
  match ref_img with
  | None => raise                     (* [ref_img.ndim] of None *)
  | Some ref_img =>
      let ref_pts := points_array <$> ref_instances in
      if bool_decide (ref_pts = []) then raise   (* [np.concatenate] of [] *)
      else
        rows ← lift (optical_flow ref_img new_img scale window_size max_levels
                       (concat ref_pts));
        shift_each min_shifted_points
          (zip ref_instances (np_split (length <$> ref_pts) rows))
  end.

End Optical_flow.

(** * Properties *)

(** ** The sort order *)

Lemma sort_lt_irrefl a : sort_lt a a = false.
Proof. destruct a; simpl; try done. unfold sort_lt; simpl. rewrite orb_false_r. apply bool_decide_eq_false. lia. Qed.

Lemma sort_lt_asym a b : sort_lt a b = true → sort_lt b a = false.
Proof.
  destruct a, b; unfold sort_lt; simpl; try done.
  rewrite !orb_false_r. intros Hab%bool_decide_eq_true.
  apply bool_decide_eq_false. lia.
Qed.

Lemma sort_lt_trans a b c :
  sort_lt a b = true → sort_lt b c = true → sort_lt a c = true.
Proof.
  destruct a, b, c; unfold sort_lt; simpl; try done.
  rewrite !orb_false_r. intros H1%bool_decide_eq_true H2%bool_decide_eq_true.
  apply bool_decide_eq_true. lia.
Qed.

Lemma sort_le_lt_trans a b c :
  sort_le a b → sort_lt b c = true → sort_lt a c = true.
Proof.
  unfold sort_le. destruct a, b, c; unfold sort_lt; simpl; try done.
  rewrite !orb_false_r. intros H1%bool_decide_eq_false H2%bool_decide_eq_true.
  apply bool_decide_eq_true. lia.
Qed.

Lemma sort_lt_le_trans a b c :
  sort_lt a b = true → sort_le b c → sort_lt a c = true.
Proof.
  unfold sort_le. destruct a, b, c; unfold sort_lt; simpl; try done.
  rewrite !orb_false_r. intros H1%bool_decide_eq_true H2%bool_decide_eq_false.
  apply bool_decide_eq_true. lia.
Qed.

Lemma sort_le_trans a b c : sort_le a b → sort_le b c → sort_le a c.
Proof.
  intros Hab Hbc. unfold sort_le.
  destruct (sort_lt c a) eqn:Hca; [|done].
  pose proof (sort_lt_le_trans _ _ _ Hca Hab) as Hcb. by rewrite Hbc in Hcb.
Qed.

Global Instance key_index_le_total : Total key_index_le.
Proof.
  intros [a i] [b j]. unfold key_index_le; simpl.
  destruct (sort_lt a b) eqn:Hab; [by left; left|].
  destruct (sort_lt b a) eqn:Hba; [by right; left|].
  destruct (decide (i ≤ j)%nat); [left|right]; right; split; try done; lia.
Qed.

Global Instance key_index_le_trans : Transitive key_index_le.
Proof.
  intros [a i] [b j] [c k]. unfold key_index_le; simpl.
  intros [Hab|[Hba Hij]] [Hbc|[Hcb Hjk]].
  - left. by eapply sort_lt_trans.
  - left. by eapply sort_lt_le_trans.
  - left. by eapply sort_le_lt_trans.
  - right. split; [|lia]. by eapply (sort_le_trans a b c).
Qed.

Lemma StronglySorted_weaken {A} (R S : relation A) l :
  (∀ x y, R x y → S x y) → StronglySorted R l → StronglySorted S l.
Proof.
  intros HRS. induction 1 as [|x l Hl IH Hx]; constructor; [done|].
  eapply Forall_impl; [exact Hx|]. intros y. apply HRS.
Qed.

Lemma zip_seq_key (v : list fl) (p : fl * nat) :
  p ∈ zip v (seq 0 (length v)) → p.1 = key_at v p.2.
Proof.
  intros [i Hi]%list_elem_of_lookup.
  apply lookup_zip_with_Some in Hi as (x & k & -> & Hx & Hk).
  apply lookup_seq in Hk as [-> _]. simpl. unfold key_at. by rewrite Hx.
Qed.

Lemma StronglySorted_keyed (R : relation (fl * nat)) (v : list fl)
    (l : list (fl * nat)) :
  Forall (λ p, p.1 = key_at v p.2) l →
  StronglySorted R l →
  StronglySorted (λ a b, R (key_at v a, a) (key_at v b, b)) (l.*2).
Proof.
  intros Hkey. induction 1 as [|[x i] l Hl IH Hx]; simpl; [constructor|].
  apply Forall_cons in Hkey as [Hxi Hkey]. simpl in Hxi. subst x.
  constructor; [by apply IH|].
  apply Forall_fmap. apply Forall_forall. intros [y j] Hy. simpl.
  rewrite Forall_forall in Hx. specialize (Hx _ Hy).
  rewrite Forall_forall in Hkey. specialize (Hkey _ Hy). simpl in Hkey.
  by subst y.
Qed.

Section argsort_by.
Context (R : relation (fl * nat)) `{∀ p q, Decision (R p q)}.
Context `{!Total R, !Transitive R}.

Lemma argsort_by_perm v : argsort_by R v ≡ₚ seq 0 (length v).
Proof.
  unfold argsort_by. rewrite merge_sort_Permutation.
  rewrite snd_zip; [done|]. by rewrite length_seq.
Qed.

Lemma argsort_by_sorted v :
  StronglySorted (λ a b, R (key_at v a, a) (key_at v b, b)) (argsort_by R v).
Proof.
  unfold argsort_by. apply StronglySorted_keyed.
  - apply Forall_forall. intros p Hp. apply zip_seq_key.
    by rewrite merge_sort_Permutation in Hp.
  - by apply StronglySorted_merge_sort.
Qed.

End argsort_by.

Lemma key_index_le_sort_le p q : key_index_le p q → sort_le p.1 q.1.
Proof. intros [Hlt|[Hle _]]; [by apply sort_lt_asym|done]. Qed.

(** A stable argsort: tied cells come out in row-major order.  This is what
    [kind="stable"] gives. *)
Definition stable_argsort : NpArgsort := {|
  argsort := argsort_by key_index_le;
  argsort_perm := argsort_by_perm key_index_le;
  argsort_sorted := λ v,
    StronglySorted_weaken _ _ _
      (λ a b, key_index_le_sort_le (key_at v a, a) (key_at v b, b))
      (argsort_by_sorted key_index_le v)
|}.


Example greedy_2x2 :
  @greedy_matching stable_argsort
    (mk_ndarray (2, 2)%nat [Fin 3; Fin 1; Fin 2; Fin 5]) = [(0, 1); (1, 0)]%nat.
Proof. reflexivity. Qed.

Example greedy_inf :
  @greedy_matching stable_argsort (mk_ndarray (1, 1)%nat [PInf]) = [(0, 0)]%nat.
Proof. reflexivity. Qed.

(** ** A concrete configuration

    One-point instances on a horizontal line: the median of the points is the
    point, and the norm of the difference of two centroids is the distance of
    their abscissas.  No image is given and the simple candidate maker is
    used, so optical flow is never run. *)

(** The double of integer value [n]. *)
Definition dbl (n : Z) : fl := Fin (n * 2 ^ 1074).

Definition one_point_median (pts : list (fl * fl)) : fl * fl :=
  default (NaN, NaN) (head pts).

Definition abscissa_distance (a b : fl * fl) : fl :=
  match a.1, b.1 with
  | Fin x, Fin y => Fin (Z.abs (x - y))
  | _, _ => NaN
  end.

Definition no_flow :
    list Instance → option unit → option unit → Z → fl → Z → Z →
    M (list Instance) :=
  λ _ _ _ _ _ _ _, raise.

(** An instance with one point, at (x, 0). *)
Definition point_instance (o : nat) (x : Z) : Instance :=
  mk_Instance o [(dbl x, dbl 0)] None (dbl 0).

(** An instance whose only point is missing. *)
Definition empty_instance (o : nat) : Instance :=
  mk_Instance o [(NaN, NaN)] None (dbl 0).

Definition centroid_tracker (track_window : nat) (min_new_track_points : Z)
    : @Tracker unit :=
  new_Tracker track_window
    (centroid_distance one_point_median abscissa_distance)
    (@call_greedy_matching stable_argsort) (Simple 0) min_new_track_points.

(** A process in which the objects 0..99 exist and nothing is cached. *)
Definition fresh_world : world := mk_world 100 ∅ ∅ ∅.

(** The tracker [centroid_tracker 5 0] with one tracked instance in its
    queue, as after a first call. *)
Definition tracker_after_one_frame : @Tracker unit :=
  let tr := mk_Track 50 0 0 in
  mk_Tracker 5 (centroid_distance one_point_median abscissa_distance)
    (@call_greedy_matching stable_argsort) (Simple 0) 0
    (mk_deque (Some 5%nat)
       [mk_MatchedInstance 0
          [mk_Instance 1 [(dbl 0, dbl 0)] (Some tr) (dbl 0)] None])
    [tr] false ∅.

(** ** The greedy loop *)

Lemma greedy_loop_cons e rest acc :
  greedy_loop (e :: rest) acc
  = greedy_loop (filter (λ e', ¬ conflict e e') rest) (acc ++ [e]).
Proof. by simp greedy_loop. Qed.

Lemma greedy_loop_ind_len (P : list edge → Prop) :
  P [] →
  (∀ e rest, P (filter (λ e', ¬ conflict e e') rest) → P (e :: rest)) →
  ∀ l, P l.
Proof.
  intros Hnil Hcons l.
  remember (length l) as n eqn:Hn. revert l Hn.
  induction n as [n IH] using lt_wf_ind. intros [|e rest] Hn; [done|].
  apply Hcons. eapply IH; [|done]. subst n. simpl.
  apply Nat.lt_succ_r, length_filter.
Qed.

Lemma greedy_loop_acc l acc : greedy_loop l acc = acc ++ greedy_loop l [].
Proof.
  revert acc. induction l as [|e rest IH] using greedy_loop_ind_len; intros acc.
  - simp greedy_loop. by rewrite app_nil_r.
  - rewrite !greedy_loop_cons, IH, (IH ([] ++ [e])). by rewrite <-!(assoc_L (++)).
Qed.

Lemma greedy_loop_step e rest :
  greedy_loop (e :: rest) []
  = e :: greedy_loop (filter (λ e', ¬ conflict e e') rest) [].
Proof. by rewrite greedy_loop_cons, greedy_loop_acc. Qed.

(** The result is taken from the list, in the order of the list. *)
Lemma greedy_loop_sublist l : greedy_loop l [] `sublist_of` l.
Proof.
  induction l as [|e rest IH] using greedy_loop_ind_len.
  - by simp greedy_loop.
  - rewrite greedy_loop_step. apply sublist_skip.
    etrans; [exact IH|]. apply sublist_filter.
Qed.

(** No two edges of the result share a row or a column. *)
Lemma greedy_loop_no_conflict l :
  NoDup (greedy_loop l []).*1 ∧ NoDup (greedy_loop l []).*2.
Proof.
  induction l as [|e rest [IH1 IH2]] using greedy_loop_ind_len.
  - simp greedy_loop. split; constructor.
  - rewrite greedy_loop_step. simpl.
    assert (∀ e', e' ∈ greedy_loop (filter (λ e', ¬ conflict e e') rest) [] →
                  ¬ conflict e e') as Hfree.
    { intros e' He'. eapply elem_of_sublist in He'; [|apply greedy_loop_sublist].
      by apply list_elem_of_filter in He' as [? _]. }
    split; constructor; try done.
    + intros ([r c] & Hr & He')%list_elem_of_fmap. apply Hfree in He'.
      apply He'. left. by simpl in *.
    + intros ([r c] & Hc & He')%list_elem_of_fmap. apply Hfree in He'.
      apply He'. right. by simpl in *.
Qed.

(** Every edge of the list is in conflict with an edge of the result. *)
Lemma greedy_loop_maximal l x :
  x ∈ l → ∃ e, e ∈ greedy_loop l [] ∧ conflict e x.
Proof.
  induction l as [|e rest IH] using greedy_loop_ind_len; intros Hx.
  - by apply elem_of_nil in Hx.
  - rewrite greedy_loop_step.
    destruct (decide (conflict e x)) as [Hc|Hc].
    { exists e. split; [left|done]. }
    apply elem_of_cons in Hx as [->|Hx].
    { exfalso. apply Hc. by left. }
    destruct IH as (e' & He' & Hc'); [by apply list_elem_of_filter|].
    exists e'. split; [by right|done].
Qed.

Lemma filter_eq_app_cons {A} (P : A → Prop) `{∀ x, Decision (P x)}
    (l f1 f2 : list A) (e : A) :
  filter P l = f1 ++ e :: f2 →
  ∃ l1 l2, l = l1 ++ e :: l2 ∧ filter P l1 = f1 ∧ filter P l2 = f2.
Proof.
  revert f1. induction l as [|a l IH]; intros f1 Hf.
  - by destruct f1.
  - rewrite filter_cons in Hf. destruct (decide (P a)) as [Ha|Ha].
    + destruct f1 as [|b f1]; simpl in Hf; injection Hf as -> Hf.
      * exists [], l. by rewrite filter_nil.
      * destruct (IH f1) as (l1 & l2 & -> & <- & <-); [done|].
        exists (b :: l1), l2. by rewrite filter_cons_True.
    + destruct (IH f1 Hf) as (l1 & l2 & -> & <- & <-).
      exists (a :: l1), l2. by rewrite filter_cons_False.
Qed.

(** When an edge is picked, every edge that stood before it in the list is in
    conflict with an edge picked earlier. *)
Lemma greedy_loop_blocked l pre e post :
  greedy_loop l [] = pre ++ e :: post →
  ∃ l1 l2, l = l1 ++ e :: l2 ∧
    ∀ x, x ∈ l1 → ∃ e', e' ∈ pre ∧ conflict e' x.
Proof.
  revert pre. induction l as [|a rest IH] using greedy_loop_ind_len; intros pre.
  - simp greedy_loop. by destruct pre.
  - rewrite greedy_loop_step. destruct pre as [|b pre]; simpl; intros Heq.
    + injection Heq as -> _. exists [], rest. split; [done|].
      by intros x ?%elem_of_nil.
    + injection Heq as -> Heq. destruct (IH _ Heq) as (f1 & f2 & Hf & Hblocked).
      apply filter_eq_app_cons in Hf as (l1 & l2 & -> & <- & <-).
      exists (b :: l1), l2. split; [done|]. intros x Hx.
      destruct (decide (conflict b x)) as [Hc|Hc].
      { exists b. split; [left|done]. }
      apply elem_of_cons in Hx as [->|Hx].
      { exfalso. apply Hc. by left. }
      destruct (Hblocked x) as (e' & He' & Hc'); [by apply list_elem_of_filter|].
      exists e'. split; [by right|done].
Qed.

(** ** Cells and their row-major positions *)

Lemma unravel_index_in_shape (sh : nat * nat) (k : nat) :
  (k < sh.1 * sh.2)%nat →
  ((unravel_index sh k).1 < sh.1)%nat ∧ ((unravel_index sh k).2 < sh.2)%nat.
Proof.
  destruct sh as [n m]. simpl. intros Hk.
  assert (m ≠ 0)%nat as Hm by lia. split.
  - apply Nat.Div0.div_lt_upper_bound. lia.
  - by apply Nat.mod_upper_bound.
Qed.

Lemma ravel_unravel (sh : nat * nat) (k : nat) :
  ravel_index sh (unravel_index sh k) = k ∨ sh.2 = 0%nat.
Proof.
  destruct sh as [n m]. unfold ravel_index, unravel_index. simpl.
  destruct (decide (m = 0%nat)) as [->|Hm]; [by right|left].
  pose proof (Nat.div_mod_eq k m). lia.
Qed.

Lemma unravel_ravel (sh : nat * nat) (e : edge) :
  (e.2 < sh.2)%nat → unravel_index sh (ravel_index sh e) = e.
Proof.
  destruct sh as [n m], e as [i j]. unfold ravel_index, unravel_index. simpl.
  intros Hj. f_equal.
  - rewrite Nat.div_add_l by lia. rewrite Nat.div_small by done. lia.
  - rewrite Nat.add_comm, Nat.Div0.mod_add. by apply Nat.mod_small.
Qed.

Lemma ravel_index_lt (sh : nat * nat) (e : edge) :
  (e.1 < sh.1)%nat → (e.2 < sh.2)%nat → (ravel_index sh e < sh.1 * sh.2)%nat.
Proof. destruct sh as [n m], e as [i j]. unfold ravel_index. simpl. nia. Qed.

Lemma cost_at_unravel (c : ndarray) (k : nat) :
  well_shaped c → (k < length (data c))%nat →
  cost_at c (unravel_index (shape c) k) = key_at (data c) k.
Proof.
  intros Hwf Hk. unfold cost_at, ndarray_get, key_at.
  rewrite Hwf in Hk.
  destruct (unravel_index_in_shape _ _ Hk) as [H1 H2].
  rewrite bool_decide_eq_true_2 by done.
  destruct (ravel_unravel (shape c) k) as [Hr|Hz]; [|lia].
  unfold ravel_index in Hr. by rewrite Hr.
Qed.

(** The cells the greedy solver enumerates are the cells of the matrix. *)
Lemma elem_of_unassigned `{NpArgsort} (c : ndarray) (x : edge) :
  well_shaped c →
  x ∈ unravel_index (shape c) <$> argsort (data c)
  ↔ (x.1 < (shape c).1)%nat ∧ (x.2 < (shape c).2)%nat.
Proof.
  intros Hwf. rewrite list_elem_of_fmap. split.
  - intros (k & -> & Hk). rewrite argsort_perm in Hk.
    apply elem_of_seq in Hk. apply unravel_index_in_shape.
    rewrite <-Hwf. lia.
  - intros [H1 H2]. exists (ravel_index (shape c) x). split.
    + by rewrite unravel_ravel.
    + rewrite argsort_perm. apply elem_of_seq. rewrite Hwf.
      pose proof (ravel_index_lt _ _ H1 H2). lia.
Qed.

(** A cell of lower cost stands before in the list the solver walks. *)
Lemma cheaper_stands_before `{NpArgsort} (c : ndarray) l1 e l2 x :
  well_shaped c →
  unravel_index (shape c) <$> argsort (data c) = l1 ++ e :: l2 →
  (x.1 < (shape c).1)%nat → (x.2 < (shape c).2)%nat →
  sort_lt (cost_at c x) (cost_at c e) = true →
  x ∈ l1.
Proof.
  intros Hwf Hl Hx1 Hx2 Hlt.
  assert (x ∈ l1 ++ e :: l2) as Hx.
  { rewrite <-Hl. by apply elem_of_unassigned. }
  apply elem_of_app in Hx as [Hx|Hx]; [done|exfalso].
  apply elem_of_cons in Hx as [->|Hx].
  { by rewrite sort_lt_irrefl in Hlt. }
  apply fmap_app_inv in Hl as (k1 & kk & -> & Hkk & Hks).
  symmetry in Hkk. apply fmap_cons_inv in Hkk as (k & k2 & -> & -> & ->).
  apply list_elem_of_fmap in Hx as (k' & -> & Hk').
  pose proof (argsort_sorted (data c)) as Hsorted. rewrite Hks in Hsorted.
  apply StronglySorted_app_1_r in Hsorted.
  apply StronglySorted_inv in Hsorted as [_ Hall].
  rewrite Forall_forall in Hall. specialize (Hall _ Hk').
  assert (∀ i, i ∈ argsort (data c) → (i < length (data c))%nat) as Hrange.
  { intros i Hi. rewrite argsort_perm in Hi. apply elem_of_seq in Hi. lia. }
  rewrite !cost_at_unravel in Hlt; try done.
  - unfold sort_le in Hall. by rewrite Hall in Hlt.
  - apply Hrange. rewrite Hks. apply elem_of_app. right. left.
  - apply Hrange. rewrite Hks. apply elem_of_app. right. by right.
Qed.



Lemma sublist_StronglySorted {A} (R : relation A) (l1 l2 : list A) :
  l1 `sublist_of` l2 → StronglySorted R l2 → StronglySorted R l1.
Proof.
  induction 1 as [|x l1 l2 Hsub IH|x l1 l2 Hsub IH]; intros Hs.
  - constructor.
  - apply StronglySorted_inv in Hs as [Hs Hall]. constructor; [by apply IH|].
    apply Forall_forall. intros y Hy. rewrite Forall_forall in Hall.
    apply Hall. by eapply elem_of_sublist.
  - apply StronglySorted_inv in Hs as [Hs _]. by apply IH.
Qed.

Lemma StronglySorted_elem_of {A} (R : relation A) (l l' : list A) :
  (∀ x, x ∈ l → x ∈ l') → StronglySorted R l →
  StronglySorted (λ a b, a ∈ l' ∧ b ∈ l' ∧ R a b) l.
Proof.
  intros Hsub. induction 1 as [|x l Hl IH Hx]; constructor.
  - apply IH. intros y Hy. apply Hsub. by right.
  - apply Forall_forall. intros y Hy. rewrite Forall_forall in Hx.
    split_and!; [apply Hsub; left|apply Hsub; by right|by apply Hx].
Qed.


(** ** Claims on the greedy solver *)

(** C4: for every cost matrix, the edge list returned by the greedy matching
    solver uses each detection (row) index at most once and each track
    (column) index at most once. *)
Theorem greedy_matching_index_used_once `{NpArgsort} (cost_matrix : ndarray) :
  NoDup (greedy_matching cost_matrix).*1 ∧
  NoDup (greedy_matching cost_matrix).*2.
Proof. apply greedy_loop_no_conflict. Qed.

(** C1, as stated, fails: on the costs [[-1, inf], [inf, inf]], the second row
    having become inf from NaN, the greedy solver returns the pair (1, 1),
    whose cost is inf. *)
Lemma greedy_matching_takes_inf_edge :
  let cost :=
    set_where isnan PInf (mk_ndarray (2, 2)%nat [Fin (-1); PInf; NaN; NaN]) in
  @greedy_matching stable_argsort cost = [(0, 0); (1, 1)]%nat ∧
  cost_at cost (1, 1)%nat = PInf.
Proof. split; reflexivity. Qed.

(** C1, amended: the greedy solver does not leave inf cells out.  It takes the
    cells by ascending cost, inf after every finite cost: when it picks a
    cell, every cell of lower cost shares its row or its column with a cell
    picked before; and it goes on until every cell of the matrix, whatever its
    cost, shares its row or its column with a returned pair.  So where no
    returned pair of lower cost stands in the row or the column of an inf
    cell, a returned pair of cost inf (or NaN) does. *)
Theorem greedy_matching_inf_last_not_excluded `{NpArgsort}
    (cost_matrix : ndarray) :
  well_shaped cost_matrix →
  (∀ pre e post x,
     greedy_matching cost_matrix = pre ++ e :: post →
     (x.1 < (shape cost_matrix).1)%nat → (x.2 < (shape cost_matrix).2)%nat →
     sort_lt (cost_at cost_matrix x) (cost_at cost_matrix e) = true →
     ∃ e', e' ∈ pre ∧ conflict e' x) ∧
  (∀ x,
     (x.1 < (shape cost_matrix).1)%nat → (x.2 < (shape cost_matrix).2)%nat →
     ∃ e, e ∈ greedy_matching cost_matrix ∧ conflict e x) ∧
  (∀ x,
     (x.1 < (shape cost_matrix).1)%nat → (x.2 < (shape cost_matrix).2)%nat →
     (∀ e, e ∈ greedy_matching cost_matrix → conflict e x →
           sort_lt (cost_at cost_matrix e) (cost_at cost_matrix x) = false) →
     ∃ e, e ∈ greedy_matching cost_matrix ∧ conflict e x ∧
          sort_le (cost_at cost_matrix x) (cost_at cost_matrix e)).
Proof.
  intros Hwf.
  assert (∀ x,
     (x.1 < (shape cost_matrix).1)%nat → (x.2 < (shape cost_matrix).2)%nat →
     ∃ e, e ∈ greedy_matching cost_matrix ∧ conflict e x) as Hmax.
  { intros x Hx1 Hx2. apply greedy_loop_maximal. by apply elem_of_unassigned. }
  split_and!; [|done|].
  - intros pre e post x Hres Hx1 Hx2 Hlt. unfold greedy_matching in Hres.
    apply greedy_loop_blocked in Hres as (l1 & l2 & Hl & Hblocked).
    apply Hblocked. by eapply cheaper_stands_before.
  - intros x Hx1 Hx2 Hfree. destruct (Hmax x Hx1 Hx2) as (e & He & Hc).
    exists e. split_and!; [done|done|]. by apply Hfree.
Qed.

Lemma greedy_matching_inf_last_not_excluded_witness :
  let cost := mk_ndarray (2, 2)%nat [Fin (-1); PInf; PInf; PInf] in
  well_shaped cost ∧
  ∃ e, e ∈ @greedy_matching stable_argsort cost ∧ conflict e (1, 1)%nat ∧
       sort_le (cost_at cost (1, 1)%nat) (cost_at cost e).
Proof.
  split; [reflexivity|].
  apply (@greedy_matching_inf_last_not_excluded stable_argsort
           (mk_ndarray (2, 2)%nat [Fin (-1); PInf; PInf; PInf]));
    [reflexivity|simpl; lia|simpl; lia|].
  intros e He Hc. change (e ∈ [(0, 0); (1, 1)]%nat) in He.
  apply elem_of_cons in He as [-> | He].
  - destruct Hc as [Hc | Hc]; simpl in Hc; lia.
  - apply list_elem_of_singleton in He as ->. reflexivity.
Defined.



(** ** Exhaustive search *)

Lemma assignments_sound rows cols k M :
  NoDup cols → M ∈ assignments rows cols k →
  length M = k ∧ M.*1 `sublist_of` rows ∧ (∀ e, e ∈ M → e.2 ∈ cols) ∧
  NoDup M.*2.
Proof.
  revert cols k M. induction rows as [|r rows IH]; intros cols [|k] M Hcols HM;
    simpl in HM.
  - apply list_elem_of_singleton in HM as ->. split_and!; try done.
    + by intros e ?%elem_of_nil.
    + constructor.
  - by apply elem_of_nil in HM.
  - apply list_elem_of_singleton in HM as ->. split_and!; try done.
    + apply sublist_nil_l.
    + by intros e ?%elem_of_nil.
    + constructor.
  - apply elem_of_app in HM as [HM|HM].
    + apply list_elem_of_bind in HM as (c & HM & Hc).
      apply list_elem_of_fmap in HM as (M0 & -> & HM0).
      apply IH in HM0 as (Hlen & Hsub & Hin & Hnd); [|by apply NoDup_filter].
      split_and!.
      * simpl. by rewrite Hlen.
      * simpl. by apply sublist_skip.
      * intros e [->|He]%elem_of_cons; [done|].
        apply Hin in He. by apply list_elem_of_filter in He as [_ ?].
      * simpl. apply NoDup_cons. split; [|done].
        intros (e & Hce & He)%list_elem_of_fmap. apply Hin in He.
        apply list_elem_of_filter in He as [Hne _]. by apply Hne.
    + apply IH in HM as (Hlen & Hsub & Hin & Hnd); [|done].
      split_and!; try done. by apply sublist_cons.
Qed.

Lemma assignments_complete rows cols k M :
  matching M → (∀ e, e ∈ M → e.1 ∈ rows ∧ e.2 ∈ cols) → length M = k →
  ∃ M', M' ∈ assignments rows cols k ∧ M' ≡ₚ M.
Proof.
  revert cols k M.
  induction rows as [|r rows IH]; intros cols [|k] M [Hr Hc] Hin Hlen.
  - apply nil_length_inv in Hlen as ->. exists []. split; [simpl; left|done].
  - destruct M as [|e M]; [done|]. destruct (Hin e) as [He _]; [left|].
    by apply elem_of_nil in He.
  - apply nil_length_inv in Hlen as ->. exists []. split; [simpl; left|done].
  - destruct (decide (r ∈ M.*1)) as [Hrin|Hrin].
    + apply list_elem_of_fmap in Hrin as ([r' c] & Heq & Hrc). simpl in Heq.
      subst r'. pose proof Hrc as HrcM.
      apply elem_of_Permutation in Hrc as [M0 HM0].
      rewrite HM0 in Hr, Hc. simpl in Hr, Hc.
      apply NoDup_cons in Hr as [Hr0 Hr], Hc as [Hc0 Hc].
      destruct (IH (filter (λ c', c' ≠ c) cols) k M0) as (M0' & HM0' & Hperm).
      * done.
      * intros e He. destruct (Hin e) as [He1 He2].
        { rewrite HM0. by right. }
        split.
        -- apply elem_of_cons in He1 as [Heq|He1]; [|done].
           exfalso. apply Hr0. apply list_elem_of_fmap. by exists e.
        -- apply list_elem_of_filter. split; [|done].
           intros Heq. apply Hc0. apply list_elem_of_fmap. by exists e.
      * rewrite HM0 in Hlen. simpl in Hlen. lia.
      * exists ((r, c) :: M0'). split.
        -- simpl. apply elem_of_app. left. apply list_elem_of_bind.
           exists c. split; [|by apply (Hin (r, c))].
           apply list_elem_of_fmap. by exists M0'.
        -- by rewrite HM0, Hperm.
    + destruct (IH cols (S k) M) as (M' & HM' & Hperm); try done.
      * intros e He. destruct (Hin e He) as [He1 He2]. split; [|done].
        apply elem_of_cons in He1 as [Heq|He1]; [|done].
        exfalso. apply Hrin. apply list_elem_of_fmap. by exists e.
      * exists M'. split; [|done]. simpl. apply elem_of_app. by right.
Qed.

Lemma assignments_nonempty rows cols k :
  NoDup cols → (k ≤ length rows)%nat → (k ≤ length cols)%nat →
  assignments rows cols k ≠ [].
Proof.
  revert cols k. induction rows as [|r rows IH]; intros cols [|k] Hnd Hr Hc;
    simpl in *; try done; try lia.
  destruct cols as [|c cols]; simpl in *; [lia|].
  apply NoDup_cons in Hnd as [Hc0 Hnd].
  rewrite filter_cons_False by (intros Hne; by apply Hne).
  assert (filter (λ c', c' ≠ c) cols = cols) as ->.
  { clear -Hc0. induction cols as [|c' cols IHc]; [done|].
    apply not_elem_of_cons in Hc0 as [Hne Hc0].
    rewrite filter_cons_True by done. by rewrite IHc. }
  specialize (IH cols k Hnd ltac:(lia) ltac:(lia)).
  destruct (assignments rows cols k) as [|M0 Ms]; [done|]. done.
Qed.

(** ** Total costs *)

Lemma total_cost_finite a es :
  (∀ e, e ∈ es → isfinite (cost_at a e) = true) →
  total_cost a es = Fin (cost_sum a es).
Proof.
  induction es as [|e es IH]; intros Hfin; [done|]. simpl.
  rewrite IH by (intros e' He'; apply Hfin; by right).
  specialize (Hfin e ltac:(left)). by destruct (cost_at a e).
Qed.

Lemma cost_sum_perm a es1 es2 : es1 ≡ₚ es2 → cost_sum a es1 = cost_sum a es2.
Proof. induction 1; simpl; lia. Qed.

Lemma cost_at_finite a e :
  well_shaped a → forallb isfinite (data a) = true →
  (e.1 < (shape a).1)%nat → (e.2 < (shape a).2)%nat →
  isfinite (cost_at a e) = true.
Proof.
  intros Hwf Hfin H1 H2. unfold cost_at, ndarray_get.
  rewrite bool_decide_eq_true_2 by done.
  pose proof (ravel_index_lt (shape a) e H1 H2) as Hlt.
  unfold ravel_index in Hlt. rewrite <-Hwf in Hlt.
  apply lookup_lt_is_Some_2 in Hlt as [x Hx]. rewrite Hx. simpl.
  apply list_elem_of_lookup_2 in Hx.
  apply Is_true_true_2, forallb_True in Hfin. rewrite Forall_forall in Hfin.
  by apply Is_true_true_1, Hfin.
Qed.

Lemma min_cost_assignment_spec a ms :
  ms ≠ [] →
  (∀ m e, m ∈ ms → e ∈ m → isfinite (cost_at a e) = true) →
  ∃ b, min_cost_assignment a ms = Some b ∧ b ∈ ms ∧
       ∀ m, m ∈ ms → cost_sum a b ≤ cost_sum a m.
Proof.
  induction ms as [|m ms IH]; [done|]. intros _ Hfin. simpl.
  destruct ms as [|m' ms].
  { simpl. exists m. split_and!; [done|left|].
    intros ? ->%list_elem_of_singleton. lia. }
  destruct IH as (b & -> & Hb & Hmin); [done| |].
  { intros m0 e Hm0. apply Hfin. by right. }
  rewrite !total_cost_finite.
  2:{ intros e. apply Hfin. left. }
  2:{ intros e. apply Hfin. by right. }
  simpl. case_bool_decide as Hlt.
  - exists b. split_and!; [done|by right|].
    intros m0 [->|Hm0]%elem_of_cons; [lia|by apply Hmin].
  - exists m. split_and!; [done|left|].
    intros m0 [->|Hm0]%elem_of_cons; [lia|].
    specialize (Hmin _ Hm0). lia.
Qed.

(** What scipy's solver returns on a finite matrix: a matching of min(n, m)
    cells of the matrix with the least total cost of all such matchings. *)
Lemma linear_sum_assignment_spec a :
  well_shaped a → forallb isfinite (data a) = true →
  ∃ es, linear_sum_assignment a = Some es ∧
    matching es ∧ in_shape (shape a) es ∧
    length es = ((shape a).1 `min` (shape a).2)%nat ∧
    ∀ M, matching M → in_shape (shape a) M →
         length M = ((shape a).1 `min` (shape a).2)%nat →
         cost_sum a es ≤ cost_sum a M.
Proof.
  intros Hwf Hfin. unfold linear_sum_assignment. rewrite Hfin.
  set (n := (shape a).1). set (m := (shape a).2).
  assert (∀ M, M ∈ assignments (seq 0 n) (seq 0 m) (n `min` m)%nat →
    length M = (n `min` m)%nat ∧ matching M ∧ in_shape (shape a) M) as Hsound.
  { intros M HM. apply assignments_sound in HM as (Hlen & Hsub & Hin & Hnd);
      [|apply NoDup_seq].
    split_and!; [done| |].
    - split; [|done]. eapply sublist_NoDup; [apply NoDup_seq|exact Hsub].
    - intros e He. split.
      + assert (e.1 ∈ seq 0 n) as H1.
        { eapply elem_of_sublist; [|exact Hsub]. by apply list_elem_of_fmap_2. }
        apply elem_of_seq in H1. unfold n in H1. lia.
      + apply Hin, elem_of_seq in He. unfold m in He. lia. }
  destruct (min_cost_assignment_spec a
              (assignments (seq 0 n) (seq 0 m) (n `min` m)%nat))
    as (b & Hb & Hbin & Hmin).
  { apply assignments_nonempty; [apply NoDup_seq|..]; rewrite length_seq; lia. }
  { intros M e HM He. apply Hsound in HM as (_ & _ & Hin).
    destruct (Hin e He). by apply cost_at_finite. }
  exists b. destruct (Hsound b Hbin) as (Hlen & Hmat & Hin).
  split_and!; try done.
  intros M HM HinM HlenM.
  destruct (assignments_complete (seq 0 n) (seq 0 m) (n `min` m)%nat M)
    as (M' & HM' & Hperm); try done.
  { intros e He. destruct (HinM e He). split; apply elem_of_seq; lia. }
  rewrite <-(cost_sum_perm a _ _ Hperm). by apply Hmin.
Qed.

(** The effect of [hungarian_matching] on the process state. *)
Lemma hungarian_matching_unfold (p : nat) (w : world) (a : ndarray) :
  arrays w !! p = Some a →
  hungarian_matching p w
  = match linear_sum_assignment (set_where isinf (Fin 0) a) with
    | Some es =>
        Some (es, mk_world (next_oid w)
                    (<[p := set_where isinf (Fin 0) a]> (arrays w))
                    (centroid_cache w) (iou_cache w))
    | None => None
    end.
Proof.
  intros Ha. unfold hungarian_matching, mbind, M_bind, read_array, write_array.
  rewrite Ha. simpl. rewrite lookup_insert_eq. unfold lift.
  by destruct (linear_sum_assignment _).
Qed.

(** ** The greedy result is a matching of full size *)

Lemma missing_index (l : list nat) (n : nat) :
  (length l < n)%nat → ∃ i, (i < n)%nat ∧ i ∉ l.
Proof.
  intros Hlen.
  destruct (decide (Exists (λ i, i ∉ l) (seq 0 n))) as [Hex|Hall].
  - apply Exists_exists in Hex as (i & Hi & Hnot).
    apply elem_of_seq in Hi. exists i. split; [lia|done].
  - apply not_Exists_Forall in Hall; [|apply _].
    rewrite Forall_forall in Hall.
    assert (seq 0 n ⊆+ l) as Hsub.
    { apply NoDup_submseteq; [apply NoDup_seq|].
      intros i Hi. specialize (Hall i Hi). simpl in Hall.
      by apply dec_stable in Hall. }
    apply submseteq_length in Hsub. rewrite length_seq in Hsub. lia.
Qed.

Lemma bounded_NoDup_length (l : list nat) (n : nat) :
  NoDup l → (∀ i, i ∈ l → (i < n)%nat) → (length l ≤ n)%nat.
Proof.
  intros Hnd Hlt.
  assert (l ⊆+ seq 0 n) as Hsub.
  { apply NoDup_submseteq; [done|]. intros i Hi. apply elem_of_seq.
    specialize (Hlt i Hi). lia. }
  apply submseteq_length in Hsub. by rewrite length_seq in Hsub.
Qed.

Lemma greedy_matching_full `{NpArgsort} (c : ndarray) :
  well_shaped c →
  matching (greedy_matching c) ∧ in_shape (shape c) (greedy_matching c) ∧
  length (greedy_matching c) = ((shape c).1 `min` (shape c).2)%nat.
Proof.
  intros Hwf.
  assert (in_shape (shape c) (greedy_matching c)) as Hin.
  { intros e He. apply (elem_of_unassigned c e Hwf).
    eapply elem_of_sublist; [exact He|apply greedy_loop_sublist]. }
  pose proof (greedy_loop_no_conflict
                (unravel_index (shape c) <$> argsort (data c))) as [Hr Hc].
  fold (greedy_matching c) in Hr, Hc.
  split_and!; [done|done|].
  assert (length (greedy_matching c) ≤ (shape c).1)%nat as Hle1.
  { rewrite <-(length_fmap fst (greedy_matching c)).
    apply bounded_NoDup_length; [done|].
    intros i ([r j] & -> & He)%list_elem_of_fmap. by apply (Hin _ He). }
  assert (length (greedy_matching c) ≤ (shape c).2)%nat as Hle2.
  { rewrite <-(length_fmap snd (greedy_matching c)).
    apply bounded_NoDup_length; [done|].
    intros j ([i r] & -> & He)%list_elem_of_fmap. by apply (Hin _ He). }
  destruct (decide (length (greedy_matching c)
                    < (shape c).1 `min` (shape c).2)%nat) as [Hlt|]; [|lia].
  exfalso.
  destruct (missing_index (greedy_matching c).*1 (shape c).1)
    as (i & Hi & Hifree); [rewrite length_fmap; lia|].
  destruct (missing_index (greedy_matching c).*2 (shape c).2)
    as (j & Hj & Hjfree); [rewrite length_fmap; lia|].
  destruct (greedy_loop_maximal
              (unravel_index (shape c) <$> argsort (data c)) (i, j))
    as (e & He & [Hc1|Hc2]).
  - by apply elem_of_unassigned.
  - apply Hifree. simpl in Hc1. rewrite Hc1. by apply list_elem_of_fmap_2.
  - apply Hjfree. simpl in Hc2. rewrite Hc2. by apply list_elem_of_fmap_2.
Qed.

(** ** Masked assignment *)

Lemma set_where_well_shaped mask v a :
  well_shaped a → well_shaped (set_where mask v a).
Proof. unfold well_shaped. simpl. by rewrite length_fmap. Qed.

Lemma ndarray_get_set_where mask v a i j :
  ndarray_get (set_where mask v a) i j
  = (λ x, if mask x then v else x) <$> ndarray_get a i j.
Proof.
  unfold ndarray_get. simpl. case_bool_decide; [|done].
  by rewrite list_lookup_fmap.
Qed.

Lemma set_where_isinf_finite a :
  forallb (λ x, negb (isnan x)) (data a) = true →
  forallb isfinite (data (set_where isinf (Fin 0) a)) = true.
Proof.
  simpl. induction (data a) as [|x l IH]; [done|]. rewrite fmap_cons. simpl.
  intros [Hx Hl]%andb_true_iff. rewrite IH by done. by destruct x.
Qed.

Lemma set_where_isinf_id a :
  forallb isfinite (data a) = true → set_where isinf (Fin 0) a = a.
Proof.
  destruct a as [sh d]. unfold set_where. simpl. intros Hfin. f_equal.
  induction d as [|x l IH]; [done|]. rewrite fmap_cons. simpl in Hfin.
  apply andb_true_iff in Hfin as [Hx Hl]. rewrite IH by done. by destruct x.
Qed.

(** ** Claims on the optimal solver *)

(** C3: for every cost matrix all of whose entries are finite, the total cost
    of the edges selected by the optimal (Hungarian) solver is less than or
    equal to the total cost of the edges selected by the greedy solver on the
    same matrix. *)
Theorem hungarian_total_cost_le_greedy `{NpArgsort}
    (p : nat) (w : world) (cost_matrix : ndarray) :
  arrays w !! p = Some cost_matrix →
  well_shaped cost_matrix →
  forallb isfinite (data cost_matrix) = true →
  ∃ es w', hungarian_matching p w = Some (es, w') ∧
    fl_leb (total_cost cost_matrix es)
           (total_cost cost_matrix (greedy_matching cost_matrix)) = true.
Proof.
  intros Hp Hwf Hfin. rewrite (hungarian_matching_unfold p w _ Hp).
  rewrite set_where_isinf_id by done.
  destruct (linear_sum_assignment_spec _ Hwf Hfin)
    as (es & -> & Hmat & Hin & Hlen & Hopt).
  destruct (greedy_matching_full cost_matrix Hwf) as (Hgm & Hgin & Hglen).
  eexists _, _. split; [done|].
  rewrite !total_cost_finite.
  - specialize (Hopt _ Hgm Hgin Hglen). simpl.
    rewrite bool_decide_eq_false_2 by lia. done.
  - intros e He. destruct (Hgin e He). by apply cost_at_finite.
  - intros e He. destruct (Hin e He). by apply cost_at_finite.
Qed.

Lemma hungarian_total_cost_le_greedy_witness :
  let cost := mk_ndarray (2, 2)%nat [Fin 1; Fin 2; Fin 2; Fin 9] in
  let w := mk_world 1 {[ 0%nat := cost ]} ∅ ∅ in
  ∃ es w', hungarian_matching 0 w = Some (es, w') ∧
    fl_leb (total_cost cost es)
           (total_cost cost (@greedy_matching stable_argsort cost)) = true.
Proof.
  apply (@hungarian_total_cost_le_greedy stable_argsort 0%nat
           (mk_world 1
              {[ 0%nat := mk_ndarray (2, 2)%nat [Fin 1; Fin 2; Fin 2; Fin 9] ]}
              ∅ ∅));
    reflexivity.
Defined.

(** On that matrix the two solvers differ: greedy takes the cheapest cell and
    is left with the dearest, the optimal solver takes the two middle ones. *)
Example hungarian_beats_greedy :
  let cost := mk_ndarray (2, 2)%nat [Fin 1; Fin 2; Fin 2; Fin 9] in
  linear_sum_assignment cost = Some [(0, 1); (1, 0)]%nat ∧
  @greedy_matching stable_argsort cost = [(0, 0); (1, 1)]%nat.
Proof. split; reflexivity. Qed.

(** C6: the optimal matching solver replaces every inf entry of the cost
    matrix with 0 before running the linear assignment, so infinite-cost
    edges are treated as cost 0 rather than excluded from the assignment: the
    solver is run on the matrix with 0 for inf and the other entries kept,
    and it returns a matching of full size, min(n, m) edges, that is optimal
    for those costs. *)
Theorem hungarian_matching_inf_as_zero
    (p : nat) (w : world) (cost_matrix : ndarray) :
  arrays w !! p = Some cost_matrix →
  well_shaped cost_matrix →
  forallb (λ x, negb (isnan x)) (data cost_matrix) = true →
  let solved := set_where isinf (Fin 0) cost_matrix in
  (∀ i j x, ndarray_get cost_matrix i j = Some x →
            ndarray_get solved i j = Some (if isinf x then Fin 0 else x)) ∧
  ∃ es w', hungarian_matching p w = Some (es, w') ∧
    linear_sum_assignment solved = Some es ∧
    matching es ∧ in_shape (shape cost_matrix) es ∧
    length es = ((shape cost_matrix).1 `min` (shape cost_matrix).2)%nat ∧
    ∀ M, matching M → in_shape (shape cost_matrix) M →
         length M = ((shape cost_matrix).1 `min` (shape cost_matrix).2)%nat →
         cost_sum solved es ≤ cost_sum solved M.
Proof.
  intros Hp Hwf Hnan solved. split.
  - intros i j x Hx. unfold solved. by rewrite ndarray_get_set_where, Hx.
  - rewrite (hungarian_matching_unfold p w _ Hp). fold solved.
    destruct (linear_sum_assignment_spec solved)
      as (es & Hes & Hmat & Hin & Hlen & Hopt).
    { by apply set_where_well_shaped. }
    { by apply set_where_isinf_finite. }
    rewrite Hes. eexists _, _. split_and!; done.
Qed.

Lemma hungarian_matching_inf_as_zero_witness :
  let cost := mk_ndarray (2, 2)%nat [Fin (-3); PInf; PInf; PInf] in
  let w := mk_world 1 {[ 0%nat := cost ]} ∅ ∅ in
  ∃ es w', hungarian_matching 0 w = Some (es, w') ∧
    length es = 2%nat.
Proof.
  destruct (hungarian_matching_inf_as_zero 0%nat
              (mk_world 1
                 {[ 0%nat := mk_ndarray (2, 2)%nat [Fin (-3); PInf; PInf; PInf] ]}
                 ∅ ∅)
              (mk_ndarray (2, 2)%nat [Fin (-3); PInf; PInf; PInf])
              ltac:(by vm_compute) ltac:(by vm_compute) ltac:(by vm_compute))
    as (_ & es & w' & Hrun & _ & _ & _ & Hlen & _).
  exists es, w'. split; [exact Hrun|exact Hlen].
Defined.

(** An inf cell is returned as an edge: both cells of the second row are inf,
    and the second detection is matched all the same. *)
Example hungarian_selects_inf_edge :
  let cost := mk_ndarray (2, 2)%nat [Fin (-3); PInf; PInf; PInf] in
  fst <$> hungarian_matching 0 (mk_world 1 {[ 0%nat := cost ]} ∅ ∅)
  = Some [(0, 0); (1, 1)]%nat ∧
  cost_at cost (1, 1)%nat = PInf.
Proof. split; by vm_compute. Qed.

(** C10: the optimal matching solver mutates its argument in place: after
    [hungarian_matching] returns, every entry of the caller's cost matrix
    that was inf has been overwritten with 0, so the input matrix is not left
    unchanged (when it held an inf); no other array is touched. *)
Theorem hungarian_matching_mutates_argument
    (p : nat) (w : world) (cost_matrix : ndarray) :
  arrays w !! p = Some cost_matrix →
  well_shaped cost_matrix →
  forallb (λ x, negb (isnan x)) (data cost_matrix) = true →
  ∃ es w' after, hungarian_matching p w = Some (es, w') ∧
    arrays w' !! p = Some after ∧
    shape after = shape cost_matrix ∧
    (∀ i j x, ndarray_get cost_matrix i j = Some x →
              ndarray_get after i j = Some (if isinf x then Fin 0 else x)) ∧
    ((∃ x, x ∈ data cost_matrix ∧ isinf x = true) → after ≠ cost_matrix) ∧
    (∀ q, q ≠ p → arrays w' !! q = arrays w !! q).
Proof.
  intros Hp Hwf Hnan. rewrite (hungarian_matching_unfold p w _ Hp).
  destruct (linear_sum_assignment_spec (set_where isinf (Fin 0) cost_matrix))
    as (es & -> & _).
  { by apply set_where_well_shaped. }
  { by apply set_where_isinf_finite. }
  eexists _, _, (set_where isinf (Fin 0) cost_matrix). split; [done|].
  simpl. split_and!.
  - by rewrite lookup_insert_eq.
  - done.
  - intros i j x Hx. by rewrite ndarray_get_set_where, Hx.
  - intros (x & Hx & Hinf) Heq.
    assert (x ∈ data (set_where isinf (Fin 0) cost_matrix)) as Hx'
      by by rewrite Heq.
    simpl in Hx'. apply list_elem_of_fmap in Hx' as (y & -> & _).
    by destruct y.
  - intros q Hq. by rewrite lookup_insert_ne.
Qed.

Lemma hungarian_matching_mutates_argument_witness :
  let cost := mk_ndarray (1, 2)%nat [PInf; Fin (-2)] in
  let w := mk_world 1 {[ 0%nat := cost ]} ∅ ∅ in
  ∃ es w' after, hungarian_matching 0 w = Some (es, w') ∧
    arrays w' !! 0%nat = Some after ∧
    ndarray_get after 0 0 = Some (Fin 0).
Proof.
  destruct (hungarian_matching_mutates_argument 0%nat
              (mk_world 1 {[ 0%nat := mk_ndarray (1, 2)%nat [PInf; Fin (-2)] ]}
                 ∅ ∅)
              (mk_ndarray (1, 2)%nat [PInf; Fin (-2)])
              ltac:(by vm_compute) ltac:(by vm_compute) ltac:(by vm_compute))
    as (es & w' & after & Hrun & Hafter & _ & Hget & _).
  exists es, w', after. split; [exact Hrun|]. split; [exact Hafter|].
  apply (Hget 0%nat 0%nat PInf eq_refl).
Defined.

(** The caller's array before and after a call. *)
Example hungarian_matching_overwrites :
  let cost := mk_ndarray (1, 2)%nat [PInf; Fin (-2)] in
  (r ← hungarian_matching 0 (mk_world 1 {[ 0%nat := cost ]} ∅ ∅);
   arrays r.2 !! 0%nat)
  = Some (mk_ndarray (1, 2)%nat [Fin 0; Fin (-2)]).
Proof. by vm_compute. Qed.

(** ** Computations on the process state *)

Lemma bind_Some {A B} (m : M A) (f : A → M B) w r :
  (m ≫= f) w = Some r ↔ ∃ x w1, m w = Some (x, w1) ∧ f x w1 = Some r.
Proof.
  unfold mbind, M_bind. split.
  - destruct (m w) as [[x w1]|]; [|done]. intros Hf. by exists x, w1.
  - intros (x & w1 & -> & Hf). done.
Qed.

Lemma lift_Some {A} (o : option A) w r :
  lift o w = Some r ↔ ∃ x, o = Some x ∧ r = (x, w).
Proof.
  unfold lift. destruct o as [x|]; split.
  - intros [= <-]. by exists x.
  - by intros (? & [= <-] & ->).
  - done.
  - by intros (? & ? & _).
Qed.

Global Instance caches_kept_refl : Reflexive caches_kept.
Proof. intros w. by split. Qed.

Global Instance caches_kept_trans : Transitive caches_kept.
Proof. intros w1 w2 w3 [H1 H2] [H3 H4]. split; by etrans. Qed.

Lemma keeps_caches_ret {A} (x : A) : keeps_caches (mret x).
Proof. intros w r w' [= <- <-]. done. Qed.

Lemma keeps_caches_bind {A B} (m : M A) (f : A → M B) :
  keeps_caches m → (∀ x, keeps_caches (f x)) → keeps_caches (m ≫= f).
Proof.
  intros Hm Hf w r w' (x & w1 & Hx & Hr)%bind_Some.
  etrans; [by eapply Hm|by eapply Hf].
Qed.

Lemma keeps_caches_lift {A} (o : option A) : keeps_caches (lift o).
Proof. intros w r w' (x & _ & [= <- <-])%lift_Some. done. Qed.

Lemma keeps_caches_mapM {A B} (f : A → M B) (l : list A) :
  (∀ x, keeps_caches (f x)) → keeps_caches (mapM f l).
Proof.
  intros Hf. induction l as [|x l IH]; simpl.
  - apply keeps_caches_ret.
  - apply keeps_caches_bind; [done|]. intros y.
    apply keeps_caches_bind; [done|]. intros k. apply keeps_caches_ret.
Qed.

Lemma keeps_caches_fresh_oid : keeps_caches fresh_oid.
Proof. intros w r w' [= <- <-]. done. Qed.

Lemma keeps_caches_write_array p a : keeps_caches (write_array p a).
Proof. intros w r w' [= <- <-]. done. Qed.

Lemma keeps_caches_read_array p : keeps_caches (read_array p).
Proof.
  intros w r w'. unfold read_array. destruct (arrays w !! p); [|done].
  intros [= <- <-]. done.
Qed.

Lemma keeps_caches_new_array a : keeps_caches (new_array a).
Proof.
  apply keeps_caches_bind; [apply keeps_caches_fresh_oid|]. intros p.
  apply keeps_caches_bind; [apply keeps_caches_write_array|]. intros _.
  apply keeps_caches_ret.
Qed.

Lemma keeps_caches_evolve inst tr score : keeps_caches (evolve inst tr score).
Proof.
  apply keeps_caches_bind; [apply keeps_caches_fresh_oid|]. intros o.
  apply keeps_caches_ret.
Qed.

Lemma keeps_caches_hungarian_matching p : keeps_caches (hungarian_matching p).
Proof.
  apply keeps_caches_bind; [apply keeps_caches_read_array|]. intros a.
  apply keeps_caches_bind; [apply keeps_caches_write_array|]. intros _.
  apply keeps_caches_bind; [apply keeps_caches_read_array|]. intros a'.
  apply keeps_caches_lift.
Qed.

Lemma keeps_caches_call_greedy_matching `{NpArgsort} p :
  keeps_caches (call_greedy_matching p).
Proof.
  apply keeps_caches_bind; [apply keeps_caches_read_array|]. intros a.
  apply keeps_caches_ret.
Qed.

Lemma mapM_Forall2 {A B} (f : A → M B) (l : list A) w r w' :
  mapM f l w = Some (r, w') →
  Forall2 (λ x y, ∃ w1 w2, f x w1 = Some (y, w2)) l r.
Proof.
  revert w r. induction l as [|x l IH]; simpl; intros w r.
  - intros [= <- <-]. constructor.
  - intros (y & w1 & Hy & (k & w2 & Hk & [= <- <-])%bind_Some)%bind_Some.
    constructor; [by eauto|by eapply IH].
Qed.

(** ** The tracker step *)

Lemma spawn_tracks_spec min_pts t inds u : ∀ i spawned tracked w,
  ∃ new_tracks new_insts w',
    spawn_tracks min_pts t inds i u spawned tracked w
    = Some ((spawned ++ new_tracks, tracked ++ new_insts), w') ∧
    (points_array <$> new_insts)
    = ((λ p : nat * Instance, points_array p.2)
       <$> filter (spawnable min_pts inds) (enumerate_from i u)) ∧
    track <$> new_insts = Some <$> new_tracks ∧
    name <$> new_tracks = seq (length spawned) (length new_tracks) ∧
    Forall (λ tr, spawned_on tr = t) new_tracks ∧
    same_caches w w'.
Proof.
  induction u as [|inst u IH]; intros i spawned tracked w.
  - exists [], [], w. rewrite !app_nil_r. by split_and!.
  - unfold enumerate_from. simpl. fold (enumerate_from (S i) u).
    case_bool_decide as Hin.
    { destruct (IH (S i) spawned tracked w)
        as (nt & ni & w' & Hrun & Hpts & Htr & Hname & Hon & Hc).
      exists nt, ni, w'. split_and!; try done.
      rewrite filter_cons_False; [done|]. intros [Hnot _]. by apply Hnot. }
    case_bool_decide as Hsmall.
    { destruct (IH (S i) spawned tracked w)
        as (nt & ni & w' & Hrun & Hpts & Htr & Hname & Hon & Hc).
      exists nt, ni, w'. split_and!; try done.
      rewrite filter_cons_False; [done|]. intros [_ Hnot]. by apply Hnot. }
    unfold mbind, M_bind, fresh_oid, evolve. simpl.
    unfold mbind, M_bind, fresh_oid, mret, M_ret. simpl.
    set (new_track := mk_Track (next_oid w) t (length spawned)).
    set (inst' := mk_Instance (S (next_oid w)) (points_array inst)
                    (Some new_track) (tracking_score inst)).
    set (w2 := mk_world (S (S (next_oid w))) (arrays w) (centroid_cache w)
                 (iou_cache w)).
    destruct (IH (S i) (spawned ++ [new_track]) (tracked ++ [inst']) w2)
      as (nt & ni & w' & Hrun & Hpts & Htr & Hname & Hon & Hc).
    exists (new_track :: nt), (inst' :: ni), w'.
    rewrite Hrun, <-!(assoc_L (++)). split_and!; try done.
    + rewrite filter_cons_True by done. by rewrite !fmap_cons, Hpts.
    + by rewrite !fmap_cons, Htr.
    + rewrite fmap_cons, Hname, length_app. simpl.
      by replace (length spawned + 1)%nat with (S (length spawned)) by lia.
    + by constructor.
Qed.

(** ** The queue *)

Lemma deque_append_maxlen {A} (q : deque A) (x : A) :
  maxlen (deque_append q x) = maxlen q.
Proof.
  unfold deque_append. destruct (maxlen q) as [n|] eqn:Hn; [|done].
  by case_bool_decide.
Qed.

Lemma deque_append_elem_of {A} (q : deque A) (x y : A) :
  y ∈ items (deque_append q x) → y ∈ items q ∨ y = x.
Proof.
  unfold deque_append. intros Hy.
  assert (y ∈ items q ++ [x]) as Hin.
  { destruct (maxlen q) as [n|]; [|done].
    case_bool_decide; [|done]. simpl in Hy.
    destruct (items q ++ [x]) as [|z l]; [done|]. by right. }
  apply elem_of_app in Hin as [?|?%list_elem_of_singleton]; auto.
Qed.

Lemma lastn_length {A} (n : nat) (l : list A) :
  length (lastn n l) = (length l `min` n)%nat.
Proof. unfold lastn. rewrite length_drop. lia. Qed.

Lemma lastn_snoc {A} (n : nat) (l : list A) (x : A) :
  lastn n (lastn n l ++ [x]) = lastn n (l ++ [x]).
Proof.
  unfold lastn. rewrite !length_app, length_drop. simpl.
  rewrite !drop_app. rewrite drop_drop.
  replace (length l - n + (length l - (length l - n) + 1 - n))%nat
    with (length l + 1 - n)%nat by lia.
  replace (length l - (length l - n) + 1 - n
           - length (drop (length l - n) l))%nat
    with (length l + 1 - n - length l)%nat; [done|].
  rewrite length_drop. lia.
Qed.

(** Appending to a bounded queue that is within its bound keeps the last
    [maxlen] of the items. *)
Lemma deque_append_items {A} (q : deque A) (x : A) (n : nat) :
  maxlen q = Some n → (length (items q) ≤ n)%nat →
  items (deque_append q x) = lastn n (items q ++ [x]).
Proof.
  intros Hn Hlen. unfold deque_append, lastn. rewrite Hn, length_app. simpl.
  case_bool_decide as Hfull; simpl.
  - replace (length (items q) + 1 - n)%nat with 1%nat by lia.
    by destruct (items q ++ [x]).
  - by replace (length (items q) + 1 - n)%nat with 0%nat by lia.
Qed.

(** Past capacity the oldest item goes. *)
Lemma deque_append_full {A} (q : deque A) (x : A) (n : nat) :
  maxlen q = Some n → length (items q) = n →
  items (deque_append q x) = tail (items q ++ [x]).
Proof.
  intros Hn Hlen. unfold deque_append. rewrite Hn, length_app. simpl.
  rewrite bool_decide_eq_true_2 by lia. done.
Qed.

Section Tracker_properties.

Context {Image : Type}.

Variable flow_shift_instances :
  list Instance → option Image → option Image → Z → fl → Z → Z →
  M (list Instance).

Lemma assign_match_spec (u : list Instance) mc ms (e : edge) w inst w' :
  assign_match u mc ms e w = Some (inst, w') →
  ∃ d, u !! e.1 = Some d ∧ points_array inst = points_array d.
Proof.
  unfold assign_match.
  intros (d & w1 & (d' & Hd & [= <- <-])%lift_Some & Hrest)%bind_Some.
  apply bind_Some in Hrest
    as (c & w2 & (c' & Hc & [= <- <-])%lift_Some & Hrest).
  apply bind_Some in Hrest
    as (s & w3 & (s' & Hs & [= <- <-])%lift_Some & Hrest).
  unfold evolve in Hrest.
  apply bind_Some in Hrest as (o & w4 & _ & [= <- _]).
  by exists d.
Qed.

(** What [match_candidates] returns: each matched detection, in the order of
    the pairs returned by the matching function. *)
Lemma match_candidates_spec (self : @Tracker Image) u img t w
    maker tracked inds w1 :
  match_candidates flow_shift_instances self u img t w
  = Some ((maker, tracked, inds), w1) →
  Forall2 (λ i inst, ∃ d, u !! i = Some d ∧
                          points_array inst = points_array d) inds tracked ∧
  (inds = [] ∨
   ∃ cost wa matches wb,
     matching_function self cost wa = Some (matches, wb) ∧
     inds = matches.*1).
Proof.
  unfold match_candidates. case_bool_decide as Hu.
  2:{ intros [= <- <- <- <-]. split; [constructor|by left]. }
  intros ([maker' cands] & w2 & Hcands & Hrest)%bind_Some.
  case_bool_decide as Hc.
  2:{ injection Hrest as <- <- <- <-. split; [constructor|by left]. }
  apply bind_Some in Hrest as (scored & w3 & Hscored & Hrest).
  apply bind_Some in Hrest as (cost & w4 & Hcost & Hrest).
  apply bind_Some in Hrest as (matches & w5 & Hmatches & Hrest).
  apply bind_Some in Hrest as (tr & w6 & Htr & [= <- <- <- <-]).
  split; [|right; by exists cost, w4, matches, w5].
  apply Forall2_fmap_l. apply mapM_Forall2 in Htr.
  eapply Forall2_impl; [exact Htr|]. simpl.
  intros e inst (wa & wb & Ha). by eapply assign_match_spec.
Qed.

(** The pairs the matching function returns in a step that starts in state
    [w] at timestep [t], and the best candidate and score of each detection
    for each track ([scored]) they refer to: none when there is no detection
    or no candidate; otherwise what the matching function returns on the new
    array holding the negated best similarities, NaN replaced by inf. *)
Definition step_matches (self : @Tracker Image)
    (untracked_instances : list Instance) (img : option Image) (t : Z)
    (w : world) (scored : list (list (Instance * fl)))
    (matches : list edge) : Prop :=
  match untracked_instances with
  | [] => scored = [] ∧ matches = []
  | _ :: _ =>
      ∃ maker candidate_instances w1,
        get_candidates flow_shift_instances (candidate_maker self)
          (items (track_matching_queue self)) t img w
        = Some ((maker, candidate_instances), w1) ∧
        match candidate_instances with
        | [] => scored = [] ∧ matches = []
        | _ :: _ =>
            let by_track := group_by_track candidate_instances in
            let matching_similarities :=
              mk_ndarray (length untracked_instances, length by_track)
                (concat ((λ row : list (Instance * fl), row.*2) <$> scored)) in
            ∃ w2 cost w3 w4,
              score_candidates (similarity_function self)
                untracked_instances by_track w1 = Some (scored, w2) ∧
              new_array (set_where isnan PInf
                           (ndarray_map fl_neg matching_similarities)) w2
              = Some (cost, w3) ∧
              matching_function self cost w3 = Some (matches, w4)
        end
  end.

Lemma assign_match_inv (u : list Instance)
    (scored : list (list (Instance * fl))) ms (e : edge) w inst w' :
  assign_match u ((λ row : list (Instance * fl), row.*1) <$> scored) ms e w
  = Some (inst, w') →
  ∃ d row c s,
    u !! e.1 = Some d ∧ scored !! e.1 = Some row ∧ row !! e.2 = Some (c, s) ∧
    points_array inst = points_array d ∧ track inst = track c.
Proof.
  unfold assign_match.
  intros (d & w1 & (d' & Hd & [= <- <-])%lift_Some & Hrest)%bind_Some.
  apply bind_Some in Hrest
    as (c & w2 & (c' & Hc & [= <- <-])%lift_Some & Hrest).
  apply bind_Some in Hrest as (x & w3 & _ & Hrest).
  unfold evolve in Hrest.
  apply bind_Some in Hrest as (o & w4 & _ & [= <- _]).
  rewrite list_lookup_fmap in Hc.
  destruct (scored !! e.1) as [row|] eqn:Hrow; [|done]. simpl in Hc.
  rewrite list_lookup_fmap in Hc.
  destruct (row !! e.2) as [[c' s]|] eqn:Hcs; [|done].
  injection Hc as <-. by exists d, row, c', s.
Qed.

(** What [match_candidates] returns: the pairs of the step, and each matched
    detection with the track of its candidate, in the order of the pairs. *)
Lemma match_candidates_matches (self : @Tracker Image) u img t w
    maker tracked inds w1 :
  match_candidates flow_shift_instances self u img t w
  = Some ((maker, tracked, inds), w1) →
  ∃ scored matches,
    step_matches self u img t w scored matches ∧
    inds = matches.*1 ∧
    Forall2 (λ (e : edge) inst,
               ∃ d row c s,
                 u !! e.1 = Some d ∧ scored !! e.1 = Some row ∧
                 row !! e.2 = Some (c, s) ∧
                 points_array inst = points_array d ∧
                 track inst = track c)
            matches tracked.
Proof.
  unfold match_candidates, step_matches. destruct u as [|d0 u].
  { rewrite bool_decide_eq_false_2 by (simpl; lia).
    intros [= <- <- <- <-]. exists [], [].
    split; [done|]. split; [done|constructor]. }
  rewrite bool_decide_eq_true_2 by (simpl; lia).
  intros ([maker' cands] & w2 & Hcands & Hrest)%bind_Some.
  destruct cands as [|c0 cands].
  { rewrite bool_decide_eq_false_2 in Hrest by (simpl; lia).
    injection Hrest as <- <- <- <-. exists [], [].
    split; [by exists maker', [], w2|]. split; [done|constructor]. }
  rewrite bool_decide_eq_true_2 in Hrest by (simpl; lia).
  apply bind_Some in Hrest as (scored & w3 & Hscored & Hrest).
  apply bind_Some in Hrest as (cost & w4 & Hcost & Hrest).
  apply bind_Some in Hrest as (matches & w5 & Hmatches & Hrest).
  apply bind_Some in Hrest as (tr & w6 & Htr & [= <- <- <- <-]).
  exists scored, matches. split; [|split; [done|]].
  - exists maker', (c0 :: cands), w2. split; [done|].
    by exists w3, cost, w4, w5.
  - apply mapM_Forall2 in Htr. eapply Forall2_impl; [exact Htr|]. simpl.
    intros e inst (wa & wb & Ha). by eapply assign_match_inv.
Qed.

Lemma Tracker_track_unfold (self : @Tracker Image) u img t w :
  Tracker_track flow_shift_instances self u img t w
  = let t0 := infer_timestep (track_matching_queue self) t in
    match match_candidates flow_shift_instances self u img t0 w with
    | Some ((maker, tracked, inds), w1) =>
        match spawn_tracks (min_new_track_points self) t0 inds 0 u
                (spawned_tracks self) tracked w1 with
        | Some ((spawned, out), w2) =>
            Some (mk_Tracker (track_window self) (similarity_function self)
                    (matching_function self) maker
                    (min_new_track_points self)
                    (deque_append (track_matching_queue self)
                       (mk_MatchedInstance t0 out img))
                    spawned (save_tracked_instances self)
                    (if save_tracked_instances self
                     then <[t0 := out]> (tracked_instances self)
                     else tracked_instances self),
                  out, w2)
        | None => None
        end
    | None => None
    end.
Proof.
  unfold Tracker_track, mbind, M_bind. simpl.
  destruct (match_candidates _ _ _ _ _ _) as [[[[maker tracked] inds] w1]|];
    [|done].
  by destruct (spawn_tracks _ _ _ _ _ _ _ _) as [[[spawned out] w2]|].
Qed.

(** A step that returns has appended its result to the queue. *)
Lemma Tracker_track_queue (self self' : @Tracker Image) u img t w out w' :
  Tracker_track flow_shift_instances self u img t w = Some ((self', out), w') →
  track_matching_queue self'
  = deque_append (track_matching_queue self)
      (mk_MatchedInstance (infer_timestep (track_matching_queue self) t)
                          out img) ∧
  track_window self' = track_window self ∧
  similarity_function self' = similarity_function self ∧
  matching_function self' = matching_function self ∧
  min_new_track_points self' = min_new_track_points self.
Proof.
  rewrite Tracker_track_unfold. simpl.
  destruct (match_candidates _ _ _ _ _ _) as [[[[maker tracked] inds] w1]|];
    [|done].
  destruct (spawn_tracks _ _ _ _ _ _ _ _) as [[[spawned out'] w2]|]; [|done].
  by intros [= <- <- <-].
Qed.

End Tracker_properties.

Lemma sublist_swap {A} (a b : A) : [a; b] `sublist_of` [b; a] → a = b.
Proof.
  intros H. inversion H as [| |x l1 l2 H']; subst; [done|].
  inversion H' as [|x l1 l2 H''|x l1 l2 H'']; subst; inversion H''.
Qed.

Lemma run_cases {A} (o : option A) : {r | o = Some r} + {o = None}.
Proof. destruct o as [r|]; [left; by exists r|by right]. Qed.

Lemma run_not_None {A} (o : option A) :
  match o with Some _ => true | None => false end = true → o ≠ None.
Proof. by destruct o. Qed.

Section Tracker_claims.

Context {Image : Type}.

Variable flow_shift_instances :
  list Instance → option Image → option Image → Z → fl → Z → Z →
  M (list Instance).

(** C2, amended: the list returned by [Tracker.track] holds first the
    detections matched this step, in the order of the pairs the matching
    function returns on this step's cost matrix, each with the track of the
    candidate it is paired with; then the detections that spawned a new
    track, in detection-input order; the detections that were neither matched
    nor spawned are omitted. *)
Theorem Tracker_track_matched_then_spawned (self self' : @Tracker Image)
    (untracked_instances : list Instance) (img : option Image) (t : option Z)
    (w w' : world) (out : list Instance) :
  Tracker_track flow_shift_instances self untracked_instances img t w
  = Some ((self', out), w') →
  ∃ scored matches matched spawned,
    out = matched ++ spawned ∧
    step_matches flow_shift_instances self untracked_instances img
      (infer_timestep (track_matching_queue self) t) w scored matches ∧
    Forall2 (λ (e : edge) inst,
               ∃ d row c s,
                 untracked_instances !! e.1 = Some d ∧
                 scored !! e.1 = Some row ∧ row !! e.2 = Some (c, s) ∧
                 points_array inst = points_array d ∧
                 track inst = track c)
            matches matched ∧
    (points_array <$> spawned)
    = ((λ p : nat * Instance, points_array p.2)
       <$> filter (spawnable (min_new_track_points self) matches.*1)
                  (enumerate_from 0 untracked_instances)) ∧
    Forall (λ inst, is_Some (track inst)) spawned.
Proof.
  rewrite Tracker_track_unfold. simpl.
  destruct (match_candidates _ _ _ _ _ _)
    as [[[[maker tracked] inds] w1]|] eqn:Hmatch; [|done].
  apply match_candidates_matches in Hmatch
    as (scored & matches & Hstep & -> & Hmatched).
  destruct (spawn_tracks_spec (min_new_track_points self)
              (infer_timestep (track_matching_queue self) t) matches.*1
              untracked_instances 0 (spawned_tracks self) tracked w1)
    as (nt & ni & w2 & -> & Hpts & Htr & _).
  intros [= <- <- <-]. exists scored, matches, tracked, ni.
  split_and!; try done.
  apply Forall_forall. intros inst Hinst.
  assert (track inst ∈ track <$> ni) as Hin by by apply list_elem_of_fmap_2.
  rewrite Htr in Hin. apply list_elem_of_fmap in Hin as (tr & -> & _).
  by eexists.
Qed.

End Tracker_claims.

Lemma Tracker_track_matched_then_spawned_witness :
  let d0 := point_instance 2 10 in
  let d1 := point_instance 3 1 in
  ∃ r, Tracker_track no_flow tracker_after_one_frame [d0; d1] None None
         fresh_world = Some r ∧
       (points_array <$> r.1.2) = [points_array d1; points_array d0] ∧
       ∃ (matches : list edge) (matched spawned : list Instance),
         r.1.2 = matched ++ spawned ∧
         Forall2 (λ (e : edge) inst,
                    ∃ d, [d0; d1] !! e.1 = Some d ∧
                         points_array inst = points_array d)
                 matches matched ∧
         Forall (λ inst, is_Some (track inst)) spawned.
Proof.
  intros d0 d1.
  destruct (run_cases (Tracker_track no_flow tracker_after_one_frame
                         [d0; d1] None None fresh_world))
    as [[[[self' out] w'] Hrun]|Hrun].
  2:{ exfalso. revert Hrun. apply run_not_None. by vm_compute. }
  exists (self', out, w'). split; [exact Hrun|]. split.
  { assert ((λ r : Tracker * list Instance * world, points_array <$> r.1.2)
            <$> Tracker_track no_flow tracker_after_one_frame [d0; d1] None
                  None fresh_world
            = Some [points_array d1; points_array d0]) as Hout
        by by vm_compute.
    rewrite Hrun in Hout. by injection Hout. }
  destruct (Tracker_track_matched_then_spawned no_flow _ _ _ _ _ _ _ _ Hrun)
    as (scored & matches & matched & spawned & Hout & _ & Hm & _ & Hs).
  exists matches, matched, spawned. split_and!; [exact Hout| |exact Hs].
  eapply Forall2_impl; [exact Hm|]. simpl.
  intros e inst (d & row & c & s & Hd & _ & _ & Hp & _). by exists d.
Defined.

(** C2, as stated, fails: with one track in the queue, at (0, 0), and the
    detections d0 at (10, 0) and d1 at (1, 0), in that order, d1 is matched
    and d0 spawns a track; the returned list is d1, d0. *)
Lemma Tracker_track_not_in_detection_order :
  let d0 := point_instance 2 10 in
  let d1 := point_instance 3 1 in
  fst <$> ('(self1, _) ← Tracker_track no_flow (centroid_tracker 5 0)
                          [point_instance 1 0] None None;
           '(_, out2) ← Tracker_track no_flow self1 [d0; d1] None None;
           mret (points_array <$> out2)) fresh_world
  = Some [points_array d1; points_array d0] ∧
  ¬ [points_array d1; points_array d0]
    `sublist_of` (points_array <$> [d0; d1]).
Proof.
  split; [by vm_compute|].
  intros Hsub%sublist_swap. by vm_compute in Hsub.
Qed.

Lemma filter_enumerate_from (P : Instance → Prop) `{∀ x, Decision (P x)}
    (u : list Instance) (i : nat) :
  (filter (λ p : nat * Instance, P p.2) (enumerate_from i u)).*2 = filter P u.
Proof.
  revert i. induction u as [|inst u IH]; intros i; [done|].
  unfold enumerate_from. simpl. fold (enumerate_from (S i) u).
  rewrite !filter_cons. simpl. destruct (decide (P inst)).
  - by rewrite fmap_cons, IH.
  - apply IH.
Qed.

Section Window_zero.

Context {Image : Type}.

Variable flow_shift_instances :
  list Instance → option Image → option Image → Z → fl → Z → Z →
  M (list Instance).

(** With nothing in the queue, neither candidate maker proposes anything. *)
Lemma get_candidates_empty_queue (maker : @CandidateMaker) (t : Z)
    (img : option Image) (w : world) :
  get_candidates flow_shift_instances maker [] t img w = Some ((maker, []), w).
Proof. by destruct maker. Qed.

(** C7, amended: for a tracker constructed with track_window = 0, every call
    to track returns, finds no candidates, and every detection with at least
    min_new_track_points visible points spawns a new Track (every detection,
    when min_new_track_points is 0 or less); a detection with fewer visible
    points is dropped.  The queue is empty again after the call. *)
Theorem Tracker_track_window_zero (self : @Tracker Image)
    (untracked_instances : list Instance) (img : option Image) (t : option Z)
    (w : world) :
  track_matching_queue self = _init_matching_queue 0 →
  get_candidates flow_shift_instances (candidate_maker self)
    (items (track_matching_queue self))
    (infer_timestep (track_matching_queue self) t) img w
  = Some ((candidate_maker self, []), w) ∧
  ∃ self' out w' new_tracks,
    Tracker_track flow_shift_instances self untracked_instances img t w
    = Some ((self', out), w') ∧
    spawned_tracks self' = spawned_tracks self ++ new_tracks ∧
    track <$> out = Some <$> new_tracks ∧
    name <$> new_tracks
    = seq (length (spawned_tracks self)) (length new_tracks) ∧
    (points_array <$> out)
    = (points_array
       <$> filter (λ inst, min_new_track_points self
                           ≤ Z.of_nat (n_visible_points inst))
                  untracked_instances) ∧
    (min_new_track_points self ≤ 0 →
     length out = length untracked_instances) ∧
    track_matching_queue self' = _init_matching_queue 0.
Proof.
  intros Hq. rewrite Hq. simpl. split; [apply get_candidates_empty_queue|].
  rewrite Tracker_track_unfold. rewrite Hq. simpl.
  assert (match_candidates flow_shift_instances self untracked_instances img
            (infer_timestep (@_init_matching_queue Image 0) t) w
          = Some ((candidate_maker self, [], []), w)) as ->.
  { unfold match_candidates. case_bool_decide; [|done].
    rewrite Hq. simpl. unfold mbind, M_bind.
    by rewrite get_candidates_empty_queue. }
  destruct (spawn_tracks_spec (min_new_track_points self)
              (infer_timestep (@_init_matching_queue Image 0) t) []
              untracked_instances 0 (spawned_tracks self) [] w)
    as (nt & ni & w2 & -> & Hpts & Htr & Hname & _).
  simpl in *.
  assert ((points_array <$> ni)
          = (points_array
             <$> filter (λ inst, min_new_track_points self
                                 ≤ Z.of_nat (n_visible_points inst))
                        untracked_instances)) as Hpts'.
  { rewrite Hpts.
    rewrite <-(filter_enumerate_from
                 (λ inst, min_new_track_points self
                          ≤ Z.of_nat (n_visible_points inst))
                 untracked_instances 0).
    rewrite <-list_fmap_compose. f_equal.
    apply list_filter_iff. intros [i inst]. unfold spawnable. simpl.
    split; [intros [_ ?]; lia|]. intros ?. split; [apply not_elem_of_nil|lia]. }
  eexists _, ni, w2, nt. split_and!; try done.
  intros Hmin.
  rewrite <-(length_fmap points_array ni), Hpts', length_fmap.
  f_equal. clear -Hmin.
  induction untracked_instances as [|inst u IH]; [done|].
  rewrite filter_cons_True by lia. by rewrite IH.
Qed.

End Window_zero.

Lemma Tracker_track_window_zero_witness :
  ∃ self' out w' new_tracks,
    Tracker_track no_flow (centroid_tracker 0 0)
      [point_instance 1 0; point_instance 2 7] None None fresh_world
    = Some ((self', out), w') ∧
    spawned_tracks self' = new_tracks ∧
    length out = 2%nat.
Proof.
  destruct (Tracker_track_window_zero no_flow (centroid_tracker 0 0)
              [point_instance 1 0; point_instance 2 7] None None fresh_world
              eq_refl)
    as (_ & self' & out & w' & nt & Hrun & Hsp & _ & _ & _ & Hlen & _).
  exists self', out, w', nt. split; [exact Hrun|]. split; [exact Hsp|].
  apply Hlen. simpl. lia.
Defined.

(** C7, as stated, fails: a tracker with track_window = 0 and
    min_new_track_points = 1 returns nothing and spawns no track for a
    detection without a visible point. *)
Lemma window_zero_detection_not_spawned :
  (λ r : Tracker * list Instance * world,
     (length r.1.2, length (spawned_tracks r.1.1)))
  <$> Tracker_track no_flow (centroid_tracker 0 1) [empty_instance 1]
        None None fresh_world
  = Some (0%nat, 0%nat).
Proof. by vm_compute. Qed.

Section Sliding_window.

Context {Image : Type}.

Variable flow_shift_instances :
  list Instance → option Image → option Image → Z → fl → Z → Z →
  M (list Instance).

Lemma track_calls_queue calls : ∀ (self self' : @Tracker Image) w ts w' n hist,
  maxlen (track_matching_queue self) = Some n →
  items (track_matching_queue self) = lastn n hist →
  track_calls flow_shift_instances self calls w = Some ((self', ts), w') →
  ∃ entries,
    mi_t <$> entries = ts ∧
    maxlen (track_matching_queue self') = Some n ∧
    items (track_matching_queue self') = lastn n (hist ++ entries) ∧
    track_window self' = track_window self.
Proof.
  induction calls as [|[[u img] t] calls IH];
    intros self self' w ts w' n hist Hmax Hitems; simpl.
  - intros [= <- <- <-]. exists []. by rewrite app_nil_r.
  - intros ([self1 out] & w1 & Hstep & Hrest)%bind_Some.
    apply bind_Some in Hrest as ([self2 ts'] & w2 & Hrun & [= <- <- <-]).
    apply Tracker_track_queue in Hstep as (Hq & Hw & _).
    set (entry := mk_MatchedInstance
                    (infer_timestep (track_matching_queue self) t) out img)
      in *.
    destruct (IH self1 self2 w1 ts' w2 n (hist ++ [entry]))
      as (entries & Hts & Hmax' & Hitems' & Hw'); [| |done|].
    + by rewrite Hq, deque_append_maxlen.
    + rewrite Hq. rewrite (deque_append_items _ _ n); [|done|].
      * by rewrite Hitems, lastn_snoc.
      * rewrite Hitems, lastn_length. lia.
    + exists (entry :: entries). rewrite fmap_cons, Hts.
      split_and!; [done|done| |congruence].
      by rewrite Hitems', <-(assoc_L (++)).
Qed.

(** C5: the tracking queue's length never exceeds track_window after any
    sequence of track calls; its stored timesteps are exactly the
    track_window most recent ones (all of them while there are no more than
    track_window), and once the queue is full each further call evicts the
    oldest entry and appends the new one. *)
Theorem tracking_queue_sliding_window (self self' : @Tracker Image)
    (calls : list (list Instance * option Image * option Z))
    (w w' : world) (ts : list Z) :
  track_matching_queue self = _init_matching_queue (track_window self) →
  track_calls flow_shift_instances self calls w = Some ((self', ts), w') →
  length ts = length calls ∧
  (length (items (track_matching_queue self')) ≤ track_window self)%nat ∧
  length (items (track_matching_queue self'))
  = (length calls `min` track_window self)%nat ∧
  mi_t <$> items (track_matching_queue self')
  = lastn (track_window self) ts ∧
  (∀ u img t self'' out w'',
     length (items (track_matching_queue self')) = track_window self →
     Tracker_track flow_shift_instances self' u img t w'
     = Some ((self'', out), w'') →
     items (track_matching_queue self'')
     = tail (items (track_matching_queue self')
             ++ [mk_MatchedInstance
                   (infer_timestep (track_matching_queue self') t) out img])).
Proof.
  intros Hq Hrun.
  assert (length ts = length calls) as Hlen.
  { clear Hq. revert self self' w ts w' Hrun.
    induction calls as [|[[u img] t] calls IH]; intros self self' w ts w';
      simpl.
    - by intros [= <- <- <-].
    - intros ([self1 out] & w1 & Hstep & Hrest)%bind_Some.
      apply bind_Some in Hrest as ([self2 ts'] & w2 & Hrun & [= <- <- <-]).
      simpl. f_equal. by eapply IH. }
  destruct (track_calls_queue calls self self' w ts w' (track_window self) [])
    as (entries & Hts & Hmax & Hitems & Hw); [by rewrite Hq|by rewrite Hq|done|].
  simpl in Hitems.
  assert (length entries = length calls) as Hlen'.
  { by rewrite <-Hlen, <-Hts, length_fmap. }
  split_and!.
  - done.
  - rewrite Hitems, lastn_length. lia.
  - rewrite Hitems, lastn_length. lia.
  - rewrite Hitems, <-Hts. unfold lastn. by rewrite fmap_drop, length_fmap.
  - intros u img t self'' out w'' Hfull Hstep.
    apply Tracker_track_queue in Hstep as (-> & _).
    by apply (deque_append_full _ _ (track_window self)).
Qed.

End Sliding_window.

Lemma tracking_queue_sliding_window_witness :
  let calls :=
    [([point_instance 1 0], None, None); ([point_instance 2 1], None, None);
     ([point_instance 3 2], None, None)] in
  ∃ r, track_calls no_flow (centroid_tracker 1 0) calls fresh_world = Some r ∧
       length (items (track_matching_queue r.1.1)) = 1%nat ∧
       mi_t <$> items (track_matching_queue r.1.1) = lastn 1 r.1.2.
Proof.
  intros calls.
  destruct (run_cases (track_calls no_flow (centroid_tracker 1 0) calls
                         fresh_world)) as [[[[self' ts] w'] Hrun]|Hrun].
  2:{ exfalso. revert Hrun. apply run_not_None. by vm_compute. }
  exists (self', ts, w'). split; [exact Hrun|].
  destruct (tracking_queue_sliding_window no_flow (centroid_tracker 1 0)
              self' calls fresh_world w' ts eq_refl Hrun)
    as (_ & _ & Hlen & Hts & _).
  split; [exact Hlen|exact Hts].
Defined.

(** Three calls on a tracker with track_window = 1, the timestep left to the
    tracker: the calls run at 0, 1, 2 and the queue holds timestep 2 only. *)
Example sliding_window_of_one :
  (λ r : Tracker * list Z * world,
     (r.1.2, mi_t <$> items (track_matching_queue r.1.1)))
  <$> track_calls no_flow (centroid_tracker 1 0)
        [([point_instance 1 0], None, None); ([point_instance 2 1], None, None);
         ([point_instance 3 2], None, None)] fresh_world
  = Some ([0; 1; 2], [2]).
Proof. by vm_compute. Qed.

(** ** The caches of the similarity scorers *)

Section Similarity_caches.

Context {Image : Type}.

Variable nanmedian : list (fl * fl) → fl * fl.
Variable norm_diff : fl * fl → fl * fl → fl.
Variable compute_iou : fl * fl * fl * fl → fl * fl * fl * fl → fl.

Variable flow_shift_instances :
  list Instance → option Image → option Image → Z → fl → Z → Z →
  M (list Instance).

Lemma insert_default_subseteq {V} (m : gmap nat V) (k : nat) (v : V) :
  m ⊆ <[k := default v (m !! k)]> m.
Proof.
  destruct (m !! k) as [c|] eqn:Hk; simpl.
  - by rewrite insert_id.
  - by apply insert_subseteq.
Qed.

Lemma cache_centroid_spec inst w :
  cache_centroid nanmedian inst w
  = Some ((), mk_world (next_oid w) (arrays w)
                (<[oid inst := centroid_used nanmedian (centroid_cache w) inst]>
                   (centroid_cache w))
                (iou_cache w)).
Proof.
  unfold cache_centroid, centroid_used.
  destruct (centroid_cache w !! oid inst) as [c|] eqn:Hc; simpl; [|done].
  rewrite insert_id by done. by destruct w.
Qed.

Lemma cache_bounding_box_spec inst w :
  cache_bounding_box inst w
  = match bounding_box_used (iou_cache w) inst with
    | Some a =>
        Some ((), mk_world (next_oid w) (arrays w) (centroid_cache w)
                    (<[oid inst := a]> (iou_cache w)))
    | None => None
    end.
Proof.
  unfold cache_bounding_box, bounding_box_used.
  destruct (iou_cache w !! oid inst) as [c|] eqn:Hc; simpl; [|done].
  rewrite insert_id by done. by destruct w.
Qed.

(** What [centroid_distance] returns and leaves in the cache. *)
Lemma centroid_distance_spec ref_instance query_instance w :
  let a := centroid_used nanmedian (centroid_cache w) ref_instance in
  let cache1 := <[oid ref_instance := a]> (centroid_cache w) in
  let b := centroid_used nanmedian cache1 query_instance in
  centroid_distance nanmedian norm_diff ref_instance query_instance w
  = Some (fl_neg (norm_diff a b),
          mk_world (next_oid w) (arrays w)
            (<[oid query_instance := b]> cache1) (iou_cache w)).
Proof.
  intros a cache1 b.
  unfold centroid_distance, mbind, M_bind.
  rewrite cache_centroid_spec. fold a. fold cache1.
  rewrite cache_centroid_spec. simpl. fold b.
  unfold cached_centroid. simpl.
  assert ((<[oid query_instance := b]> cache1) !! oid ref_instance = Some a)
    as ->.
  { destruct (decide (oid query_instance = oid ref_instance)) as [Heq|Hne].
    - rewrite Heq, lookup_insert_eq. f_equal. unfold b, centroid_used, cache1.
      by rewrite Heq, lookup_insert_eq.
    - rewrite lookup_insert_ne by done. apply lookup_insert_eq. }
  simpl. by rewrite lookup_insert_eq.
Qed.

(** What [instance_iou] returns and leaves in the cache, and when it
    raises. *)
Lemma instance_iou_spec ref_instance query_instance w :
  instance_iou compute_iou ref_instance query_instance w
  = match bounding_box_used (iou_cache w) ref_instance with
    | None => None
    | Some a =>
        let cache1 := <[oid ref_instance := a]> (iou_cache w) in
        match bounding_box_used cache1 query_instance with
        | None => None
        | Some b =>
            Some (compute_iou a b,
                  mk_world (next_oid w) (arrays w) (centroid_cache w)
                    (<[oid query_instance := b]> cache1))
        end
    end.
Proof.
  unfold instance_iou, mbind, M_bind.
  rewrite cache_bounding_box_spec.
  destruct (bounding_box_used (iou_cache w) ref_instance) as [a|]; [|done].
  rewrite cache_bounding_box_spec. simpl.
  set (cache1 := <[oid ref_instance := a]> (iou_cache w)).
  destruct (bounding_box_used cache1 query_instance) as [b|] eqn:Hb; [|done].
  unfold cached_bounding_box. simpl.
  assert ((<[oid query_instance := b]> cache1) !! oid ref_instance = Some a)
    as ->.
  { destruct (decide (oid query_instance = oid ref_instance)) as [Heq|Hne].
    - rewrite Heq, lookup_insert_eq. f_equal.
      unfold bounding_box_used, cache1 in Hb.
      rewrite Heq, lookup_insert_eq in Hb. congruence.
    - rewrite lookup_insert_ne by done. apply lookup_insert_eq. }
  simpl. by rewrite lookup_insert_eq.
Qed.

Lemma keeps_caches_centroid_distance ref_instance query_instance :
  keeps_caches (centroid_distance nanmedian norm_diff ref_instance
                  query_instance).
Proof.
  intros w r w'. rewrite centroid_distance_spec. intros [= <- <-].
  split; [|done]. simpl.
  etrans; [apply insert_default_subseteq|apply insert_default_subseteq].
Qed.

Lemma keeps_caches_instance_iou ref_instance query_instance :
  keeps_caches (instance_iou compute_iou ref_instance query_instance).
Proof.
  intros w r w'. rewrite instance_iou_spec.
  destruct (bounding_box_used (iou_cache w) ref_instance) as [a|] eqn:Ha;
    [|done].
  cbv zeta.
  destruct (bounding_box_used _ query_instance) as [b|] eqn:Hb; [|done].
  intros [= <- <-]. split; [done|]. simpl.
  assert (∀ (m : gmap nat (fl * fl * fl * fl)) inst c,
            bounding_box_used m inst = Some c → m ⊆ <[oid inst := c]> m)
    as Hgrow.
  { intros m inst c. unfold bounding_box_used.
    destruct (m !! oid inst) as [c'|] eqn:Hk.
    - intros [= ->]. by rewrite insert_id.
    - intros _. by apply insert_subseteq. }
  etrans; [by apply Hgrow|by apply Hgrow].
Qed.

Hypothesis flow_keeps_caches : ∀ refs ref_img img m s ws ml,
  keeps_caches (flow_shift_instances refs ref_img img m s ws ml).

Lemma keeps_caches_flow_get_candidates queue : ∀ self t img cands,
  keeps_caches (flow_get_candidates flow_shift_instances self queue t img cands).
Proof.
  induction queue as [|item queue IH]; intros self t img cands; simpl.
  - apply keeps_caches_ret.
  - case_bool_decide; [|apply IH].
    apply keeps_caches_bind; [apply flow_keeps_caches|]. intros shifted.
    apply IH.
Qed.

Lemma keeps_caches_get_candidates maker queue t img :
  keeps_caches (get_candidates flow_shift_instances maker queue t img).
Proof.
  destruct maker as [self|min_points]; simpl.
  - apply keeps_caches_bind; [apply keeps_caches_flow_get_candidates|].
    intros [self' cands]. apply keeps_caches_ret.
  - apply keeps_caches_ret.
Qed.

Lemma keeps_caches_best_candidate similarity u group :
  (∀ a b, keeps_caches (similarity a b)) →
  keeps_caches (best_candidate similarity u group).
Proof.
  intros Hsim. unfold best_candidate.
  apply keeps_caches_bind; [by apply keeps_caches_mapM|]. intros sims.
  apply keeps_caches_bind; [apply keeps_caches_lift|]. intros i.
  apply keeps_caches_bind; [apply keeps_caches_lift|]. intros c.
  apply keeps_caches_bind; [apply keeps_caches_lift|]. intros s.
  apply keeps_caches_ret.
Qed.

Lemma keeps_caches_assign_match u mc ms e :
  keeps_caches (assign_match u mc ms e).
Proof.
  unfold assign_match.
  apply keeps_caches_bind; [apply keeps_caches_lift|]. intros d.
  apply keeps_caches_bind; [apply keeps_caches_lift|]. intros c.
  apply keeps_caches_bind; [apply keeps_caches_lift|]. intros s.
  apply keeps_caches_evolve.
Qed.

Lemma keeps_caches_match_candidates (self : @Tracker Image) u img t :
  (∀ a b, keeps_caches (similarity_function self a b)) →
  (∀ p, keeps_caches (matching_function self p)) →
  keeps_caches (match_candidates flow_shift_instances self u img t).
Proof.
  intros Hsim Hmatch. unfold match_candidates.
  case_bool_decide; [|apply keeps_caches_ret].
  apply keeps_caches_bind; [apply keeps_caches_get_candidates|].
  intros [maker cands]. case_bool_decide; [|apply keeps_caches_ret].
  apply keeps_caches_bind.
  { apply keeps_caches_mapM. intros d. apply keeps_caches_mapM. intros g.
    by apply keeps_caches_best_candidate. }
  intros scored.
  apply keeps_caches_bind; [apply keeps_caches_new_array|]. intros cost.
  apply keeps_caches_bind; [apply Hmatch|]. intros matches.
  apply keeps_caches_bind.
  { apply keeps_caches_mapM. intros e. apply keeps_caches_assign_match. }
  intros tracked. apply keeps_caches_ret.
Qed.

Lemma keeps_caches_Tracker_track (self : @Tracker Image) u img t :
  (∀ a b, keeps_caches (similarity_function self a b)) →
  (∀ p, keeps_caches (matching_function self p)) →
  keeps_caches (Tracker_track flow_shift_instances self u img t).
Proof.
  intros Hsim Hmatch w r w'. rewrite Tracker_track_unfold. simpl.
  destruct (match_candidates _ _ _ _ _ _)
    as [[[[maker tracked] inds] w1]|] eqn:Hm; [|done].
  apply keeps_caches_match_candidates in Hm; [|done|done].
  destruct (spawn_tracks_spec (min_new_track_points self)
              (infer_timestep (track_matching_queue self) t) inds
              u 0 (spawned_tracks self) tracked w1)
    as (nt & ni & w2 & -> & _ & _ & _ & _ & [Hc1 Hc2]).
  intros [= <- <-]. etrans; [exact Hm|]. split; [by rewrite Hc1|by rewrite Hc2].
Qed.

(** C9, amended: the caches of the centroid-distance and IoU scorers are not
    scoped to a tracking step.  Each is one dictionary for the life of the
    process, shared by every call and every tracker: a scorer takes the
    centroid (bounding box) of an instance from the cache whenever the
    identity of the instance is in it, computes and stores it otherwise (the
    IoU scorer raising when it has to compute the box of an instance with no
    nodes), and never removes an entry; so every entry there before a call to
    track that returns, put by whichever tracker, is there unchanged after
    it. *)
Theorem similarity_caches_persist (self self' : @Tracker Image)
    (untracked_instances : list Instance) (img : option Image) (t : option Z)
    (w w' : world) (out : list Instance) :
  similarity_function self = centroid_distance nanmedian norm_diff ∨
  similarity_function self = instance_iou compute_iou →
  (∀ p, keeps_caches (matching_function self p)) →
  Tracker_track flow_shift_instances self untracked_instances img t w
  = Some ((self', out), w') →
  caches_kept w w' ∧
  (∀ ref_instance query_instance w0,
     let a := centroid_used nanmedian (centroid_cache w0) ref_instance in
     let cache1 := <[oid ref_instance := a]> (centroid_cache w0) in
     let b := centroid_used nanmedian cache1 query_instance in
     centroid_distance nanmedian norm_diff ref_instance query_instance w0
     = Some (fl_neg (norm_diff a b),
             mk_world (next_oid w0) (arrays w0)
               (<[oid query_instance := b]> cache1) (iou_cache w0))) ∧
  (∀ ref_instance query_instance w0,
     instance_iou compute_iou ref_instance query_instance w0
     = match bounding_box_used (iou_cache w0) ref_instance with
       | None => None
       | Some a =>
           let cache1 := <[oid ref_instance := a]> (iou_cache w0) in
           match bounding_box_used cache1 query_instance with
           | None => None
           | Some b =>
               Some (compute_iou a b,
                     mk_world (next_oid w0) (arrays w0) (centroid_cache w0)
                       (<[oid query_instance := b]> cache1))
           end
       end).
Proof.
  intros Hsim Hmatch Hrun. split_and!.
  - eapply keeps_caches_Tracker_track; [|exact Hmatch|exact Hrun].
    intros a b. destruct Hsim as [-> | ->].
    + apply keeps_caches_centroid_distance.
    + apply keeps_caches_instance_iou.
  - apply centroid_distance_spec.
  - apply instance_iou_spec.
Qed.

End Similarity_caches.

Lemma keeps_caches_raise {A} : keeps_caches (@raise A).
Proof. by intros w r w'. Qed.

Lemma similarity_caches_persist_witness :
  let w := mk_world 100 ∅ {[ 7%nat := (dbl 3, dbl 0) ]} ∅ in
  ∃ r, Tracker_track no_flow tracker_after_one_frame [point_instance 2 1]
         None None w = Some r ∧
       centroid_cache w ⊆ centroid_cache r.2 ∧
       centroid_cache r.2 !! 2%nat = Some (dbl 1, dbl 0).
Proof.
  intros w.
  destruct (run_cases (Tracker_track no_flow tracker_after_one_frame
                         [point_instance 2 1] None None w))
    as [[[[self' out] w'] Hrun]|Hrun].
  2:{ exfalso. revert Hrun. apply run_not_None. by vm_compute. }
  exists (self', out, w'). split; [exact Hrun|]. split.
  - destruct (similarity_caches_persist one_point_median abscissa_distance
                (λ _ _, NaN) no_flow (λ _ _ _ _ _ _ _, keeps_caches_raise)
                tracker_after_one_frame self' [point_instance 2 1] None None
                w w' out (or_introl eq_refl)
                (@keeps_caches_call_greedy_matching stable_argsort) Hrun)
      as [[Hkept _] _].
    exact Hkept.
  - assert ((λ r : Tracker * list Instance * world,
               centroid_cache r.2 !! 2%nat)
            <$> Tracker_track no_flow tracker_after_one_frame
                  [point_instance 2 1] None None w
            = Some (Some (dbl 1, dbl 0))) as Hcache by by vm_compute.
    rewrite Hrun in Hcache. by injection Hcache.
Defined.

(** C9, as stated, fails.  Tracker A sees the instance y (object 2) at
    (1, 0): its centroid stays in the cache.  The point of y then moves to
    (10, 0), and an unrelated tracker B, whose only track is at (0, 0), is
    given y and z, z at (5, 0).  On its own B matches z, the nearer one, and
    y spawns a track; after A, in the same process, B reads the centroid
    cached for y, matches y and lets z spawn a track. *)
Lemma similarity_cache_leaks_across_trackers :
  let y := point_instance 2 1 in
  let y_moved := point_instance 2 10 in
  let z := point_instance 4 5 in
  let A_run : M (Tracker * list Instance) :=
    '(a1, _) ← Tracker_track no_flow (centroid_tracker 5 0)
                 [point_instance 1 0] None None;
    Tracker_track no_flow a1 [y] None None in
  let B_run : M (list (list (fl * fl) * option nat)) :=
    '(b1, _) ← Tracker_track no_flow (centroid_tracker 5 0)
                 [point_instance 3 0] None None;
    '(_, out) ← Tracker_track no_flow b1 [y_moved; z] None None;
    mret ((λ inst, (points_array inst, name <$> track inst)) <$> out) in
  (r ← A_run fresh_world; centroid_cache r.2 !! 2%nat)
  = Some (dbl 1, dbl 0) ∧
  fst <$> B_run fresh_world
  = Some [(points_array z, Some 0%nat); (points_array y_moved, Some 1%nat)] ∧
  fst <$> (_ ← A_run; B_run) fresh_world
  = Some [(points_array y_moved, Some 0%nat); (points_array z, Some 1%nat)].
Proof. split_and!; by vm_compute. Qed.

(** * Further properties of the module *)

(** ** The greedy solver *)

(** X1: on an n x m cost matrix the greedy solver returns exactly min(n, m)
    pairs, each of them a cell of the matrix. *)
Theorem greedy_matching_size `{NpArgsort} (cost_matrix : ndarray) :
  well_shaped cost_matrix →
  length (greedy_matching cost_matrix)
  = ((shape cost_matrix).1 `min` (shape cost_matrix).2)%nat ∧
  in_shape (shape cost_matrix) (greedy_matching cost_matrix).
Proof.
  intros Hwf. destruct (greedy_matching_full cost_matrix Hwf) as (_ & Hin & Hlen).
  by split.
Qed.

Lemma greedy_matching_size_witness :
  let cost := mk_ndarray (3, 2)%nat [Fin 4; Fin 1; Fin 2; Fin 2; Fin 0; Fin 9] in
  length (@greedy_matching stable_argsort cost) = 2%nat.
Proof.
  apply (@greedy_matching_size stable_argsort
           (mk_ndarray (3, 2)%nat [Fin 4; Fin 1; Fin 2; Fin 2; Fin 0; Fin 9])).
  reflexivity.
Defined.

Lemma unassigned_sorted `{NpArgsort} (c : ndarray) :
  well_shaped c →
  StronglySorted (λ e e', sort_le (cost_at c e) (cost_at c e'))
    (unravel_index (shape c) <$> argsort (data c)).
Proof.
  intros Hwf.
  pose proof (StronglySorted_elem_of _ _ (argsort (data c))
                (λ x Hx, Hx) (argsort_sorted (data c))) as Hs.
  eapply StronglySorted_fmap; [|exact Hs].
  intros a b (Ha & Hb & HR). simpl in HR.
  assert (∀ i, i ∈ argsort (data c) →
    cost_at c (unravel_index (shape c) i) = key_at (data c) i) as Hkey.
  { intros i Hi. rewrite argsort_perm in Hi. apply elem_of_seq in Hi.
    apply cost_at_unravel; [done|lia]. }
  by rewrite (Hkey a), (Hkey b).
Qed.

(** X2: the greedy solver returns its pairs by ascending cost (NaN last),
    and the first pair it returns is a cell of least cost of the whole
    matrix. *)
Theorem greedy_matching_ascending `{NpArgsort} (cost_matrix : ndarray) :
  well_shaped cost_matrix →
  StronglySorted
    (λ e e', sort_le (cost_at cost_matrix e) (cost_at cost_matrix e'))
    (greedy_matching cost_matrix) ∧
  (∀ e rest x,
     greedy_matching cost_matrix = e :: rest →
     (x.1 < (shape cost_matrix).1)%nat → (x.2 < (shape cost_matrix).2)%nat →
     sort_le (cost_at cost_matrix e) (cost_at cost_matrix x)).
Proof.
  intros Hwf. split.
  - eapply sublist_StronglySorted; [apply greedy_loop_sublist|].
    by apply unassigned_sorted.
  - intros e rest x Hres Hx1 Hx2. unfold sort_le.
    destruct (sort_lt (cost_at cost_matrix x) (cost_at cost_matrix e))
      eqn:Hlt; [exfalso|done].
    unfold greedy_matching in Hres.
    apply (greedy_loop_blocked _ []) in Hres as (l1 & l2 & Hl & Hblocked).
    destruct (Hblocked x) as (e' & He' & _); [|by apply elem_of_nil in He'].
    by eapply cheaper_stands_before.
Qed.

Lemma greedy_matching_ascending_witness :
  let cost := mk_ndarray (2, 2)%nat [Fin 3; Fin 1; NaN; Fin 5] in
  StronglySorted (λ e e', sort_le (cost_at cost e) (cost_at cost e'))
    (@greedy_matching stable_argsort cost).
Proof.
  apply (@greedy_matching_ascending stable_argsort
           (mk_ndarray (2, 2)%nat [Fin 3; Fin 1; NaN; Fin 5])).
  reflexivity.
Defined.

(** ** Grouping the candidates by track *)

Lemma group_append_keys by_track inst :
  (group_append by_track inst).*1
  = if decide (track inst ∈ by_track.*1) then by_track.*1
    else by_track.*1 ++ [track inst].
Proof.
  induction by_track as [|[k g] d IH].
  - rewrite decide_False by apply not_elem_of_nil. done.
  - cbn [group_append]. destruct (decide (k = track inst)) as [->|Hne].
    + rewrite decide_True; [done|]. rewrite fmap_cons. left.
    + rewrite !fmap_cons, IH. cbn [fst].
      destruct (decide (track inst ∈ d.*1)) as [Hin|Hnin].
      * rewrite decide_True; [done|]. by right.
      * rewrite decide_False; [done|].
        intros [?|?]%elem_of_cons; [congruence|done].
Qed.

Lemma group_append_elem_of by_track inst k g' :
  NoDup by_track.*1 →
  (k, g') ∈ group_append by_track inst →
  (k ≠ track inst ∧ (k, g') ∈ by_track) ∨
  (k = track inst ∧ ∃ g, (k, g) ∈ by_track ∧ g' = g ++ [inst]) ∨
  (k = track inst ∧ (track inst ∉ by_track.*1) ∧ g' = [inst]).
Proof.
  induction by_track as [|[k0 g0] d IH]; simpl; intros Hnd Hin.
  - apply list_elem_of_singleton in Hin as [= -> ->].
    right. right. split_and!; [done|apply not_elem_of_nil|done].
  - apply NoDup_cons in Hnd as [Hk0 Hnd].
    destruct (decide (k0 = track inst)) as [->|Hne].
    + apply elem_of_cons in Hin as [[= -> ->]|Hin].
      * right. left. split; [done|]. exists g0. split; [left|done].
      * left. split; [|by right]. intros ->. apply Hk0.
        apply list_elem_of_fmap. by exists (track inst, g').
    + apply elem_of_cons in Hin as [[= -> ->]|Hin].
      * left. split; [done|left].
      * destruct (IH Hnd Hin) as [[? ?]|[(? & g & ? & ?)|(? & ? & ?)]].
        -- left. split; [done|by right].
        -- right. left. split; [done|]. exists g. split; [by right|done].
        -- right. right. split_and!; [done| |done].
           intros [?|?]%elem_of_cons; [congruence|done].
Qed.

(** The invariant of the grouping loop. *)
Lemma group_by_track_groups (candidate_instances : list Instance) :
  NoDup (group_by_track candidate_instances).*1 ∧
  (∀ inst, inst ∈ candidate_instances →
           track inst ∈ (group_by_track candidate_instances).*1) ∧
  (∀ k g, (k, g) ∈ group_by_track candidate_instances →
          g ≠ [] ∧
          g = filter (λ inst, track inst = k) candidate_instances).
Proof.
  unfold group_by_track.
  induction candidate_instances as [|inst c (Hnd & Hcover & Hgroups)]
    using rev_ind.
  - simpl. split_and!; [constructor|by intros ? ?%elem_of_nil|].
    by intros k g ?%elem_of_nil.
  - rewrite foldl_snoc. set (d := foldl group_append [] c) in *.
    assert (NoDup (group_append d inst).*1) as Hnd'.
    { rewrite group_append_keys. case_decide as Hin; [done|].
      apply NoDup_app. split_and!; [done| |apply NoDup_singleton].
      intros k Hk ->%list_elem_of_singleton. done. }
    split_and!; [done| |].
    + intros i Hi. rewrite group_append_keys.
      apply elem_of_app in Hi as [Hi | ->%list_elem_of_singleton].
      * case_decide; [by apply Hcover|]. apply elem_of_app. left.
        by apply Hcover.
      * case_decide; [done|]. apply elem_of_app. right. left.
    + intros k g' Hin. rewrite filter_app.
      apply group_append_elem_of in Hin
        as [[Hne Hin]|[(Hk & g & Hin & Hg')|(Hk & Hnin & Hg')]]; [| | |done];
        try subst k; try subst g'.
      * destruct (Hgroups k g' Hin) as [Hg Heq]. split; [done|].
        rewrite filter_cons_False, filter_nil, app_nil_r by congruence. done.
      * destruct (Hgroups _ g Hin) as [Hg Heq]. split; [by destruct g|].
        rewrite filter_cons_True, filter_nil by done. by rewrite <-Heq.
      * split; [done|].
        rewrite filter_cons_True, filter_nil by done.
        assert (filter (λ i, track i = track inst) c = []) as ->; [|done].
        clearbody d. clear -Hcover Hnin. induction c as [|i c IH]; [done|].
        rewrite filter_cons_False.
        -- apply IH. intros i' Hi'. apply Hcover. by right.
        -- intros Heq. apply Hnin. rewrite <-Heq. apply Hcover. left.
Qed.

(** X3: grouping the candidates by track gives one group per distinct track
    of the pool, no track twice and no other key; and the group of a track is
    never empty: it holds the candidates of that track, in the order of the
    pool.  (So the similarity matrix has one column per track, and the search
    for the best candidate of a track never runs on an empty list.) *)
Theorem group_by_track_spec (candidate_instances : list Instance) :
  NoDup (group_by_track candidate_instances).*1 ∧
  (group_by_track candidate_instances).*1
  ≡ₚ remove_dups (track <$> candidate_instances) ∧
  (∀ k g, (k, g) ∈ group_by_track candidate_instances →
          g ≠ [] ∧
          g = filter (λ inst, track inst = k) candidate_instances).
Proof.
  destruct (group_by_track_groups candidate_instances)
    as (Hnd & Hcover & Hgroups).
  split_and!; [done| |done].
  apply NoDup_Permutation; [done|apply NoDup_remove_dups|].
  intros k. split.
  - intros Hk. apply list_elem_of_fmap in Hk as ([k' g] & -> & Hg). simpl.
    destruct (Hgroups _ _ Hg) as [Hne Heq].
    destruct g as [|inst g]; [done|].
    assert (inst ∈ filter (λ i, track i = k') candidate_instances) as Hin
        by (rewrite <-Heq; left).
    apply list_elem_of_filter in Hin as [Htr Hin].
    apply elem_of_remove_dups, list_elem_of_fmap. by exists inst.
  - intros Hk. apply (proj1 (elem_of_remove_dups _ _)) in Hk.
    apply list_elem_of_fmap in Hk as (inst & -> & Hin). by apply Hcover.
Qed.

(** ** More on the tracker step *)

Lemma last_deque_append {A} (q : deque A) (x : A) (n : nat) :
  maxlen q = Some n → (0 < n)%nat → last (items (deque_append q x)) = Some x.
Proof.
  intros Hn Hpos. unfold deque_append. rewrite Hn, length_app. simpl.
  case_bool_decide as Hfull; simpl; [|apply last_snoc].
  destruct (items q) as [|y l]; simpl in *; [lia|]. apply last_snoc.
Qed.

Section Tracker_steps.

Context {Image : Type}.

Variable flow_shift_instances :
  list Instance → option Image → option Image → Z → fl → Z → Z →
  M (list Instance).

(** X4: a call to track with no detection returns the empty list and still
    appends an entry (t, [], img) to the queue; it asks for no candidates,
    spawns no track, makes no object and leaves the process state as it
    was. *)
Theorem Tracker_track_no_detections (self : @Tracker Image)
    (img : option Image) (t : option Z) (w : world) :
  ∃ self',
    Tracker_track flow_shift_instances self [] img t w = Some ((self', []), w) ∧
    spawned_tracks self' = spawned_tracks self ∧
    candidate_maker self' = candidate_maker self ∧
    track_matching_queue self'
    = deque_append (track_matching_queue self)
        (mk_MatchedInstance (infer_timestep (track_matching_queue self) t)
                            [] img).
Proof.
  rewrite Tracker_track_unfold. simpl. eexists. split; [reflexivity|]. done.
Qed.

Lemma track_calls_default_timesteps calls :
  ∀ (self self' : @Tracker Image) w ts w' n,
  maxlen (track_matching_queue self) = Some n → (0 < n)%nat →
  Forall (λ c, c.2 = None) calls →
  track_calls flow_shift_instances self calls w = Some ((self', ts), w') →
  ts = (λ k, infer_timestep (track_matching_queue self) None + Z.of_nat k)
       <$> seq 0 (length calls).
Proof.
  induction calls as [|[[u img] t] calls IH];
    intros self self' w ts w' n Hmax Hpos Hnone; cbn [track_calls].
  - by intros [= <- <- <-].
  - apply Forall_cons in Hnone as [Ht Hnone]. simpl in Ht. subst t.
    intros ([self1 out] & w1 & Hstep & Hrest)%bind_Some.
    apply bind_Some in Hrest as ([self2 ts'] & w2 & Hrun & [= <- <- <-]).
    apply Tracker_track_queue in Hstep as (Hq & _).
    rewrite (IH self1 self2 w1 ts' w2 n); [| |done|done|done].
    2:{ by rewrite Hq, deque_append_maxlen. }
    cbn [length]. rewrite <-cons_seq, fmap_cons, Z.add_0_r. f_equal.
    rewrite <-fmap_S_seq, <-list_fmap_compose. apply list_fmap_ext.
    intros _ k _. cbn [compose]. unfold infer_timestep at 1.
    rewrite Hq, (last_deque_append _ _ n) by done. cbn [mi_t]. lia.
Qed.

(** X5: when no timestep is passed, a new tracker with track_window > 0 runs
    its calls at timesteps 0, 1, 2, ...; with track_window = 0 the queue
    keeps nothing to count from and every call runs at timestep 0. *)
Theorem Tracker_track_default_timesteps (self self' : @Tracker Image)
    (calls : list (list Instance * option Image * option Z))
    (w w' : world) (ts : list Z) :
  track_matching_queue self = _init_matching_queue (track_window self) →
  Forall (λ c, c.2 = None) calls →
  track_calls flow_shift_instances self calls w = Some ((self', ts), w') →
  ts = if decide (track_window self = 0%nat)
       then replicate (length calls) 0
       else Z.of_nat <$> seq 0 (length calls).
Proof.
  intros Hq Hnone Hrun. case_decide as Hw.
  - rewrite Hw in Hq. clear Hw. revert self self' w ts w' Hq Hrun.
    induction calls as [|[[u img] t] calls IH]; intros self self' w ts w' Hq;
      simpl.
    + by intros [= <- <- <-].
    + apply Forall_cons in Hnone as [Ht Hnone]. simpl in Ht. subst t.
      intros ([self1 out] & w1 & Hstep & Hrest)%bind_Some.
      apply bind_Some in Hrest as ([self2 ts'] & w2 & Hrun & [= <- <- <-]).
      apply Tracker_track_queue in Hstep as (Hq1 & _).
      rewrite Hq. simpl. f_equal. eapply IH; [done| |exact Hrun].
      by rewrite Hq1, Hq.
  - rewrite (track_calls_default_timesteps calls self self' w ts w'
               (track_window self)); [|by rewrite Hq|lia|done|done].
    rewrite Hq. simpl. apply list_fmap_ext. intros _ k _. lia.
Qed.

End Tracker_steps.

Lemma Tracker_track_default_timesteps_witness :
  let calls :=
    [([point_instance 1 0], None, None); ([], None, None);
     ([point_instance 3 2], None, None)] in
  ∃ r, track_calls no_flow (centroid_tracker 2 0) calls fresh_world = Some r ∧
       r.1.2 = [0; 1; 2].
Proof.
  intros calls.
  destruct (run_cases (track_calls no_flow (centroid_tracker 2 0) calls
                         fresh_world)) as [[[[self' ts] w'] Hrun]|Hrun].
  2:{ exfalso. revert Hrun. apply run_not_None. by vm_compute. }
  exists (self', ts, w'). split; [exact Hrun|].
  apply (Tracker_track_default_timesteps no_flow (centroid_tracker 2 0)
           self' calls fresh_world w' ts eq_refl); [|exact Hrun].
  repeat constructor.
Defined.

Lemma min_cost_assignment_elem_of a ms b :
  min_cost_assignment a ms = Some b → b ∈ ms.
Proof.
  revert b. induction ms as [|m ms IH]; intros b; [done|]. simpl.
  destruct (min_cost_assignment a ms) as [b'|].
  - case_match; intros [= <-]; [right; by apply IH|left].
  - intros [= <-]. left.
Qed.

Lemma linear_sum_assignment_matching a es :
  linear_sum_assignment a = Some es → matching es ∧ in_shape (shape a) es.
Proof.
  unfold linear_sum_assignment. case_match; [|done].
  intros Hes%min_cost_assignment_elem_of.
  apply assignments_sound in Hes as (_ & Hsub & Hin & Hnd); [|apply NoDup_seq].
  split; [split; [|done]|].
  - eapply sublist_NoDup; [apply NoDup_seq|exact Hsub].
  - intros e He. split.
    + assert (e.1 ∈ seq 0 (shape a).1) as H1.
      { eapply elem_of_sublist; [|exact Hsub]. by apply list_elem_of_fmap_2. }
      apply elem_of_seq in H1. lia.
    + apply Hin, elem_of_seq in He. lia.
Qed.

Lemma hungarian_matching_inv p w es w' :
  hungarian_matching p w = Some (es, w') →
  ∃ a, arrays w !! p = Some a ∧
       linear_sum_assignment (set_where isinf (Fin 0) a) = Some es.
Proof.
  unfold hungarian_matching, mbind, M_bind, read_array.
  destruct (arrays w !! p) as [a|] eqn:Ha; [|done]. simpl.
  rewrite lookup_insert_eq. unfold lift.
  destruct (linear_sum_assignment _) as [es'|] eqn:Hes; [|done].
  intros [= <- <-]. by exists a.
Qed.

Lemma call_greedy_matching_inv `{NpArgsort} p w es w' :
  call_greedy_matching p w = Some (es, w') →
  ∃ a, arrays w !! p = Some a ∧ es = greedy_matching a ∧ w' = w.
Proof.
  unfold call_greedy_matching, mbind, M_bind, read_array.
  destruct (arrays w !! p) as [a|] eqn:Ha; [|done].
  intros [= <- <-]. by exists a.
Qed.

(** Either solver uses each row at most once. *)
Lemma solver_rows_NoDup `{NpArgsort} (solver : nat → M (list edge)) p w es w' :
  solver = call_greedy_matching ∨ solver = hungarian_matching →
  solver p w = Some (es, w') → NoDup es.*1.
Proof.
  intros [-> | ->] Hrun.
  - apply call_greedy_matching_inv in Hrun as (a & _ & -> & _).
    apply greedy_loop_no_conflict.
  - apply hungarian_matching_inv in Hrun as (a & _ & Hes).
    by apply linear_sum_assignment_matching in Hes as [[? _] _].
Qed.

Lemma enumerate_from_lookup (u : list Instance) (i : nat) (p : nat * Instance) :
  p ∈ enumerate_from i u → (i ≤ p.1)%nat ∧ u !! (p.1 - i)%nat = Some p.2.
Proof.
  unfold enumerate_from. intros [j Hj]%list_elem_of_lookup.
  apply lookup_zip_with_Some in Hj as (k & d & -> & Hk & Hd).
  apply lookup_seq in Hk as [-> _]. simpl. split; [lia|].
  by replace (i + j - i)%nat with j by lia.
Qed.

Lemma enumerate_from_fst (u : list Instance) (i : nat) :
  (enumerate_from i u).*1 = seq i (length u).
Proof. unfold enumerate_from. apply fst_zip. by rewrite length_seq. Qed.

Section Tracker_outputs.

Context {Image : Type}.

Variable flow_shift_instances :
  list Instance → option Image → option Image → Z → fl → Z → Z →
  M (list Instance).

(** Every returned instance has the points of a detection of the call. *)
Lemma Tracker_track_out_points (self self' : @Tracker Image)
    (untracked_instances : list Instance) (img : option Image) (t : option Z)
    (w w' : world) (out : list Instance) (inst : Instance) :
  Tracker_track flow_shift_instances self untracked_instances img t w
  = Some ((self', out), w') →
  inst ∈ out →
  ∃ d, d ∈ untracked_instances ∧ points_array inst = points_array d.
Proof.
  rewrite Tracker_track_unfold. simpl.
  destruct (match_candidates _ _ _ _ _ _)
    as [[[[maker tracked] inds] w1]|] eqn:Hmatch; [|done].
  apply match_candidates_spec in Hmatch as [Hmatched _].
  destruct (spawn_tracks_spec (min_new_track_points self)
              (infer_timestep (track_matching_queue self) t) inds
              untracked_instances 0 (spawned_tracks self) tracked w1)
    as (nt & ni & w2 & -> & Hpts & _).
  intros [= <- <- <-] [Hin|Hin]%elem_of_app.
  - apply list_elem_of_lookup in Hin as [k Hk].
    destruct (Forall2_lookup_r _ _ _ _ _ Hmatched Hk)
      as (i & _ & d & Hd & Heq).
    exists d. split; [by eapply list_elem_of_lookup_2|done].
  - assert (points_array inst ∈ points_array <$> ni) as Hp
        by by apply list_elem_of_fmap_2.
    rewrite Hpts in Hp. apply list_elem_of_fmap in Hp as (p & Heq & Hp).
    apply list_elem_of_filter in Hp as [_ Hp].
    apply enumerate_from_lookup in Hp as [_ Hp].
    exists p.2. split; [by eapply list_elem_of_lookup_2|done].
Qed.

(** X6: the tracks a tracker spawns are named by their rank: if the names so
    far are 0, 1, ..., then after a call the list of spawned tracks is the old
    one followed by the tracks spawned in the call, all stamped with the
    timestep of the call, and the names are again 0, 1, ... without a gap or
    a repetition. *)
Theorem spawned_track_names (self self' : @Tracker Image)
    (untracked_instances : list Instance) (img : option Image) (t : option Z)
    (w w' : world) (out : list Instance) :
  name <$> spawned_tracks self = seq 0 (length (spawned_tracks self)) →
  Tracker_track flow_shift_instances self untracked_instances img t w
  = Some ((self', out), w') →
  (∃ new_tracks,
     spawned_tracks self' = spawned_tracks self ++ new_tracks ∧
     Forall (λ tr, spawned_on tr
                   = infer_timestep (track_matching_queue self) t)
            new_tracks) ∧
  name <$> spawned_tracks self' = seq 0 (length (spawned_tracks self')) ∧
  NoDup (name <$> spawned_tracks self').
Proof.
  intros Hnames. rewrite Tracker_track_unfold. simpl.
  destruct (match_candidates _ _ _ _ _ _)
    as [[[[maker tracked] inds] w1]|] eqn:Hmatch; [|done].
  destruct (spawn_tracks_spec (min_new_track_points self)
              (infer_timestep (track_matching_queue self) t) inds
              untracked_instances 0 (spawned_tracks self) tracked w1)
    as (nt & ni & w2 & -> & _ & _ & Hname & Hon & _).
  intros [= <- <- <-]. simpl.
  assert (name <$> spawned_tracks self ++ nt
          = seq 0 (length (spawned_tracks self ++ nt))) as Hall.
  { rewrite fmap_app, Hnames, Hname, length_app. by rewrite seq_app. }
  split_and!; [by exists nt|done|]. rewrite Hall. apply NoDup_seq.
Qed.

(** X7: with either solver of the module, every instance returned by a call
    comes from a detection of its own: the returned list is no longer than
    the list of detections, and no detection is both matched and spawned, or
    returned twice. *)
Theorem Tracker_track_one_output_per_detection `{NpArgsort}
    (self self' : @Tracker Image)
    (untracked_instances : list Instance) (img : option Image) (t : option Z)
    (w w' : world) (out : list Instance) :
  matching_function self = call_greedy_matching ∨
  matching_function self = hungarian_matching →
  Tracker_track flow_shift_instances self untracked_instances img t w
  = Some ((self', out), w') →
  ∃ sources : list nat,
    NoDup sources ∧
    Forall2 (λ i inst, ∃ d, untracked_instances !! i = Some d ∧
                            points_array inst = points_array d)
            sources out ∧
    (length out ≤ length untracked_instances)%nat.
Proof.
  intros Hsolver. rewrite Tracker_track_unfold. simpl.
  destruct (match_candidates _ _ _ _ _ _)
    as [[[[maker tracked] inds] w1]|] eqn:Hmatch; [|done].
  apply match_candidates_spec in Hmatch as [Hmatched Hinds].
  destruct (spawn_tracks_spec (min_new_track_points self)
              (infer_timestep (track_matching_queue self) t) inds
              untracked_instances 0 (spawned_tracks self) tracked w1)
    as (nt & ni & w2 & -> & Hpts & _).
  intros [= <- <- <-].
  set (kept := filter (spawnable (min_new_track_points self) inds)
                      (enumerate_from 0 untracked_instances)) in *.
  assert (NoDup inds) as Hnd.
  { destruct Hinds as [->|(cost & wa & ms & wb & Hrun & ->)]; [constructor|].
    by eapply solver_rows_NoDup. }
  assert (NoDup (inds ++ kept.*1)) as Hsources.
  { apply NoDup_app. split_and!; [done| |].
    - intros i Hi ([i' d] & -> & Hk)%list_elem_of_fmap.
      apply list_elem_of_filter in Hk as [[Hnot _] _]. by apply Hnot.
    - eapply sublist_NoDup; [|apply fmap_sublist, sublist_filter].
      rewrite enumerate_from_fst. apply NoDup_seq. }
  assert (Forall2 (λ i inst, ∃ d, untracked_instances !! i = Some d ∧
                                  points_array inst = points_array d)
                  (inds ++ kept.*1) (tracked ++ ni)) as Hall.
  { apply Forall2_app; [done|]. apply Forall2_fmap_l.
    assert (Forall (λ p, untracked_instances !! p.1 = Some p.2) kept) as Hk.
    { apply Forall_forall. intros p [_ Hp]%list_elem_of_filter.
      apply enumerate_from_lookup in Hp as [_ Hp].
      by rewrite Nat.sub_0_r in Hp. }
    clearbody kept. clear -Hpts Hk. revert ni Hpts.
    induction kept as [|p kept IH]; intros [|inst ni] Hpts;
      try done; try (by constructor).
    rewrite !fmap_cons in Hpts. injection Hpts as Hp Hpts.
    apply Forall_cons in Hk as [Hp1 Hk].
    constructor; [|by apply IH]. simpl. by exists p.2. }
  exists (inds ++ kept.*1). split_and!; [done|done|].
  rewrite <-(Forall2_length _ _ _ Hall).
  apply bounded_NoDup_length; [done|].
  intros i Hi. apply list_elem_of_lookup in Hi as [j Hj].
  destruct (Forall2_lookup_l _ _ _ _ _ Hall Hj) as (inst & _ & d & Hd & _).
  by apply lookup_lt_Some in Hd.
Qed.

End Tracker_outputs.

Lemma spawned_track_names_witness :
  ∃ r, Tracker_track no_flow (centroid_tracker 5 0)
         [point_instance 1 0; point_instance 2 9] None None fresh_world
       = Some r ∧
       name <$> spawned_tracks r.1.1 = seq 0 (length (spawned_tracks r.1.1)).
Proof.
  destruct (run_cases (Tracker_track no_flow (centroid_tracker 5 0)
                         [point_instance 1 0; point_instance 2 9] None None
                         fresh_world)) as [[[[self' out] w'] Hrun]|Hrun].
  2:{ exfalso. revert Hrun. apply run_not_None. by vm_compute. }
  exists (self', out, w'). split; [exact Hrun|].
  destruct (spawned_track_names no_flow (centroid_tracker 5 0) self'
              _ _ _ _ _ _ eq_refl Hrun) as (_ & Hnames & _).
  exact Hnames.
Defined.

Lemma Tracker_track_one_output_per_detection_witness :
  let d0 := point_instance 2 10 in
  let d1 := point_instance 3 1 in
  ∃ r, Tracker_track no_flow tracker_after_one_frame [d0; d1] None None
         fresh_world = Some r ∧
       (λ inst, (points_array inst, name <$> track inst)) <$> r.1.2
       = [(points_array d1, Some 0%nat); (points_array d0, Some 1%nat)] ∧
       ∃ sources : list nat,
         NoDup sources ∧
         Forall2 (λ i inst, ∃ d, [d0; d1] !! i = Some d ∧
                                 points_array inst = points_array d)
                 sources r.1.2.
Proof.
  intros d0 d1.
  destruct (run_cases (Tracker_track no_flow tracker_after_one_frame
                         [d0; d1] None None fresh_world))
    as [[[[self' out] w'] Hrun]|Hrun].
  2:{ exfalso. revert Hrun. apply run_not_None. by vm_compute. }
  exists (self', out, w'). split; [exact Hrun|]. split.
  { assert ((λ r : Tracker * list Instance * world,
               (λ inst, (points_array inst, name <$> track inst)) <$> r.1.2)
            <$> Tracker_track no_flow tracker_after_one_frame [d0; d1] None
                  None fresh_world
            = Some [(points_array d1, Some 0%nat);
                    (points_array d0, Some 1%nat)]) as Hout by by vm_compute.
    rewrite Hrun in Hout. by injection Hout. }
  destruct (@Tracker_track_one_output_per_detection unit no_flow
              stable_argsort tracker_after_one_frame self'
              _ _ _ _ _ _ (or_introl eq_refl) Hrun)
    as (sources & Hnd & Hall & _).
  by exists sources.
Defined.

(** ** A step with the module's own solvers returns *)

Lemma argmax_from_lt v : ∀ mp max_ind i,
  (max_ind < i)%nat → (argmax_from mp max_ind i v < i + length v)%nat.
Proof.
  induction v as [|x v IH]; intros mp max_ind i Hlt; simpl; [lia|].
  destruct (isnan mp); [lia|]. destruct (fl_leb x mp).
  - specialize (IH mp max_ind (S i)). lia.
  - specialize (IH x i (S i)). lia.
Qed.

Lemma np_argmax_lt v i : np_argmax v = Some i → (i < length v)%nat.
Proof.
  destruct v as [|x v]; [done|]. simpl. intros [= <-].
  pose proof (argmax_from_lt v x 0%nat 1%nat). lia.
Qed.

Lemma mapM_spec {A B} (f : A → M B) (P : A → B → Prop) (l : list A) :
  (∀ x w, x ∈ l → ∃ y w', f x w = Some (y, w') ∧ P x y) →
  ∀ w, ∃ ys w', mapM f l w = Some (ys, w') ∧ Forall2 P l ys.
Proof.
  induction l as [|x l IH]; intros Hf w; simpl.
  - exists [], w. split; [done|constructor].
  - destruct (Hf x w) as (y & w1 & Hy & HP); [left|].
    destruct (IH (λ x' w'' Hx', Hf x' w'' (list_elem_of_further _ _ _ Hx')) w1)
      as (ys & w2 & Hys & Hall).
    exists (y :: ys), w2. split; [|by constructor].
    apply bind_Some. exists y, w1. split; [done|].
    apply bind_Some. by exists ys, w2.
Qed.

Lemma best_candidate_returns (similarity : Instance → Instance → M fl)
    (untracked_instance : Instance) (track_instances : list Instance) w :
  (∀ b w0, b ∈ track_instances →
           is_Some (similarity untracked_instance b w0)) →
  track_instances ≠ [] →
  ∃ best s w',
    best_candidate similarity untracked_instance track_instances w
    = Some ((best, s), w') ∧ best ∈ track_instances.
Proof.
  intros Hsim Hne. unfold best_candidate.
  destruct (mapM_spec (similarity untracked_instance) (λ _ _, True)
              track_instances) with (w := w) as (sims & w1 & Hsims & Hall).
  { intros c w0 Hc. destruct (Hsim c w0 Hc) as [[s w'] Hs].
    by exists s, w'. }
  apply Forall2_length in Hall.
  destruct (np_argmax sims) as [i|] eqn:Hi.
  2:{ destruct sims; [|done]. by destruct track_instances. }
  pose proof (np_argmax_lt _ _ Hi) as Hlt.
  destruct (lookup_lt_is_Some_2 track_instances i) as [best Hbest]; [lia|].
  destruct (lookup_lt_is_Some_2 sims i) as [s Hs]; [lia|].
  exists best, s, w1. split; [|by eapply list_elem_of_lookup_2].
  apply bind_Some. exists sims, w1. split; [done|].
  apply bind_Some. exists i, w1. split; [by apply lift_Some; exists i|].
  apply bind_Some. exists best, w1. split; [by apply lift_Some; exists best|].
  apply bind_Some. exists s, w1. split; [by apply lift_Some; exists s|done].
Qed.

Lemma score_candidates_returns (similarity : Instance → Instance → M fl)
    (untracked_instances : list Instance)
    (by_track : list (option Track * list Instance)) w :
  (∀ a g b w0, a ∈ untracked_instances → g ∈ by_track → b ∈ g.2 →
               is_Some (similarity a b w0)) →
  (∀ g, g ∈ by_track → g.2 ≠ []) →
  ∃ scored w',
    score_candidates similarity untracked_instances by_track w
    = Some (scored, w') ∧
    Forall2 (λ _ row, Forall2 (λ (g : option Track * list Instance)
                                 (p : Instance * fl), p.1 ∈ g.2)
                              by_track row)
            untracked_instances scored.
Proof.
  intros Hsim Hne. unfold score_candidates. apply mapM_spec.
  intros d w0 Hd. apply mapM_spec. intros g w1 Hg.
  destruct (best_candidate_returns similarity d g.2 w1
              (λ b w2 Hb, Hsim d g b w2 Hd Hg Hb) (Hne g Hg))
    as (best & s & w2 & Hrun & Hbest).
  by exists (best, s), w2.
Qed.

Lemma concat_length_uniform {A} (rows : list (list A)) (k : nat) :
  Forall (λ row, length row = k) rows →
  length (concat rows) = (length rows * k)%nat.
Proof.
  induction 1 as [|row rows Hrow _ IH]; [done|].
  simpl. rewrite length_app, IH, Hrow. lia.
Qed.

Lemma cost_array_no_nan (sims : ndarray) :
  forallb (λ x, negb (isnan x))
    (data (set_where isnan PInf (ndarray_map fl_neg sims))) = true.
Proof.
  simpl. induction (data sims) as [|x l IH]; [done|].
  rewrite !fmap_cons. simpl. rewrite IH. by destruct x.
Qed.

(** On a well-shaped array without NaN, either solver returns cells of the
    array. *)
Lemma solver_returns `{NpArgsort} (solver : nat → M (list edge)) p w a :
  solver = call_greedy_matching ∨ solver = hungarian_matching →
  arrays w !! p = Some a → well_shaped a →
  forallb (λ x, negb (isnan x)) (data a) = true →
  ∃ es w', solver p w = Some (es, w') ∧ in_shape (shape a) es.
Proof.
  intros [-> | ->] Hp Hwf Hnan.
  - exists (greedy_matching a), w. split.
    + unfold call_greedy_matching, mbind, M_bind, read_array. by rewrite Hp.
    + by apply greedy_matching_full.
  - rewrite (hungarian_matching_unfold p w a Hp).
    destruct (linear_sum_assignment_spec (set_where isinf (Fin 0) a))
      as (es & -> & _ & Hin & _).
    { by apply set_where_well_shaped. }
    { by apply set_where_isinf_finite. }
    by eexists _, _.
Qed.

Lemma bind_is_Some {A B} (m : M A) (f : A → M B) w x w1 :
  m w = Some (x, w1) → is_Some (f x w1) → is_Some ((m ≫= f) w).
Proof.
  intros Hm [r Hr]. exists r. apply bind_Some. by exists x, w1.
Qed.

Lemma new_array_spec (a : ndarray) (w : world) :
  new_array a w
  = Some (next_oid w,
          mk_world (S (next_oid w)) (<[next_oid w := a]> (arrays w))
                   (centroid_cache w) (iou_cache w)).
Proof. done. Qed.

Lemma assign_match_returns (u : list Instance) (scored : list (list (Instance * fl)))
    (k : nat) (e : edge) (w : world) :
  Forall2 (λ _ row, length row = k) u scored →
  (e.1 < length u)%nat → (e.2 < k)%nat →
  is_Some (assign_match u ((λ row : list (Instance * fl), row.*1) <$> scored)
             (mk_ndarray (length u, k)
                (concat ((λ row : list (Instance * fl), row.*2) <$> scored)))
             e w).
Proof.
  intros Hrows H1 H2.
  pose proof (Forall2_length _ _ _ Hrows) as Hlen.
  destruct (lookup_lt_is_Some_2 u e.1 H1) as [d Hd].
  destruct (lookup_lt_is_Some_2 scored e.1) as [row Hrow]; [lia|].
  assert (length row = k) as Hk.
  { by destruct (Forall2_lookup_r _ _ _ _ _ Hrows Hrow) as (? & _ & ?). }
  destruct (lookup_lt_is_Some_2 row e.2) as [[c s] Hc]; [lia|].
  assert (length (concat ((λ row : list (Instance * fl), row.*2) <$> scored))
          = (length u * k)%nat) as Hdata.
  { rewrite (concat_length_uniform _ k); [by rewrite length_fmap, Hlen|].
    apply Forall_fmap, Forall_forall. intros r Hr. simpl.
    rewrite length_fmap. apply list_elem_of_lookup in Hr as [i Hi].
    by destruct (Forall2_lookup_r _ _ _ _ _ Hrows Hi) as (? & _ & ?). }
  destruct (lookup_lt_is_Some_2
              (concat ((λ row : list (Instance * fl), row.*2) <$> scored))
              (e.1 * k + e.2)) as [x Hx]; [rewrite Hdata; nia|].
  unfold assign_match.
  eapply bind_is_Some; [by apply lift_Some; exists d|].
  eapply bind_is_Some.
  { apply lift_Some. exists c. split; [|done].
    rewrite list_lookup_fmap, Hrow. simpl. by rewrite list_lookup_fmap, Hc. }
  eapply bind_is_Some.
  { apply lift_Some. exists x. split; [|done].
    unfold ndarray_get. simpl. by rewrite bool_decide_eq_true_2. }
  by eexists.
Qed.

Section Tracker_returns.

Context {Image : Type}.

Variable flow_shift_instances :
  list Instance → option Image → option Image → Z → fl → Z → Z →
  M (list Instance).

Lemma match_candidates_returns `{NpArgsort} (self : @Tracker Image)
    (u : list Instance) (img : option Image) (t : Z) (w : world)
    maker cands w1 :
  matching_function self = call_greedy_matching ∨
  matching_function self = hungarian_matching →
  get_candidates flow_shift_instances (candidate_maker self)
    (items (track_matching_queue self)) t img w = Some ((maker, cands), w1) →
  (∀ a b w0, a ∈ u → b ∈ cands →
             is_Some (similarity_function self a b w0)) →
  is_Some (match_candidates flow_shift_instances self u img t w).
Proof.
  intros Hsolver Hget Hsim. unfold match_candidates.
  case_bool_decide as Hu; [|by eexists].
  eapply bind_is_Some; [exact Hget|]. cbv beta iota.
  case_bool_decide as Hc; [|by eexists].
  set (by_track := group_by_track cands).
  destruct (score_candidates_returns (similarity_function self) u by_track w1)
    as (scored & w2 & Hscored & Hshape).
  { intros a [k g] b w0 Ha Hg Hb. apply Hsim; [done|].
    apply group_by_track_groups in Hg as [_ Hg]. simpl in Hb.
    rewrite Hg in Hb. by apply list_elem_of_filter in Hb as [_ ?]. }
  { intros [k g] Hg. by apply group_by_track_groups in Hg as [? _]. }
  eapply bind_is_Some; [exact Hscored|].
  assert (Forall2 (λ _ row, length row = length by_track) u scored) as Hrows.
  { eapply Forall2_impl; [exact Hshape|]. intros d row Hrow.
    by apply Forall2_length in Hrow. }
  pose proof (Forall2_length _ _ _ Hrows) as Hlen.
  set (sims := mk_ndarray (length u, length by_track)
                 (concat ((λ row : list (Instance * fl), row.*2) <$> scored))).
  eapply bind_is_Some; [apply new_array_spec|].
  destruct (solver_returns (matching_function self) (next_oid w2)
              (mk_world (S (next_oid w2))
                 (<[next_oid w2 := set_where isnan PInf
                                     (ndarray_map fl_neg sims)]> (arrays w2))
                 (centroid_cache w2) (iou_cache w2))
              (set_where isnan PInf (ndarray_map fl_neg sims)))
    as (es & w3 & Hes & Hin); [done|apply lookup_insert_eq| |apply cost_array_no_nan|].
  { unfold well_shaped. simpl. rewrite !length_fmap.
    rewrite (concat_length_uniform _ (length by_track));
      [by rewrite length_fmap, Hlen|].
    apply Forall_fmap, Forall_forall. intros r Hr. simpl.
    rewrite length_fmap. apply list_elem_of_lookup in Hr as [i Hi].
    by destruct (Forall2_lookup_r _ _ _ _ _ Hrows Hi) as (? & _ & ?). }
  eapply bind_is_Some; [exact Hes|].
  destruct (mapM_spec
              (assign_match u ((λ row : list (Instance * fl), row.*1) <$> scored)
                 sims)
              (λ _ _, True) es) with (w := w3) as (tracked & w4 & Htr & _).
  { intros e w0 He. destruct (Hin e He) as [H1 H2]. simpl in H1, H2.
    destruct (assign_match_returns u scored (length by_track) e w0 Hrows H1 H2)
      as [[inst w'] Hrun].
    by exists inst, w'. }
  eapply bind_is_Some; [exact Htr|]. by eexists.
Qed.

Lemma Tracker_track_is_Some `{NpArgsort} (self : @Tracker Image)
    (untracked_instances : list Instance) (img : option Image) (t : option Z)
    (w : world) maker cands w1 :
  matching_function self = call_greedy_matching ∨
  matching_function self = hungarian_matching →
  get_candidates flow_shift_instances (candidate_maker self)
    (items (track_matching_queue self))
    (infer_timestep (track_matching_queue self) t) img w
  = Some ((maker, cands), w1) →
  (∀ a b w0, a ∈ untracked_instances → b ∈ cands →
             is_Some (similarity_function self a b w0)) →
  is_Some (Tracker_track flow_shift_instances self untracked_instances img t w).
Proof.
  intros Hsolver Hcand Hsim. rewrite Tracker_track_unfold. simpl.
  destruct (match_candidates_returns self untracked_instances img
              (infer_timestep (track_matching_queue self) t) w _ _ _
              Hsolver Hcand Hsim) as [[[[maker' tracked] inds] w2] ->].
  destruct (spawn_tracks_spec (min_new_track_points self)
              (infer_timestep (track_matching_queue self) t) inds
              untracked_instances 0 (spawned_tracks self) tracked w2)
    as (nt & ni & w3 & -> & _).
  by eexists.
Qed.

(** X8: a call to track returns (raises no IndexError or ValueError) whenever
    the matching function is one of the two solvers of the module, the
    candidate maker returns and the similarity function returns on each
    detection with each candidate: the cost array it builds is rectangular
    and free of NaN, every group of candidates is non-empty, and every pair
    the solver returns indexes a detection and a track. *)
Theorem Tracker_track_returns `{NpArgsort} (self : @Tracker Image)
    (untracked_instances : list Instance) (img : option Image) (t : option Z)
    (w : world) (maker : CandidateMaker) (candidate_instances : list Instance)
    (w1 : world) :
  matching_function self = call_greedy_matching ∨
  matching_function self = hungarian_matching →
  get_candidates flow_shift_instances (candidate_maker self)
    (items (track_matching_queue self))
    (infer_timestep (track_matching_queue self) t) img w
  = Some ((maker, candidate_instances), w1) →
  (∀ a b w0, a ∈ untracked_instances → b ∈ candidate_instances →
             is_Some (similarity_function self a b w0)) →
  is_Some (Tracker_track flow_shift_instances self untracked_instances img t w).
Proof. apply Tracker_track_is_Some. Qed.

End Tracker_returns.

Lemma Tracker_track_returns_witness :
  is_Some (Tracker_track no_flow tracker_after_one_frame
             [point_instance 2 10; point_instance 3 1] None None fresh_world).
Proof.
  apply (@Tracker_track_returns unit no_flow stable_argsort
           tracker_after_one_frame _ None None fresh_world (Simple 0)
           [mk_Instance 1 [(dbl 0, dbl 0)] (Some (mk_Track 50 0 0)) (dbl 0)]
           fresh_world).
  - left. reflexivity.
  - reflexivity.
  - intros a b w0 _ _. simpl. rewrite centroid_distance_spec. by eexists.
Defined.

Section SimpleTracker_returns.

Context {Image : Type}.

Variable compute_iou : fl * fl * fl * fl → fl * fl * fl * fl → fl.

Variable flow_shift_instances :
  list Instance → option Image → option Image → Z → fl → Z → Z →
  M (list Instance).

(** A tracker configured as [SimpleTracker] is. *)
Definition simple_configuration (self : @Tracker Image) : Prop :=
  similarity_function self = instance_iou compute_iou ∧
  matching_function self = hungarian_matching ∧
  ∃ min_points, candidate_maker self = Simple min_points.

Lemma simple_configuration_step (self self' : @Tracker Image) u img t w out w' :
  simple_configuration self →
  Tracker_track flow_shift_instances self u img t w = Some ((self', out), w') →
  simple_configuration self'.
Proof.
  intros (Hsim & Hsolve & m & Hmaker) Hrun.
  pose proof (Tracker_track_queue _ _ _ _ _ _ _ _ _ Hrun)
    as (_ & _ & Hsim' & Hsolve' & _).
  split_and!; [congruence|congruence|]. exists m.
  rewrite Tracker_track_unfold in Hrun. simpl in Hrun.
  destruct (match_candidates _ _ _ _ _ _)
    as [[[[maker tracked] inds] w1]|] eqn:Hmatch; [|done].
  destruct (spawn_tracks _ _ _ _ _ _ _ _) as [[[spawned out'] w2]|]; [|done].
  injection Hrun as <- _ _. simpl.
  unfold match_candidates in Hmatch. rewrite Hmaker in Hmatch.
  case_bool_decide; [|by injection Hmatch as <- _ _ _].
  apply bind_Some in Hmatch as ([maker' cands] & w3 & [= <- <- <-] & Hrest).
  case_bool_decide; [|by injection Hrest as <- _ _ _].
  apply bind_Some in Hrest as (? & ? & _ & Hrest).
  apply bind_Some in Hrest as (? & ? & _ & Hrest).
  apply bind_Some in Hrest as (? & ? & _ & Hrest).
  by apply bind_Some in Hrest as (? & ? & _ & [= <- _ _ _]).
Qed.

(** Every instance in the queue has at least one node. *)
Definition queue_has_nodes (self : @Tracker Image) : Prop :=
  ∀ item inst,
    item ∈ items (track_matching_queue self) → inst ∈ instances_t item →
    points_array inst ≠ [].

Lemma bounding_box_used_is_Some (cache : gmap nat (fl * fl * fl * fl))
    (inst : Instance) :
  points_array inst ≠ [] → is_Some (bounding_box_used cache inst).
Proof.
  intros Hne. unfold bounding_box_used, bounding_box.
  destruct (cache !! oid inst); [by eexists|].
  destruct (points_array inst); [done|by eexists].
Qed.

Lemma instance_iou_returns (a b : Instance) (w : world) :
  points_array a ≠ [] → points_array b ≠ [] →
  is_Some (instance_iou compute_iou a b w).
Proof.
  intros Ha Hb. rewrite instance_iou_spec.
  destruct (bounding_box_used_is_Some (iou_cache w) a Ha) as [x ->].
  cbv zeta.
  destruct (bounding_box_used_is_Some
              (<[oid a := x]> (iou_cache w)) b Hb) as [y ->].
  by eexists.
Qed.

(** A step of a tracker configured as [SimpleTracker] returns when the
    detections and the queued instances have nodes, and leaves a queue of
    instances with nodes. *)
Lemma simple_step_returns (self : @Tracker Image) u img t w :
  simple_configuration self → queue_has_nodes self →
  Forall (λ d, points_array d ≠ []) u →
  ∃ self' out w',
    Tracker_track flow_shift_instances self u img t w
    = Some ((self', out), w') ∧
    queue_has_nodes self'.
Proof.
  intros Hconf Hq Hu.
  destruct Hconf as (Hsim & Hsolve & m & Hmaker).
  destruct (Tracker_track_is_Some (H:=stable_argsort) flow_shift_instances
              self u img t w (Simple m)
              (simple_get_candidates m (items (track_matching_queue self))) w)
    as [[[self' out] w'] Hstep].
  - by right.
  - by rewrite Hmaker.
  - intros a b w0 Ha Hb. rewrite Hsim. apply instance_iou_returns.
    + by eapply Forall_forall in Hu.
    + unfold simple_get_candidates in Hb.
      apply list_elem_of_bind in Hb as (item & Hb & Hitem).
      apply list_elem_of_filter in Hb as [_ Hb]. by eapply Hq.
  - exists self', out, w'. split; [done|].
    intros item inst Hitem Hinst.
    pose proof (Tracker_track_queue _ _ _ _ _ _ _ _ _ Hstep) as (Hq' & _).
    rewrite Hq' in Hitem.
    apply deque_append_elem_of in Hitem as [Hitem | ->]; [by eapply Hq|].
    simpl in Hinst.
    destruct (Tracker_track_out_points _ _ _ _ _ _ _ _ _ _ Hstep Hinst)
      as (d & Hd & ->).
    by eapply Forall_forall in Hu.
Qed.

(** X9: a [SimpleTracker] never raises on detections that have at least one
    node each: whatever the images and timesteps of a sequence of calls, and
    whatever the process state at the start, every call returns.  (On a
    detection with no node the IoU scorer raises, numpy refusing to reduce an
    empty array.) *)
Theorem SimpleTracker_never_raises (track_window : nat)
    (min_new_track_points : Z)
    (calls : list (list Instance * option Image * option Z)) (w : world) :
  Forall (λ c, Forall (λ d, points_array d ≠ []) c.1.1) calls →
  is_Some (track_calls flow_shift_instances
             (SimpleTracker compute_iou track_window min_new_track_points)
             calls w).
Proof.
  assert (simple_configuration
            (SimpleTracker compute_iou track_window min_new_track_points))
    as Hconf by (split_and!; [done|done|by exists 0]).
  assert (queue_has_nodes
            (SimpleTracker compute_iou track_window min_new_track_points))
    as Hq by (by intros item inst ?%elem_of_nil).
  revert Hconf Hq.
  generalize (SimpleTracker (Image:=Image) compute_iou track_window
                min_new_track_points).
  intros self. revert self w.
  induction calls as [|[[u img] t] calls IH]; intros self w Hconf Hq Hcalls;
    cbn [track_calls]; [by eexists|].
  apply Forall_cons in Hcalls as [Hu Hcalls]. simpl in Hu.
  destruct (simple_step_returns self u img t w Hconf Hq Hu)
    as (self1 & out & w1 & Hstep & Hq1).
  eapply bind_is_Some; [exact Hstep|]. cbv beta iota.
  destruct (IH self1 w1) as [[[self2 ts] w2] Hrest];
    [by eapply simple_configuration_step|done|done|].
  eapply bind_is_Some; [exact Hrest|]. by eexists.
Qed.

End SimpleTracker_returns.

Lemma SimpleTracker_never_raises_witness :
  is_Some (track_calls no_flow
             (SimpleTracker (Image:=unit) (λ _ _, dbl 0) 5 0)
             [([point_instance 1 0; point_instance 2 9], None, None);
              ([point_instance 3 1], None, None)]
             fresh_world).
Proof.
  apply (SimpleTracker_never_raises (λ _ _, dbl 0) no_flow 5 0).
  repeat constructor; done.
Defined.

(** ** The tracks of the returned instances *)

Lemma best_candidate_elem_of (similarity : Instance → Instance → M fl)
    (d : Instance) (group : list Instance) w best s w' :
  best_candidate similarity d group w = Some ((best, s), w') → best ∈ group.
Proof.
  unfold best_candidate.
  intros (sims & w1 & _ & Hrest)%bind_Some.
  apply bind_Some in Hrest as (i & w2 & _ & Hrest).
  apply bind_Some in Hrest as (c & w3 & (c' & Hc & [= <- <-])%lift_Some & Hrest).
  apply bind_Some in Hrest as (x & w4 & _ & [= <- _ _]).
  by eapply list_elem_of_lookup_2.
Qed.

Lemma assign_match_track (u : list Instance) mc ms (e : edge) w inst w' :
  assign_match u mc ms e w = Some (inst, w') →
  ∃ row ref, mc !! e.1 = Some row ∧ row !! e.2 = Some ref ∧
             track inst = track ref.
Proof.
  unfold assign_match.
  intros (d & w1 & _ & Hrest)%bind_Some.
  apply bind_Some in Hrest
    as (c & w2 & (c' & Hc & [= <- <-])%lift_Some & Hrest).
  apply bind_Some in Hrest as (s & w3 & _ & Hrest).
  unfold evolve in Hrest.
  apply bind_Some in Hrest as (o & w4 & _ & [= <- _]).
  destruct (mc !! e.1) as [row|] eqn:Hrow; [|done]. simpl in Hc.
  by exists row, c.
Qed.

Section Tracker_tracks.

Context {Image : Type}.

Variable flow_shift_instances :
  list Instance → option Image → option Image → Z → fl → Z → Z →
  M (list Instance).

(** A matched detection takes the track of one of the candidates. *)
Lemma match_candidates_tracks (self : @Tracker Image) u img t w
    maker tracked inds w1 inst :
  match_candidates flow_shift_instances self u img t w
  = Some ((maker, tracked, inds), w1) →
  inst ∈ tracked →
  ∃ maker' cands w2 c,
    get_candidates flow_shift_instances (candidate_maker self)
      (items (track_matching_queue self)) t img w
    = Some ((maker', cands), w2) ∧
    c ∈ cands ∧ track inst = track c.
Proof.
  unfold match_candidates. case_bool_decide as Hu.
  2:{ intros [= <- <- <- <-]. by intros ?%elem_of_nil. }
  intros ([maker' cands] & w2 & Hcands & Hrest)%bind_Some.
  case_bool_decide as Hc.
  2:{ injection Hrest as <- <- <- <-. by intros ?%elem_of_nil. }
  apply bind_Some in Hrest as (scored & w3 & Hscored & Hrest).
  apply bind_Some in Hrest as (cost & w4 & _ & Hrest).
  apply bind_Some in Hrest as (matches & w5 & _ & Hrest).
  apply bind_Some in Hrest as (tr & w6 & Htr & [= <- <- <- <-]).
  intros Hinst. exists maker', cands, w2.
  apply mapM_Forall2 in Htr.
  apply list_elem_of_lookup in Hinst as [k Hk].
  destruct (Forall2_lookup_r _ _ _ _ _ Htr Hk) as (e & _ & wa & wb & Hassign).
  apply assign_match_track in Hassign as (row & ref & Hrow & Href & Htrack).
  rewrite list_lookup_fmap in Hrow.
  destruct (scored !! e.1) as [srow|] eqn:Hsrow; [|done].
  injection Hrow as <-. rewrite list_lookup_fmap in Href.
  destruct (srow !! e.2) as [[c s]|] eqn:Hcs; [|done].
  injection Href as <-. exists c. split_and!; [done| |done].
  unfold score_candidates in Hscored. apply mapM_Forall2 in Hscored.
  destruct (Forall2_lookup_r _ _ _ _ _ Hscored Hsrow)
    as (d & _ & wc & wd & Hinner).
  apply mapM_Forall2 in Hinner.
  destruct (Forall2_lookup_r _ _ _ _ _ Hinner Hcs)
    as ([key group] & Hgroup & we & wf & Hbest).
  apply best_candidate_elem_of in Hbest. simpl in Hbest.
  apply list_elem_of_lookup_2, group_by_track_groups in Hgroup as [_ ->].
  by apply list_elem_of_filter in Hbest as [_ ?].
Qed.

(** Every instance in the queue carries a track this tracker spawned. *)
Definition queue_tracks_spawned (self : @Tracker Image) : Prop :=
  ∀ item inst,
    item ∈ items (track_matching_queue self) → inst ∈ instances_t item →
    ∃ tr, track inst = Some tr ∧ tr ∈ spawned_tracks self.

(** Whatever the candidate maker, if it only offers candidates that carry the
    track of an instance of the queue, the tracks of the returned instances
    are spawned tracks, before the call and after. *)
Lemma Tracker_track_tracks_from_queue (self self' : @Tracker Image)
    (untracked_instances : list Instance) (img : option Image) (t : option Z)
    (w w' : world) (out : list Instance) :
  (∀ maker' cands w2 c,
     get_candidates flow_shift_instances (candidate_maker self)
       (items (track_matching_queue self))
       (infer_timestep (track_matching_queue self) t) img w
     = Some ((maker', cands), w2) →
     c ∈ cands →
     ∃ item ref, item ∈ items (track_matching_queue self) ∧
                 ref ∈ instances_t item ∧ track c = track ref) →
  queue_tracks_spawned self →
  Tracker_track flow_shift_instances self untracked_instances img t w
  = Some ((self', out), w') →
  (∀ inst, inst ∈ out →
           ∃ tr, track inst = Some tr ∧ tr ∈ spawned_tracks self') ∧
  queue_tracks_spawned self'.
Proof.
  intros Hcands Hinv. rewrite Tracker_track_unfold. simpl.
  destruct (match_candidates _ _ _ _ _ _)
    as [[[[maker tracked] inds] w1]|] eqn:Hmatch; [|done].
  destruct (spawn_tracks_spec (min_new_track_points self)
              (infer_timestep (track_matching_queue self) t) inds
              untracked_instances 0 (spawned_tracks self) tracked w1)
    as (nt & ni & w2 & -> & _ & Htr & _).
  intros [= <- <- <-].
  assert (∀ inst, inst ∈ tracked ++ ni →
            ∃ tr, track inst = Some tr ∧ tr ∈ spawned_tracks self ++ nt)
    as Hout.
  { intros inst [Hin|Hin]%elem_of_app.
    - destruct (match_candidates_tracks _ _ _ _ _ _ _ _ _ _ Hmatch Hin)
        as (maker' & cands & w3 & c & Hget & Hc & ->).
      destruct (Hcands _ _ _ _ Hget Hc) as (item & ref & Hitem & Href & ->).
      destruct (Hinv item ref Hitem Href) as (tr & ? & ?).
      exists tr. split; [done|]. apply elem_of_app. by left.
    - assert (track inst ∈ track <$> ni) as Hin'
        by by apply list_elem_of_fmap_2.
      rewrite Htr in Hin'. apply list_elem_of_fmap in Hin' as (tr & -> & ?).
      exists tr. split; [done|]. apply elem_of_app. by right. }
  split; [done|].
  intros item inst Hitem Hinst. simpl in *.
  apply deque_append_elem_of in Hitem as [Hitem| ->].
  - destruct (Hinv item inst Hitem Hinst) as (tr & ? & ?).
    exists tr. split; [done|]. apply elem_of_app. by left.
  - by apply Hout.
Qed.

(** X10: with the simple candidate maker, every instance a call returns
    carries a track, and that track is one the tracker itself spawned, in
    this call or an earlier one; the same then holds of every instance kept
    in the queue, so it holds call after call from a new tracker on. *)
Theorem Tracker_track_output_tracks (self self' : @Tracker Image)
    (min_points : Z)
    (untracked_instances : list Instance) (img : option Image) (t : option Z)
    (w w' : world) (out : list Instance) :
  candidate_maker self = Simple min_points →
  queue_tracks_spawned self →
  Tracker_track flow_shift_instances self untracked_instances img t w
  = Some ((self', out), w') →
  (∀ inst, inst ∈ out →
           ∃ tr, track inst = Some tr ∧ tr ∈ spawned_tracks self') ∧
  queue_tracks_spawned self'.
Proof.
  intros Hmaker. apply Tracker_track_tracks_from_queue.
  intros maker' cands w2 c Hget Hc.
  rewrite Hmaker in Hget. injection Hget as _ <- _.
  unfold simple_get_candidates in Hc.
  apply list_elem_of_bind in Hc as (item & Hc & Hitem).
  apply list_elem_of_filter in Hc as [_ Hc].
  by exists item, c.
Qed.

End Tracker_tracks.

Lemma Tracker_track_output_tracks_witness :
  let d0 := point_instance 2 10 in
  let d1 := point_instance 3 1 in
  ∃ r, Tracker_track no_flow tracker_after_one_frame [d0; d1] None None
         fresh_world = Some r ∧
       (λ inst, (points_array inst, name <$> track inst)) <$> r.1.2
       = [(points_array d1, Some 0%nat); (points_array d0, Some 1%nat)] ∧
       ∀ inst, inst ∈ r.1.2 →
               ∃ tr, track inst = Some tr ∧ tr ∈ spawned_tracks r.1.1.
Proof.
  intros d0 d1.
  destruct (run_cases (Tracker_track no_flow tracker_after_one_frame
                         [d0; d1] None None fresh_world))
    as [[[[self' out] w'] Hrun]|Hrun].
  2:{ exfalso. revert Hrun. apply run_not_None. by vm_compute. }
  exists (self', out, w'). split; [exact Hrun|]. split.
  { assert ((λ r : Tracker * list Instance * world,
               (λ inst, (points_array inst, name <$> track inst)) <$> r.1.2)
            <$> Tracker_track no_flow tracker_after_one_frame [d0; d1] None
                  None fresh_world
            = Some [(points_array d1, Some 0%nat);
                    (points_array d0, Some 1%nat)]) as Hout by by vm_compute.
    rewrite Hrun in Hout. by injection Hout. }
  assert (queue_tracks_spawned tracker_after_one_frame) as Hinv.
  { intros item inst Hitem Hinst. simpl in Hitem.
    apply list_elem_of_singleton in Hitem. subst item. simpl in Hinst.
    apply list_elem_of_singleton in Hinst. subst inst.
    eexists. split; [reflexivity|]. simpl. apply list_elem_of_singleton.
    reflexivity. }
  destruct (Tracker_track_output_tracks no_flow tracker_after_one_frame self'
              0 _ _ _ _ _ _ eq_refl Hinv Hrun) as [Hout _].
  exact Hout.
Defined.

(** ** Bounding boxes *)

Lemma fl_leb_refl x : isnan x = false → fl_leb x x = true.
Proof.
  destruct x; simpl; try done. intros _.
  rewrite bool_decide_eq_false_2; [done|lia].
Qed.

Lemma fl_leb_trans a b c : fl_leb a b = true → fl_leb b c = true → fl_leb a c = true.
Proof.
  destruct a, b, c; simpl; try done.
  rewrite !negb_true_iff, !bool_decide_eq_false. lia.
Qed.

Lemma fl_ltb_leb a b : fl_ltb a b = true → fl_leb a b = true.
Proof.
  destruct a, b; simpl; try done.
  rewrite negb_true_iff, bool_decide_eq_true, bool_decide_eq_false. lia.
Qed.

Lemma fl_not_ltb_leb a b :
  isnan a = false → isnan b = false → fl_ltb a b = false → fl_leb b a = true.
Proof. destruct a, b; simpl; try done. by intros _ _ ->. Qed.

Lemma nanmin_spec (v : list fl) :
  (isnan (nanmin v) = true ∧ ∀ x, x ∈ v → isnan x = true) ∨
  (isnan (nanmin v) = false ∧ nanmin v ∈ v ∧
   ∀ x, x ∈ v → isnan x = false → fl_leb (nanmin v) x = true).
Proof.
  induction v as [|x v IH]; simpl.
  - left. split; [done|]. by intros x ?%elem_of_nil.
  - fold (nanmin v). destruct (isnan x) eqn:Hx.
    + destruct IH as [[Hm Hall]|(Hm & Hin & Hle)].
      * left. split; [done|]. by intros y [->|?]%elem_of_cons; auto.
      * right. split_and!; [done|by right|].
        intros y [->|?]%elem_of_cons ?; [congruence|by apply Hle].
    + right. destruct IH as [[Hm Hall]|(Hm & Hin & Hle)].
      * rewrite Hm. split_and!; [done|left|].
        intros y [->|Hy]%elem_of_cons Hny; [by apply fl_leb_refl|].
        apply Hall in Hy. congruence.
      * rewrite Hm. destruct (fl_ltb x (nanmin v)) eqn:Hlt.
        -- split_and!; [done|left|].
           intros y [->|Hy]%elem_of_cons Hny; [by apply fl_leb_refl|].
           eapply fl_leb_trans; [by apply fl_ltb_leb|by apply Hle].
        -- split_and!; [done|by right|].
           intros y [->|Hy]%elem_of_cons Hny; [|by apply Hle].
           by apply fl_not_ltb_leb.
Qed.

Lemma nanmax_spec (v : list fl) :
  (isnan (nanmax v) = true ∧ ∀ x, x ∈ v → isnan x = true) ∨
  (isnan (nanmax v) = false ∧ nanmax v ∈ v ∧
   ∀ x, x ∈ v → isnan x = false → fl_leb x (nanmax v) = true).
Proof.
  induction v as [|x v IH]; simpl.
  - left. split; [done|]. by intros x ?%elem_of_nil.
  - fold (nanmax v). destruct (isnan x) eqn:Hx.
    + destruct IH as [[Hm Hall]|(Hm & Hin & Hle)].
      * left. split; [done|]. by intros y [->|?]%elem_of_cons; auto.
      * right. split_and!; [done|by right|].
        intros y [->|?]%elem_of_cons ?; [congruence|by apply Hle].
    + right. destruct IH as [[Hm Hall]|(Hm & Hin & Hle)].
      * rewrite Hm. split_and!; [done|left|].
        intros y [->|Hy]%elem_of_cons Hny; [by apply fl_leb_refl|].
        apply Hall in Hy. congruence.
      * rewrite Hm. destruct (fl_ltb (nanmax v) x) eqn:Hlt.
        -- split_and!; [done|left|].
           intros y [->|Hy]%elem_of_cons Hny; [by apply fl_leb_refl|].
           eapply fl_leb_trans; [by apply Hle|by apply fl_ltb_leb].
        -- split_and!; [done|by right|].
           intros y [->|Hy]%elem_of_cons Hny; [|by apply Hle].
           by apply fl_not_ltb_leb.
Qed.

(** X11: the bounding box (min y, min x, max y, max x) of an instance encloses
    every coordinate that is not missing, axis by axis: a visible abscissa
    lies between min x and max x, a visible ordinate between min y and max y,
    and the bounds are themselves coordinates of the instance.  Along an axis
    on which every coordinate is missing both bounds are NaN.  The instance
    has at least one node (numpy refuses to reduce an empty array). *)
Theorem bounding_box_encloses (inst : Instance) :
  points_array inst ≠ [] →
  ∃ ymin xmin ymax xmax,
  bounding_box inst = Some (ymin, xmin, ymax, xmax) ∧
  (∀ p, p ∈ points_array inst →
     (isnan p.1 = false → fl_leb xmin p.1 = true ∧ fl_leb p.1 xmax = true) ∧
     (isnan p.2 = false → fl_leb ymin p.2 = true ∧ fl_leb p.2 ymax = true)) ∧
  ((∀ p, p ∈ points_array inst → isnan p.1 = true) → xmin = NaN ∧ xmax = NaN) ∧
  ((∀ p, p ∈ points_array inst → isnan p.2 = true) → ymin = NaN ∧ ymax = NaN) ∧
  (isnan xmin = false → xmin ∈ (points_array inst).*1 ∧
                         xmax ∈ (points_array inst).*1) ∧
  (isnan ymin = false → ymin ∈ (points_array inst).*2 ∧
                         ymax ∈ (points_array inst).*2).
Proof.
  intros Hne.
  exists (nanmin (points_array inst).*2), (nanmin (points_array inst).*1),
    (nanmax (points_array inst).*2), (nanmax (points_array inst).*1).
  split; [unfold bounding_box; by destruct (points_array inst)|].
  set (xs := (points_array inst).*1). set (ys := (points_array inst).*2).
  assert (∀ v, (∀ x, x ∈ v → isnan x = true) → nanmin v = NaN ∧ nanmax v = NaN)
    as Hmissing.
  { intros v Hall. split.
    - destruct (nanmin_spec v) as [[Hm _]|(Hm & Hin & _)];
        [by destruct (nanmin v)|]. apply Hall in Hin. congruence.
    - destruct (nanmax_spec v) as [[Hm _]|(Hm & Hin & _)];
        [by destruct (nanmax v)|]. apply Hall in Hin. congruence. }
  assert (∀ v x, x ∈ v → isnan x = false →
                 fl_leb (nanmin v) x = true ∧ fl_leb x (nanmax v) = true)
    as Hbounds.
  { intros v x Hx Hnx. split.
    - destruct (nanmin_spec v) as [[_ Hall]|(_ & _ & Hle)]; [|by apply Hle].
      apply Hall in Hx. congruence.
    - destruct (nanmax_spec v) as [[_ Hall]|(_ & _ & Hle)]; [|by apply Hle].
      apply Hall in Hx. congruence. }
  assert (∀ v, isnan (nanmin v) = false → nanmin v ∈ v ∧ nanmax v ∈ v)
    as Hattained.
  { intros v Hm. destruct (nanmin_spec v) as [[Hm' _]|(_ & Hin & _)];
      [congruence|]. split; [done|].
    destruct (nanmax_spec v) as [[_ Hall]|(_ & Hin' & _)]; [|done].
    apply Hall in Hin. congruence. }
  split_and!.
  - intros p Hp. split; intros Hn.
    + apply Hbounds; [|done]. by apply list_elem_of_fmap_2.
    + apply Hbounds; [|done]. by apply list_elem_of_fmap_2.
  - intros Hall. apply Hmissing. intros x (p & -> & Hp)%list_elem_of_fmap.
    by apply Hall.
  - intros Hall. apply Hmissing. intros y (p & -> & Hp)%list_elem_of_fmap.
    by apply Hall.
  - apply Hattained.
  - apply Hattained.
Qed.

Lemma bounding_box_encloses_witness :
  let inst := mk_Instance 1 [(dbl 3, dbl 4); (NaN, dbl 2); (dbl 1, NaN)]
                None (dbl 0) in
  ∃ ymin xmin ymax xmax,
    bounding_box inst = Some (ymin, xmin, ymax, xmax) ∧
    (isnan xmin = false →
     xmin ∈ [dbl 3; NaN; dbl 1] ∧ xmax ∈ [dbl 3; NaN; dbl 1]).
Proof.
  intros inst.
  destruct (bounding_box_encloses inst ltac:(done))
    as (ymin & xmin & ymax & xmax & Hbox & _ & _ & _ & Hx & _).
  by exists ymin, xmin, ymax, xmax.
Defined.

(** ** The optical-flow candidate maker *)

Section Flow_candidates.

Context {Image : Type}.

Variable flow_shift_instances :
  list Instance → option Image → option Image → Z → fl → Z → Z →
  M (list Instance).

Lemma flow_get_candidates_inv queue :
  ∀ (self self' : FlowCandidateMaker) t (img : option Image) cands out w w',
  flow_get_candidates flow_shift_instances self queue t img cands w
  = Some ((self', out), w') →
  flow_min_points self' = flow_min_points self ∧
  img_scale self' = img_scale self ∧
  of_window_size self' = of_window_size self ∧
  of_max_levels self' = of_max_levels self ∧
  save_shifted_instances self' = save_shifted_instances self ∧
  (save_shifted_instances self = false → self' = self) ∧
  ∃ more, out = cands ++ more.
Proof.
  induction queue as [|item queue IH];
    intros self self' t img cands out w w'; cbn [flow_get_candidates].
  - intros [= <- <- <-]. split_and!; try done. exists []. by rewrite app_nil_r.
  - case_bool_decide as Hne; [|apply IH].
    intros (shifted & w1 & Hflow & Hrest)%bind_Some.
    apply IH in Hrest as (H1 & H2 & H3 & H4 & H5 & H6 & more & ->).
    destruct (save_shifted_instances self) eqn:Hsave; simpl in *.
    + split_and!; try done; try congruence.
      exists (shifted ++ more). by rewrite (assoc_L (++)).
    + split_and!; try done; try congruence; try (by intros _; apply H6).
      exists (shifted ++ more). by rewrite (assoc_L (++)).
Qed.

(** The maker after the shifted instances of the entries [l] were saved. *)
Definition save_shifted (self : FlowCandidateMaker) (t : Z)
    (l : list (@MatchedInstance Image * list Instance))
    : FlowCandidateMaker :=
  if save_shifted_instances self then
    mk_FlowCandidateMaker (flow_min_points self) (img_scale self)
      (of_window_size self) (of_max_levels self) (save_shifted_instances self)
      (foldl (λ m p, <[(mi_t p.1, t) := p.2]> m) (shifted_instances self) l)
  else self.

(** The call of [flow_shift_instances] for one entry of the queue. *)
Definition shift_entry (self : FlowCandidateMaker) (img : option Image)
    (matched_item : @MatchedInstance Image) : M (list Instance) :=
  flow_shift_instances (instances_t matched_item) (img_t matched_item) img
    (flow_min_points self) (img_scale self) (of_window_size self)
    (of_max_levels self).

Lemma flow_get_candidates_eq (t : Z) (img : option Image) queue :
  ∀ (self : FlowCandidateMaker) acc w,
  flow_get_candidates flow_shift_instances self queue t img acc w
  = match mapM (shift_entry self img)
            (filter (λ item, instances_t item ≠ []) queue) w with
    | Some (shifted, w') =>
        Some ((save_shifted self t
                 (zip (filter (λ item, instances_t item ≠ []) queue) shifted),
               acc ++ concat shifted), w')
    | None => None
    end.
Proof.
  induction queue as [|item queue IH]; intros self acc w.
  { simpl. rewrite app_nil_r. unfold save_shifted. simpl.
    by destruct self as [? ? ? ? [] ?]. }
  cbn [flow_get_candidates]. rewrite filter_cons.
  destruct (instances_t item) as [|i0 insts] eqn:Hitem.
  { rewrite bool_decide_eq_false_2 by (simpl; lia).
    rewrite decide_False by (by intros ?). apply IH. }
  rewrite bool_decide_eq_true_2 by (simpl; lia).
  rewrite decide_True by done.
  cbn [mapM]. unfold mbind, M_bind, shift_entry at 1. rewrite Hitem.
  destruct (flow_shift_instances _ _ _ _ _ _ _ w) as [[sh w1]|]; [|done].
  rewrite IH.
  assert (shift_entry
            (if save_shifted_instances self
             then mk_FlowCandidateMaker (flow_min_points self)
                    (img_scale self) (of_window_size self)
                    (of_max_levels self) (save_shifted_instances self)
                    (<[(mi_t item, t) := sh]> (shifted_instances self))
             else self) img = shift_entry self img) as ->
      by (by destruct (save_shifted_instances self)).
  destruct (@mapM M _ _ _ _ (shift_entry self img) _ w1) as [[shs w2]|];
    [|done].
  simpl. rewrite (assoc_L (++)). do 3 f_equal.
  unfold save_shifted.
  destruct (save_shifted_instances self) eqn:Hs; simpl; [done|].
  by rewrite Hs.
Qed.

(** X12: [FlowCandidateMaker.get_candidates] runs optical flow for the queue
    entries that hold instances, once each and in the order of the queue,
    and for no other entry: it does what the calls for those entries do
    (raising when one of them raises), and the pool is the lists they return,
    one after the other.  So if no entry holds an instance (frames without
    detections), it returns an empty pool without running optical flow, and
    a missing image in such an entry does no harm.  Whenever it returns, its
    configuration is unchanged, and unless [save_shifted_instances] is set the
    maker itself is unchanged. *)
Theorem FlowCandidateMaker_get_candidates (self : FlowCandidateMaker)
    (queue : list (@MatchedInstance Image)) (t : Z) (img : option Image)
    (w : world) :
  let held := filter (λ item, instances_t item ≠ []) queue in
  get_candidates flow_shift_instances (Flow self) queue t img w
  = match mapM (shift_entry self img) held w with
    | Some (shifted, w') =>
        Some ((Flow (save_shifted self t (zip held shifted)),
               concat shifted), w')
    | None => None
    end ∧
  ((∀ item, item ∈ queue → instances_t item = []) →
   get_candidates flow_shift_instances (Flow self) queue t img w
   = Some ((Flow self, []), w)) ∧
  (∀ maker' cands w',
     get_candidates flow_shift_instances (Flow self) queue t img w
     = Some ((maker', cands), w') →
     ∃ self', maker' = Flow self' ∧
       flow_min_points self' = flow_min_points self ∧
       img_scale self' = img_scale self ∧
       of_window_size self' = of_window_size self ∧
       of_max_levels self' = of_max_levels self ∧
       (save_shifted_instances self = false → self' = self)).
Proof.
  intros held.
  assert (get_candidates flow_shift_instances (Flow self) queue t img w
          = match mapM (shift_entry self img) held w with
            | Some (shifted, w') =>
                Some ((Flow (save_shifted self t (zip held shifted)),
                       concat shifted), w')
            | None => None
            end) as Heq.
  { cbn [get_candidates]. unfold mbind, M_bind.
    rewrite flow_get_candidates_eq. fold held.
    by destruct (@mapM M _ _ _ _ (shift_entry self img) held w)
      as [[shifted w']|]. }
  split_and!; [done| |].
  - intros Hempty. rewrite Heq.
    assert (held = []) as ->.
    { unfold held. clear Heq. induction queue as [|item queue IH]; [done|].
      rewrite filter_cons, decide_False.
      - apply IH. intros item' Hitem'. apply Hempty. by right.
      - intros Hne. apply Hne, Hempty. left. }
    simpl. unfold save_shifted. simpl.
    by destruct self as [? ? ? ? [] ?].
  - intros maker' cands w'. cbn [get_candidates].
    intros ([self' cands'] & w1 & Hrun & [= <- <- <-])%bind_Some.
    apply flow_get_candidates_inv in Hrun as (? & ? & ? & ? & ? & ? & _).
    by exists self'.
Qed.

End Flow_candidates.

(** ** What a call leaves for the next one *)

Section Tracker_next_call.

Context {Image : Type}.

Variable flow_shift_instances :
  list Instance → option Image → option Image → Z → fl → Z → Z →
  M (list Instance).

(** X13: what a call returns is what the next call is matched against: when
    track_window is not 0, every returned instance with at least min_points
    visible points is in the pool the simple candidate maker draws from the
    queue after the call. *)
Theorem Tracker_track_outputs_become_candidates (self self' : @Tracker Image)
    (untracked_instances : list Instance) (img : option Image) (t : option Z)
    (w w' : world) (out : list Instance) (n : nat) (min_points : Z) :
  maxlen (track_matching_queue self) = Some n → (0 < n)%nat →
  Tracker_track flow_shift_instances self untracked_instances img t w
  = Some ((self', out), w') →
  ∀ inst, inst ∈ out → min_points ≤ Z.of_nat (n_visible_points inst) →
          inst ∈ simple_get_candidates min_points
                   (items (track_matching_queue self')).
Proof.
  intros Hmax Hpos Hrun inst Hinst Hvis.
  apply Tracker_track_queue in Hrun as (Hq & _).
  pose proof (last_deque_append (track_matching_queue self)
                (mk_MatchedInstance
                   (infer_timestep (track_matching_queue self) t) out img)
                n Hmax Hpos) as Hlast.
  rewrite <-Hq in Hlast. apply last_Some in Hlast as [l Hl].
  unfold simple_get_candidates. rewrite Hl. apply list_elem_of_bind.
  eexists. split; [|apply elem_of_app; right; left].
  apply list_elem_of_filter. by split.
Qed.

(** X14: [unique_tracks_in_queue] lists the tracks of the instances in the
    queue, each once: a track is in the list exactly when an instance of the
    queue has it.  With the simple candidate maker, from a new tracker on,
    each of them is a track the tracker spawned, so there are no more of them
    than spawned tracks. *)
Theorem unique_tracks_in_queue_spawned (self : @Tracker Image) :
  NoDup (unique_tracks_in_queue self) ∧
  (∀ k, k ∈ unique_tracks_in_queue self ↔
        ∃ item inst, item ∈ items (track_matching_queue self) ∧
                     inst ∈ instances_t item ∧ track inst = k) ∧
  (queue_tracks_spawned self →
   NoDup (spawned_tracks self) →
   (∀ k, k ∈ unique_tracks_in_queue self →
         ∃ tr, k = Some tr ∧ tr ∈ spawned_tracks self) ∧
   (length (unique_tracks_in_queue self) ≤ length (spawned_tracks self))%nat).
Proof.
  unfold unique_tracks_in_queue.
  set (ks := item ← items (track_matching_queue self);
             track <$> instances_t item).
  assert (∀ k, k ∈ remove_dups ks ↔
            ∃ item inst, item ∈ items (track_matching_queue self) ∧
                         inst ∈ instances_t item ∧ track inst = k) as Hin.
  { intros k. rewrite elem_of_remove_dups. unfold ks. split.
    - intros (item & Hk & Hitem)%list_elem_of_bind.
      apply list_elem_of_fmap in Hk as (inst & -> & Hinst).
      by exists item, inst.
    - intros (item & inst & Hitem & Hinst & <-).
      apply list_elem_of_bind. exists item. split; [|done].
      by apply list_elem_of_fmap_2. }
  split_and!; [apply NoDup_remove_dups|done|].
  intros Hinv Hnd.
  assert (∀ k, k ∈ remove_dups ks →
            ∃ tr, k = Some tr ∧ tr ∈ spawned_tracks self) as Hsp.
  { intros k (item & inst & Hitem & Hinst & <-)%Hin.
    destruct (Hinv item inst Hitem Hinst) as (tr & -> & ?). by exists tr. }
  split; [done|].
  rewrite <-(length_fmap Some (spawned_tracks self)).
  apply submseteq_length, NoDup_submseteq; [apply NoDup_remove_dups|].
  intros k Hk. destruct (Hsp k Hk) as (tr & -> & Htr).
  by apply list_elem_of_fmap_2.
Qed.

End Tracker_next_call.

Lemma Tracker_track_outputs_become_candidates_witness :
  ∃ r, Tracker_track no_flow (centroid_tracker 5 0)
         [point_instance 1 0; point_instance 2 9] None None fresh_world
       = Some r ∧
       ∀ inst, inst ∈ r.1.2 → 0 ≤ Z.of_nat (n_visible_points inst) →
               inst ∈ simple_get_candidates 0
                        (items (track_matching_queue r.1.1)).
Proof.
  destruct (run_cases (Tracker_track no_flow (centroid_tracker 5 0)
                         [point_instance 1 0; point_instance 2 9] None None
                         fresh_world)) as [[[[self' out] w'] Hrun]|Hrun].
  2:{ exfalso. revert Hrun. apply run_not_None. by vm_compute. }
  exists (self', out, w'). split; [exact Hrun|].
  exact (Tracker_track_outputs_become_candidates no_flow
           (centroid_tracker 5 0) self'
           _ _ _ _ _ _ 5%nat 0 eq_refl ltac:(lia) Hrun).
Defined.

Lemma unique_tracks_in_queue_spawned_witness :
  unique_tracks_in_queue tracker_after_one_frame = [Some (mk_Track 50 0 0)] ∧
  (∀ k, k ∈ unique_tracks_in_queue tracker_after_one_frame →
        ∃ tr, k = Some tr ∧ tr ∈ spawned_tracks tracker_after_one_frame) ∧
  (length (unique_tracks_in_queue tracker_after_one_frame)
   ≤ length (spawned_tracks tracker_after_one_frame))%nat.
Proof.
  split; [reflexivity|].
  apply (unique_tracks_in_queue_spawned tracker_after_one_frame).
  - intros item inst Hitem Hinst. simpl in Hitem.
    apply list_elem_of_singleton in Hitem. subst item. simpl in Hinst.
    apply list_elem_of_singleton in Hinst. subst inst.
    eexists. split; [reflexivity|]. simpl. apply list_elem_of_singleton.
    reflexivity.
  - simpl. apply NoDup_singleton.
Defined.

(** ** The best candidate of a track *)

(** What [np.argmax] guarantees of the index [i] it returns, [m] being the
    value there: nothing before [i] is NaN or reaches [m], and unless [m] is
    NaN nothing at all exceeds it. *)
Definition is_argmax (v : list fl) (i : nat) (m : fl) : Prop :=
  v !! i = Some m ∧
  (∀ j x, (j < i)%nat → v !! j = Some x →
          isnan x = false ∧ (isnan m = false → fl_ltb x m = true)) ∧
  (isnan m = false → ∀ x, x ∈ v → fl_leb x m = true).

Lemma fl_leb_not_nan a b : fl_leb a b = true → isnan a = false.
Proof. by destruct a, b. Qed.

Lemma fl_leb_false_lt a b c :
  isnan b = false → isnan c = false →
  fl_leb a b = true → fl_leb c b = false → fl_ltb a c = true.
Proof.
  destruct a, b, c; simpl; try done.
  rewrite !negb_true_iff, !negb_false_iff, !bool_decide_eq_false,
    !bool_decide_eq_true. lia.
Qed.

Lemma argmax_from_is_argmax v : ∀ pre mp max_ind,
  is_argmax pre max_ind mp →
  ∃ m, is_argmax (pre ++ v) (argmax_from mp max_ind (length pre) v) m.
Proof.
  induction v as [|x v IH]; intros pre mp max_ind (Hat & Hbefore & Hall); simpl.
  { exists mp. by rewrite app_nil_r. }
  destruct (decide (isnan mp = true)) as [Hmp|Hmp%not_true_is_false];
    rewrite Hmp.
  { exists mp. split_and!.
    - by apply lookup_app_l_Some.
    - intros j y Hj Hy. apply (Hbefore j y Hj).
      apply lookup_lt_Some in Hat.
      by rewrite lookup_app_l in Hy by lia.
    - by rewrite Hmp. }
  specialize (Hall Hmp).
  destruct (fl_leb x mp) eqn:Hx.
  - destruct (IH (pre ++ [x]) mp max_ind) as [m Hm].
    + split_and!.
      * by apply lookup_app_l_Some.
      * intros j y Hj Hy. apply (Hbefore j y Hj).
        apply lookup_lt_Some in Hat.
        by rewrite lookup_app_l in Hy by lia.
      * intros _ y [Hy | ->%list_elem_of_singleton]%elem_of_app; auto.
    + exists m. rewrite length_app, Nat.add_1_r, <-app_assoc in Hm. exact Hm.
  - destruct (IH (pre ++ [x]) x (length pre)) as [m Hm].
    + split_and!.
      * by rewrite lookup_app_r, Nat.sub_diag by lia.
      * intros j y Hj Hy. rewrite lookup_app_l in Hy by lia.
        assert (fl_leb y mp = true) as Hle
            by (apply Hall; by eapply list_elem_of_lookup_2).
        split; [by eapply fl_leb_not_nan|].
        intros Hnx. exact (fl_leb_false_lt y mp x Hmp Hnx Hle Hx).
      * intros Hnx y [Hy | ->%list_elem_of_singleton]%elem_of_app.
        -- apply fl_ltb_leb.
           exact (fl_leb_false_lt y mp x Hmp Hnx (Hall y Hy) Hx).
        -- by apply fl_leb_refl.
    + exists m. rewrite length_app, Nat.add_1_r, <-app_assoc in Hm. exact Hm.
Qed.

Lemma np_argmax_is_argmax v i :
  np_argmax v = Some i → ∃ m, is_argmax v i m.
Proof.
  destruct v as [|x v]; [done|]. simpl. intros [= <-].
  apply (argmax_from_is_argmax v [x] x 0%nat).
  split_and!; [done|intros; lia|].
  intros Hx y ->%list_elem_of_singleton. by apply fl_leb_refl.
Qed.

(** X15: the candidate kept for a track is the first one of the track with
    the highest similarity to the detection, a NaN similarity counting as the
    highest: no earlier candidate of the track has a NaN similarity or one as
    high, and unless the kept similarity is NaN no candidate of the track has
    a higher one.  The score kept is the similarity of that candidate. *)
Theorem best_candidate_is_first_highest
    (similarity : Instance → Instance → M fl) (untracked_instance : Instance)
    (track_instances : list Instance) (w w' : world)
    (best : Instance) (best_similarity : fl) :
  best_candidate similarity untracked_instance track_instances w
  = Some ((best, best_similarity), w') →
  ∃ sims best_ind,
    mapM (similarity untracked_instance) track_instances w = Some (sims, w') ∧
    length sims = length track_instances ∧
    track_instances !! best_ind = Some best ∧
    is_argmax sims best_ind best_similarity.
Proof.
  unfold best_candidate. intros Hrun.
  apply bind_Some in Hrun as (sims & w1 & Hsims & Hrun).
  apply bind_Some in Hrun as (i & w2 & Hi & Hrun).
  apply lift_Some in Hi as (? & Hi & [= <- <-]).
  apply bind_Some in Hrun as (b & w3 & Hb & Hrun).
  apply lift_Some in Hb as (? & Hb & [= <- <-]).
  apply bind_Some in Hrun as (s & w4 & Hs & Hrun).
  apply lift_Some in Hs as (? & Hs & [= <- <-]).
  injection Hrun as <- <- <-.
  exists sims, i. split_and!; [done| |done|].
  - symmetry. eapply Forall2_length, mapM_Forall2, Hsims.
  - destruct (np_argmax_is_argmax _ _ Hi) as (m & Hm).
    destruct Hm as (Hat & Hrest). rewrite Hs in Hat. injection Hat as <-.
    by split.
Qed.

Lemma best_candidate_is_first_highest_witness :
  ∃ r, best_candidate (centroid_distance one_point_median abscissa_distance)
         (point_instance 1 0) [point_instance 2 5; point_instance 3 1]
         fresh_world = Some r ∧
       ∃ sims best_ind,
         [point_instance 2 5; point_instance 3 1] !! best_ind = Some r.1.1 ∧
         is_argmax sims best_ind r.1.2.
Proof.
  destruct (run_cases
              (best_candidate
                 (centroid_distance one_point_median abscissa_distance)
                 (point_instance 1 0) [point_instance 2 5; point_instance 3 1]
                 fresh_world)) as [[[[best s] w'] Hrun]|Hrun].
  2:{ exfalso. revert Hrun. apply run_not_None. by vm_compute. }
  exists (best, s, w'). split; [exact Hrun|].
  destruct (best_candidate_is_first_highest _ _ _ _ _ _ _ Hrun)
    as (sims & i & _ & _ & Hbest & Hmax).
  by exists sims, i.
Defined.

(** ** The cost matrix the optimal solver is given by the tracker *)

Lemma tracker_cost_neutralised (sims : ndarray) :
  set_where isinf (Fin 0) (set_where isnan PInf (ndarray_map fl_neg sims))
  = ndarray_map (λ s, if isfinite s then fl_neg s else Fin 0) sims.
Proof.
  unfold set_where, ndarray_map. simpl. f_equal.
  rewrite <-!list_fmap_compose. apply list_fmap_ext.
  intros _ s _. by destruct s.
Qed.

(** The new cost array handed to the optimal solver. *)
Lemma new_cost_array_hungarian (sims : ndarray) (w : world) :
  let seen :=
    ndarray_map (λ s, if isfinite s then fl_neg s else Fin 0) sims in
  (cost ← new_array (set_where isnan PInf (ndarray_map fl_neg sims));
   hungarian_matching cost) w
  = lift (linear_sum_assignment seen)
      (mk_world (S (next_oid w)) (<[next_oid w := seen]> (arrays w))
                (centroid_cache w) (iou_cache w)).
Proof.
  intros seen.
  unfold new_array, hungarian_matching, fresh_oid, write_array, read_array,
    mbind, M_bind, mret, M_ret. simpl.
  rewrite lookup_insert_eq. simpl. rewrite lookup_insert_eq.
  rewrite insert_insert_eq, tracker_cost_neutralised. done.
Qed.

(** Computations that leave the arrays of the process as they are. *)
Definition keeps_arrays {A} (m : M A) : Prop :=
  ∀ w r w', m w = Some (r, w') → arrays w' = arrays w.

Lemma keeps_arrays_ret {A} (x : A) : keeps_arrays (mret x).
Proof. by intros w r w' [= <- <-]. Qed.

Lemma keeps_arrays_bind {A B} (m : M A) (f : A → M B) :
  keeps_arrays m → (∀ x, keeps_arrays (f x)) → keeps_arrays (m ≫= f).
Proof.
  intros Hm Hf w r w' (x & w1 & Hx & Hr)%bind_Some.
  etrans; [by eapply Hf|by eapply Hm].
Qed.

Lemma keeps_arrays_lift {A} (o : option A) : keeps_arrays (lift o).
Proof. by intros w r w' (x & _ & [= <- <-])%lift_Some. Qed.

Lemma keeps_arrays_mapM {A B} (f : A → M B) (l : list A) :
  (∀ x, keeps_arrays (f x)) → keeps_arrays (mapM f l).
Proof.
  intros Hf. induction l as [|x l IH]; simpl.
  - apply keeps_arrays_ret.
  - apply keeps_arrays_bind; [done|]. intros y.
    apply keeps_arrays_bind; [done|]. intros k. apply keeps_arrays_ret.
Qed.

Lemma keeps_arrays_evolve inst tr score : keeps_arrays (evolve inst tr score).
Proof.
  apply keeps_arrays_bind; [by intros w r w' [= <- <-]|]. intros o.
  apply keeps_arrays_ret.
Qed.

Lemma keeps_arrays_assign_match u mc ms e :
  keeps_arrays (assign_match u mc ms e).
Proof.
  unfold assign_match.
  apply keeps_arrays_bind; [apply keeps_arrays_lift|]. intros d.
  apply keeps_arrays_bind; [apply keeps_arrays_lift|]. intros c.
  apply keeps_arrays_bind; [apply keeps_arrays_lift|]. intros x.
  apply keeps_arrays_evolve.
Qed.

Lemma keeps_arrays_spawn_tracks min_pts t inds u : ∀ i spawned tracked,
  keeps_arrays (spawn_tracks min_pts t inds i u spawned tracked).
Proof.
  induction u as [|inst u IH]; intros i spawned tracked; cbn [spawn_tracks].
  - apply keeps_arrays_ret.
  - case_bool_decide; [apply IH|]. case_bool_decide; [apply IH|].
    apply keeps_arrays_bind; [by intros w r w' [= <- <-]|]. intros o.
    apply keeps_arrays_bind; [apply keeps_arrays_evolve|]. intros inst'.
    apply IH.
Qed.

Section Hungarian_cost.

Context {Image : Type}.

Variable flow_shift_instances :
  list Instance → option Image → option Image → Z → fl → Z → Z →
  M (list Instance).

(** X16: in a step of a tracker that uses the optimal solver, the tracker's
    NaN handling and the solver's handling of infinities compose.  When there
    are detections and candidates, scipy is given the matrix with 0 where the
    best similarity of a detection for a track is NaN or infinite and the
    negated similarity elsewhere, so only finite costs; the pairs matched in
    the step are its answer on that matrix; and that matrix is what the step
    leaves in the cost array it made, the other arrays being untouched. *)
Theorem tracker_cost_seen_by_hungarian (self self' : @Tracker Image)
    (untracked_instances : list Instance) (img : option Image) (t : option Z)
    (w w' : world) (out : list Instance)
    (maker : CandidateMaker) (c0 : Instance) (cands : list Instance)
    (w1 : world) :
  matching_function self = hungarian_matching →
  untracked_instances ≠ [] →
  get_candidates flow_shift_instances (candidate_maker self)
    (items (track_matching_queue self))
    (infer_timestep (track_matching_queue self) t) img w
  = Some ((maker, c0 :: cands), w1) →
  Tracker_track flow_shift_instances self untracked_instances img t w
  = Some ((self', out), w') →
  ∃ scored w2 matches,
    let by_track := group_by_track (c0 :: cands) in
    let matching_similarities :=
      mk_ndarray (length untracked_instances, length by_track)
        (concat ((λ row : list (Instance * fl), row.*2) <$> scored)) in
    let seen :=
      ndarray_map (λ s, if isfinite s then fl_neg s else Fin 0)
        matching_similarities in
    score_candidates (similarity_function self) untracked_instances
      by_track w1 = Some (scored, w2) ∧
    linear_sum_assignment seen = Some matches ∧
    step_matches flow_shift_instances self untracked_instances img
      (infer_timestep (track_matching_queue self) t) w scored matches ∧
    arrays w' = <[next_oid w2 := seen]> (arrays w2) ∧
    Forall (λ x, isfinite x = true) (data seen).
Proof.
  intros Hsolver Hu Hget. rewrite Tracker_track_unfold. simpl.
  destruct (match_candidates _ _ _ _ _ _)
    as [[[[maker' tracked] inds] w3]|] eqn:Hmatch; [|done].
  destruct (spawn_tracks _ _ _ _ _ _ _ _) as [[[spawned out'] w4]|] eqn:Hspawn;
    [|done].
  intros [= <- <- <-].
  apply keeps_arrays_spawn_tracks in Hspawn.
  unfold match_candidates in Hmatch.
  rewrite bool_decide_eq_true_2 in Hmatch
    by (destruct untracked_instances; [done|simpl; lia]).
  apply bind_Some in Hmatch as ([maker'' cands'] & w5 & Hget' & Hrest).
  rewrite Hget in Hget'. injection Hget' as <- <- <-.
  rewrite bool_decide_eq_true_2 in Hrest by (simpl; lia).
  apply bind_Some in Hrest as (scored & w2 & Hscored & Hrest).
  apply bind_Some in Hrest as (cost & w6 & Hcost & Hrest).
  apply bind_Some in Hrest as (matches & w7 & Hmatches & Hrest).
  apply bind_Some in Hrest as (tr & w8 & Htr & [= <- <- <- <-]).
  apply (keeps_arrays_mapM _ _ (keeps_arrays_assign_match _ _ _)) in Htr.
  exists scored, w2, matches. cbv zeta.
  set (sims := mk_ndarray _ _) in *.
  pose proof (new_cost_array_hungarian sims w2) as Hnew. cbv zeta in Hnew.
  unfold mbind, M_bind in Hnew. rewrite Hcost in Hnew.
  assert (hungarian_matching cost w6 = Some (matches, w7)) as Hrun
      by by rewrite <-Hsolver.
  rewrite Hrun in Hnew. symmetry in Hnew.
  apply lift_Some in Hnew as (? & Hlsa & [= <- ->]).
  split_and!; [done|done| |by rewrite Hspawn, Htr|].
  - unfold step_matches. destruct untracked_instances as [|d0 u]; [done|].
    exists maker, (c0 :: cands), w1. split; [done|].
    exists w2, cost, w6. eexists. split_and!; [done|done|].
    rewrite Hsolver. exact Hrun.
  - simpl. apply Forall_fmap, Forall_forall. intros s _. by destruct s.
Qed.

End Hungarian_cost.

(** [centroid_tracker 5 0] with the optimal solver, and one tracked instance
    in its queue, as after a first call. *)
Definition hungarian_tracker_after_one_frame : @Tracker unit :=
  let tr := mk_Track 50 0 0 in
  mk_Tracker 5 (centroid_distance one_point_median abscissa_distance)
    hungarian_matching (Simple 0) 0
    (mk_deque (Some 5%nat)
       [mk_MatchedInstance 0
          [mk_Instance 1 [(dbl 0, dbl 0)] (Some tr) (dbl 0)] None])
    [tr] false ∅.

Lemma tracker_cost_seen_by_hungarian_witness :
  let u := [point_instance 2 3; empty_instance 3] in
  ∃ r, Tracker_track no_flow hungarian_tracker_after_one_frame u None None
         fresh_world = Some r ∧
       arrays r.2 !! 100%nat = Some (mk_ndarray (2, 1)%nat [dbl 3; Fin 0]) ∧
       ∃ scored matches,
         step_matches no_flow hungarian_tracker_after_one_frame u None 1
           fresh_world scored matches ∧
         linear_sum_assignment
           (ndarray_map (λ s, if isfinite s then fl_neg s else Fin 0)
              (mk_ndarray (2, 1)%nat
                 (concat ((λ row : list (Instance * fl), row.*2) <$> scored))))
         = Some matches.
Proof.
  intros u.
  destruct (run_cases (Tracker_track no_flow hungarian_tracker_after_one_frame
                         u None None fresh_world))
    as [[[[self' out] w'] Hrun]|Hrun].
  2:{ exfalso. revert Hrun. apply run_not_None. by vm_compute. }
  exists (self', out, w'). split; [exact Hrun|]. split.
  { assert ((λ r : Tracker * list Instance * world, arrays r.2 !! 100%nat)
            <$> Tracker_track no_flow hungarian_tracker_after_one_frame u
                  None None fresh_world
            = Some (Some (mk_ndarray (2, 1)%nat [dbl 3; Fin 0]))) as Harr
        by by vm_compute.
    rewrite Hrun in Harr. by injection Harr. }
  destruct (tracker_cost_seen_by_hungarian no_flow
              hungarian_tracker_after_one_frame self' u None None
              fresh_world w' out (Simple 0)
              (mk_Instance 1 [(dbl 0, dbl 0)] (Some (mk_Track 50 0 0)) (dbl 0))
              [] fresh_world eq_refl ltac:(done) eq_refl Hrun)
    as (scored & w2 & matches & _ & Hlsa & Hstep & _).
  by exists scored, matches.
Defined.

(** ** Instances shifted by optical flow *)

Lemma np_split_lengths {A B} (xs : list (list B)) : ∀ rows : list A,
  xs ≠ [] → length rows = length (concat xs) →
  Forall2 (λ x piece, length piece = length x) xs
          (np_split (length <$> xs) rows).
Proof.
  induction xs as [|x xs IH]; intros rows Hne Hlen; [done|].
  simpl in Hlen. rewrite length_app in Hlen.
  destruct xs as [|y xs].
  - simpl in *. constructor; [lia|constructor].
  - change (np_split (length <$> x :: y :: xs) rows)
      with (take (length x) rows
              :: np_split (length <$> y :: xs) (drop (length x) rows)).
    constructor.
    + rewrite length_take. lia.
    + apply IH; [done|]. rewrite length_drop. lia.
Qed.

Section Optical_flow_properties.

Context {Image : Type}.

Variable optical_flow :
  Image → option Image → fl → Z → Z → list (fl * fl) →
  option (list (fl * fl * bool * fl)).

Variable neg_mean : list fl → fl.

(** The reference instances that are shifted: those with more than
    [min_shifted_points] points found. *)
Definition enough_found (min_shifted_points : Z)
    (p : Instance * list (fl * fl * bool * fl)) : Prop :=
  min_shifted_points
  < Z.of_nat (length (filter (λ r : fl * fl * bool * fl, r.1.2 = true) p.2)).

Global Instance enough_found_dec m p : Decision (enough_found m p).
Proof. unfold enough_found. apply _. Defined.

Lemma shift_each_spec (min_shifted_points : Z) l : ∀ w shifted w',
  shift_each neg_mean min_shifted_points l w = Some (shifted, w') →
  Forall2 (λ (p : Instance * list (fl * fl * bool * fl)) s,
             track s = track p.1 ∧
             points_array s
             = ((λ r : fl * fl * bool * fl,
                   if r.1.2 then r.1.1 else (NaN, NaN)) <$> p.2) ∧
             tracking_score s
             = neg_mean (snd <$> filter (λ r : fl * fl * bool * fl,
                                           r.1.2 = true) p.2))
          (filter (enough_found min_shifted_points) l) shifted ∧
  oid <$> shifted = seq (next_oid w) (length shifted) ∧
  next_oid w' = (next_oid w + length shifted)%nat ∧
  arrays w' = arrays w ∧ same_caches w w'.
Proof.
  induction l as [|[ref piece] rest IH]; intros w shifted w'.
  { intros [= <- <-]. simpl. by split_and!; [constructor|..]. }
  cbn [shift_each]. rewrite filter_cons. unfold enough_found at 1.
  cbn [snd]. case_bool_decide as Hfound.
  - rewrite decide_True by done.
    intros (s & w1 & Hs & Hrest)%bind_Some.
    apply bind_Some in Hrest as (ss & w2 & Hss & [= <- <-]).
    unfold from_instance in Hs.
    apply bind_Some in Hs as (o & w0 & [= <- <-] & [= <- <-]).
    destruct (IH _ _ _ Hss) as (Hall & Hoids & Hnext & Harr & Hc1 & Hc2).
    split_and!.
    + by constructor.
    + rewrite fmap_cons, Hoids. done.
    + rewrite Hnext. simpl. lia.
    + by rewrite Harr.
    + split; [exact Hc1|exact Hc2].
  - rewrite decide_False by done. apply IH.
Qed.

Lemma np_split_concat {A} (lens : list nat) : ∀ rows : list A,
  concat (np_split lens rows) = rows.
Proof.
  induction lens as [|n lens IH]; intros rows; simpl.
  { by rewrite app_nil_r. }
  destruct lens as [|m lens]; simpl.
  { by rewrite app_nil_r. }
  specialize (IH (drop n rows)). simpl in IH. rewrite IH.
  apply take_drop.
Qed.

(** X17: when [flow_shift_instances] returns, the previous image was there and
    there was a reference instance.  Given that optical flow gives one row
    (shifted point, status, error) per point, the rows split into one piece
    per reference instance, with a row for each of its points, and the
    instances returned come, in order, from exactly the reference instances
    with more than [min_shifted_points] points found: each is a new object
    that has the track of its reference instance, the shifted point where
    the status says found and (NaN, NaN) elsewhere, and as score minus the
    mean error of the found points.  The arrays and the caches of the process
    are as they were. *)
Theorem FlowCandidateMaker_flow_shift_instances_spec
    (ref_instances : list Instance) (ref_img new_img : option Image)
    (min_shifted_points : Z) (scale : fl) (window_size max_levels : Z)
    (w w' : world) (shifted_instances : list Instance) :
  (∀ a b s ws ml pts rows,
     optical_flow a b s ws ml pts = Some rows → length rows = length pts) →
  FlowCandidateMaker_flow_shift_instances optical_flow neg_mean ref_instances
    ref_img new_img min_shifted_points scale window_size max_levels w
  = Some (shifted_instances, w') →
  ∃ prev_img rows pieces,
    ref_img = Some prev_img ∧ ref_instances ≠ [] ∧
    optical_flow prev_img new_img scale window_size max_levels
      (concat (points_array <$> ref_instances)) = Some rows ∧
    concat pieces = rows ∧
    Forall2 (λ ref piece, length piece = length (points_array ref))
            ref_instances pieces ∧
    Forall2 (λ (p : Instance * list (fl * fl * bool * fl)) s,
               track s = track p.1 ∧
               points_array s
               = ((λ r : fl * fl * bool * fl,
                     if r.1.2 then r.1.1 else (NaN, NaN)) <$> p.2) ∧
               tracking_score s
               = neg_mean (snd <$> filter (λ r : fl * fl * bool * fl,
                                             r.1.2 = true) p.2))
            (filter (enough_found min_shifted_points)
                    (zip ref_instances pieces))
            shifted_instances ∧
    NoDup (oid <$> shifted_instances) ∧
    Forall (λ s, (next_oid w ≤ oid s < next_oid w')%nat) shifted_instances ∧
    arrays w' = arrays w ∧ same_caches w w'.
Proof.
  intros Hflow. unfold FlowCandidateMaker_flow_shift_instances.
  destruct ref_img as [prev_img|]; [|done].
  case_bool_decide as Hrefs; [done|].
  intros (rows & w1 & (? & Hrows & [= <- <-])%lift_Some & Hrun)%bind_Some.
  apply Hflow in Hrows as Hlen.
  pose proof (np_split_lengths (points_array <$> ref_instances) rows Hrefs Hlen)
    as Hpieces.
  rewrite Forall2_fmap_l in Hpieces.
  pose proof (np_split_concat (length <$> (points_array <$> ref_instances))
                rows) as Hconcat.
  set (pieces := np_split _ rows) in *.
  apply shift_each_spec in Hrun as (Hall & Hoids & Hnext & Harr & Hcaches).
  exists prev_img, rows, pieces.
  split_and!; try done.
  - by intros ->.
  - rewrite Hoids. apply NoDup_seq.
  - apply Forall_forall. intros s Hs.
    assert (oid s ∈ oid <$> shifted_instances) as Ho
        by by apply list_elem_of_fmap_2.
    rewrite Hoids in Ho. apply elem_of_seq in Ho. lia.
Qed.

End Optical_flow_properties.

(** ** The tracks of a tracker on optical flow *)

Section Flow_tracker_tracks.

Context {Image : Type}.

Variable optical_flow :
  Image → option Image → fl → Z → Z → list (fl * fl) →
  option (list (fl * fl * bool * fl)).

Variable neg_mean : list fl → fl.

Local Abbreviation flow_shift_instances :=
  (FlowCandidateMaker_flow_shift_instances optical_flow neg_mean).

Lemma flow_shift_instances_tracks (ref_instances : list Instance)
    ref_img new_img m scale ws ml w shifted w' s :
  flow_shift_instances ref_instances ref_img new_img m scale ws ml w
  = Some (shifted, w') →
  s ∈ shifted → ∃ ref, ref ∈ ref_instances ∧ track s = track ref.
Proof.
  unfold FlowCandidateMaker_flow_shift_instances.
  destruct ref_img as [ref_img|]; [|done].
  case_bool_decide as Hrefs; [done|].
  intros (rows & w1 & _ & Hrun)%bind_Some Hs.
  apply shift_each_spec in Hrun as (Hall & _).
  apply list_elem_of_lookup in Hs as [i Hi].
  destruct (Forall2_lookup_r _ _ _ _ _ Hall Hi)
    as ([ref piece] & Hp & Htr & _).
  apply list_elem_of_lookup_2, list_elem_of_filter in Hp as [_ Hp].
  apply elem_of_zip_l in Hp. by exists ref.
Qed.

Lemma flow_get_candidates_tracks queue : ∀ (self : FlowCandidateMaker)
    acc t (img : option Image) w self' cands w' c,
  flow_get_candidates flow_shift_instances self queue t img acc w
  = Some ((self', cands), w') →
  c ∈ cands →
  c ∈ acc ∨ ∃ item ref, item ∈ queue ∧ ref ∈ instances_t item ∧
                        track c = track ref.
Proof.
  induction queue as [|item queue IH]; intros self acc t img w self' cands w' c.
  { intros [= <- <- <-]. by left. }
  cbn [flow_get_candidates]. case_bool_decide as Hlen.
  - intros (shifted & w1 & Hshift & Hrest)%bind_Some Hc.
    destruct (IH _ _ _ _ _ _ _ _ _ Hrest Hc)
      as [[Hacc|Hs]%elem_of_app|(item' & ref & ? & ? & ?)].
    + by left.
    + right.
      destruct (flow_shift_instances_tracks _ _ _ _ _ _ _ _ _ _ _ Hshift Hs)
        as (ref & Href & Htr).
      exists item, ref. split_and!; [left|done|done].
    + right. exists item', ref. split_and!; [by right|done|done].
  - intros Hrest Hc.
    destruct (IH _ _ _ _ _ _ _ _ _ Hrest Hc)
      as [?|(item' & ref & ? & ? & ?)]; [by left|].
    right. exists item', ref. split_and!; [by right|done|done].
Qed.

(** X18: with the optical-flow candidate maker too, every instance a call
    returns carries a track the tracker itself spawned, in this call or an
    earlier one, and so does every instance kept in the queue: a shifted
    instance has the track of the instance it was shifted from. *)
Theorem Tracker_track_flow_output_tracks (self self' : @Tracker Image)
    (maker : FlowCandidateMaker)
    (untracked_instances : list Instance) (img : option Image) (t : option Z)
    (w w' : world) (out : list Instance) :
  candidate_maker self = Flow maker →
  queue_tracks_spawned self →
  Tracker_track flow_shift_instances self untracked_instances img t w
  = Some ((self', out), w') →
  (∀ inst, inst ∈ out →
           ∃ tr, track inst = Some tr ∧ tr ∈ spawned_tracks self') ∧
  queue_tracks_spawned self'.
Proof.
  intros Hmaker. apply Tracker_track_tracks_from_queue.
  intros maker' cands w2 c Hget Hc. rewrite Hmaker in Hget.
  unfold get_candidates in Hget.
  apply bind_Some in Hget as ([fm cands'] & w3 & Hflow & [= <- <- <-]).
  destruct (flow_get_candidates_tracks _ _ _ _ _ _ _ _ _ _ Hflow Hc)
    as [?%elem_of_nil|?]; done.
Qed.

End Flow_tracker_tracks.

(** An optical flow that finds every point with no missing coordinate where
    it was, with no error, when the new image is there. *)
Definition still_flow (ref_img : unit) (new_img : option unit) (scale : fl)
    (window_size max_levels : Z) (pts : list (fl * fl))
    : option (list (fl * fl * bool * fl)) :=
  match new_img with
  | Some _ =>
      Some ((λ p : fl * fl,
               (p, negb (isnan p.1 || isnan p.2), dbl 0)) <$> pts)
  | None => None
  end.

Definition first_or_nan (v : list fl) : fl := fl_neg (default NaN (head v)).

(** [centroid_tracker 5 0] on optical flow, with one tracked instance in its
    queue, as after a first call. *)
Definition flow_tracker_after_one_frame : @Tracker unit :=
  let tr := mk_Track 50 0 0 in
  mk_Tracker 5 (centroid_distance one_point_median abscissa_distance)
    (@call_greedy_matching stable_argsort)
    (Flow (mk_FlowCandidateMaker 0 (dbl 1) 21 3 false ∅)) 0
    (mk_deque (Some 5%nat)
       [mk_MatchedInstance 0
          [mk_Instance 1 [(dbl 0, dbl 0)] (Some tr) (dbl 0)] (Some ())])
    [tr] false ∅.

Lemma FlowCandidateMaker_flow_shift_instances_spec_witness :
  let refs := [mk_Instance 1 [(dbl 0, dbl 0); (NaN, dbl 1)] None (dbl 0);
               empty_instance 2; point_instance 3 7] in
  ∃ r, FlowCandidateMaker_flow_shift_instances still_flow first_or_nan
         refs (Some ()) (Some ()) 0 (dbl 1) 21 3 fresh_world = Some r ∧
       points_array <$> r.1
       = [[(dbl 0, dbl 0); (NaN, NaN)]; [(dbl 7, dbl 0)]] ∧
       ∃ pieces,
         Forall2 (λ ref piece, length piece = length (points_array ref))
                 refs pieces ∧
         Forall2 (λ (p : Instance * list (fl * fl * bool * fl)) s,
                    track s = track p.1 ∧
                    points_array s
                    = ((λ r : fl * fl * bool * fl,
                          if r.1.2 then r.1.1 else (NaN, NaN)) <$> p.2))
                 (filter (enough_found 0) (zip refs pieces)) r.1 ∧
         NoDup (oid <$> r.1).
Proof.
  intros refs.
  destruct (run_cases
              (FlowCandidateMaker_flow_shift_instances still_flow first_or_nan
                 refs (Some ()) (Some ()) 0 (dbl 1) 21 3 fresh_world))
    as [[[shifted w'] Hrun]|Hrun].
  2:{ exfalso. revert Hrun. apply run_not_None. by vm_compute. }
  exists (shifted, w'). split; [exact Hrun|]. split.
  { assert ((λ r : list Instance * world, points_array <$> r.1)
            <$> FlowCandidateMaker_flow_shift_instances still_flow
                  first_or_nan refs (Some ()) (Some ()) 0 (dbl 1) 21 3
                  fresh_world
            = Some [[(dbl 0, dbl 0); (NaN, NaN)]; [(dbl 7, dbl 0)]]) as Hpts
        by by vm_compute.
    rewrite Hrun in Hpts. by injection Hpts. }
  assert (∀ a b s ws ml pts rows,
            still_flow a b s ws ml pts = Some rows → length rows = length pts)
    as Hflow.
  { intros a b s ws ml pts rows. unfold still_flow.
    destruct b; [|done]. intros [= <-]. apply length_fmap. }
  destruct (FlowCandidateMaker_flow_shift_instances_spec still_flow
              first_or_nan _ _ _ _ _ _ _ _ _ _ Hflow Hrun)
    as (prev & rows & pieces & _ & _ & _ & _ & Hpieces & Hall & Hnd & _).
  exists pieces. split_and!; [exact Hpieces| |exact Hnd].
  eapply Forall2_impl; [exact Hall|]. simpl. by intros p s (? & ? & _).
Defined.

Lemma Tracker_track_flow_output_tracks_witness :
  ∃ r, Tracker_track
         (FlowCandidateMaker_flow_shift_instances still_flow first_or_nan)
         flow_tracker_after_one_frame
         [point_instance 2 1; point_instance 3 9] (Some ()) None fresh_world
       = Some r ∧
       ∀ inst, inst ∈ r.1.2 →
               ∃ tr, track inst = Some tr ∧ tr ∈ spawned_tracks r.1.1.
Proof.
  destruct (run_cases
              (Tracker_track
                 (FlowCandidateMaker_flow_shift_instances still_flow
                    first_or_nan)
                 flow_tracker_after_one_frame
                 [point_instance 2 1; point_instance 3 9] (Some ()) None
                 fresh_world)) as [[[[self' out] w'] Hrun]|Hrun].
  2:{ exfalso. revert Hrun. apply run_not_None. by vm_compute. }
  exists (self', out, w'). split; [exact Hrun|].
  assert (queue_tracks_spawned flow_tracker_after_one_frame) as Hinv.
  { intros item inst Hitem Hinst. simpl in Hitem.
    apply list_elem_of_singleton in Hitem. subst item. simpl in Hinst.
    apply list_elem_of_singleton in Hinst. subst inst.
    eexists. split; [reflexivity|]. simpl. apply list_elem_of_singleton.
    reflexivity. }
  destruct (Tracker_track_flow_output_tracks still_flow first_or_nan
              flow_tracker_after_one_frame self' _ _ _ _ _ _ _ eq_refl Hinv
              Hrun) as [Hout _].
  exact Hout.
Defined.
